(** * Player and PuzzleObjectSpawner

    A shallow embedding of the player controller (class [Player]) and of
    the collectible spawner (src/puzzleObject.ts), with the properties of
    the inventory rules, the potion transformation, the save round trip,
    reachability and movement.

    Conventions of the embedding.
    - A TypeScript [number] is an IEEE 754 binary64 value, the primitive
      [float]: arithmetic rounds to the nearest value, ties to even, a
      comparison with NaN is false and the two zeros are equal.  The
      length of an array enters a comparison as the number it converts
      to ([toNumber]); an array is a list, and what a statement needs
      of the bound that JavaScript puts on its length, 2^32, it says
      with [arrayLength].  Indices, which only [indexOf] and [splice]
      exchange, are integers ([Z]).
    - A value of an object type that may be [undefined] is an [option];
      [None] is [undefined].
    - Objects are compared by identity in the source ([===], [indexOf]).
      The immutable definition objects carry their identity in the field
      [oid], so that identity is equality of the records.
    - A method is a function of the state it mutates.  It yields a
      completion (normal return or thrown error), the state it leaves and
      the calls it made to the audio, toast, save and window services.
      These services and the hotbar are not among the sources; their
      calls are recorded and taken to return.
    - Property lookup in the object literal [puzzleObjects] reads the
      entries of the object itself and then the properties every object
      literal inherits from [Object.prototype].  The registry of the
      materials is not among the sources; lookup in it is taken to read
      its entries. *)

From Stdlib Require Import ZArith Lia Floats.
From Stdlib Require Uint63.
From stdpp Require Import base option list strings gmap.

Open Scope string_scope.
Open Scope list_scope.
Set Warnings "-inexact-float".

(** ** Completions *)

Inductive Error :=
  | JsError (message : string)     (* throw new Error(message) *)
  | TypeError (message : string).  (* a property read on undefined *)

Inductive completion (A : Type) :=
  | Normal (a : A)
  | Throw (e : Error).
Arguments Normal {A} a.
Arguments Throw {A} e.

Definition cbind {A B} (c : completion A) (k : A -> completion B) : completion B :=
  match c with
  | Normal a => k a
  | Throw e => Throw e
  end.

Definition throws {A} (c : completion A) : Prop :=
  match c with
  | Normal _ => False
  | Throw _ => True
  end.

(** [a ?? b] *)
Definition nullish {A} (a : option A) (b : A) : A :=
  match a with
  | Some v => v
  | None => b
  end.

(** ** Numbers *)

Definition number : Set := float.

(** The number an array length converts to; lengths, which are below
    2^32, convert exactly. *)
Definition toNumber (n : nat) : number := of_uint63 (Uint63.of_Z (Z.of_nat n)).

Module Math.
Definition abs (a : number) : number := PrimFloat.abs a.

(** [Math.max(a, b)]: NaN when an argument is NaN; +0 is larger than -0. *)
Definition max (a b : number) : number :=
  if is_nan a || is_nan b then nan
  else if (a <? b)%float then b
  else if (b <? a)%float then a
  else if get_sign a then b else a.

(** [Math.min(a, b)]: NaN when an argument is NaN; -0 is smaller than +0. *)
Definition min (a b : number) : number :=
  if is_nan a || is_nan b then nan
  else if (a <? b)%float then a
  else if (b <? a)%float then b
  else if get_sign a then a else b.
End Math.

(** The exact value of a number that is zero or finite, in units of
    2^-1074, of which every finite double is a whole multiple: the
    double of sign [s], mantissa [m] and exponent [e] is
    [(-1)^s * m * 2^e], with [e >= -1074]. *)
Definition SFexact (x : spec_float) : Z :=
  match x with
  | S754_finite s m e => cond_Zopp s (Zpos m * 2 ^ (e + 1074))
  | _ => 0
  end.

Definition exactValue (a : number) : Z := SFexact (Prim2SF a).

Definition SFfinite (x : spec_float) : Prop :=
  match x with S754_zero _ | S754_finite _ _ _ => True | _ => False end.

(** ** Arrays *)

Module Array.
Section Array.
Context {A : Type} `{EqDecision A}.

(** [l.indexOf(v)]: the first index holding [v], or -1. *)
Definition indexOf (l : list A) (v : A) : Z :=
  match list_find (fun a => a = v) l with
  | Some (i, _) => Z.of_nat i
  | None => (-1)%Z
  end.

(** [l.splice(start, deleteCount, ...items)]: the array after the call.
    A negative [start] counts from the end; both arguments are clamped
    to the array. *)
Definition splice (l : list A) (start deleteCount : Z) (items : list A) : list A :=
  let len := Z.of_nat (length l) in
  let actualStart :=
    if (start <? 0)%Z then Z.max (len + start) 0 else Z.min start len in
  let actualDeleteCount := Z.min (Z.max deleteCount 0) (len - actualStart) in
  take (Z.to_nat actualStart) l ++ items
    ++ drop (Z.to_nat actualStart + Z.to_nat actualDeleteCount) l.

Definition push (l : list A) (v : A) : list A := l ++ [v].

(** [l.find(pred)] for a predicate that may throw: the first element on
    which [pred] is true; [None] when there is none. *)
Fixpoint find (pred : A -> completion bool) (l : list A) : completion (option A) :=
  match l with
  | [] => Normal None
  | a :: l' =>
      cbind (pred a) (fun b => if b then Normal (Some a) else find pred l')
  end.

(** [l.map(f)] for a function that may throw. *)
Fixpoint map {B} (f : A -> completion B) (l : list A) : completion (list B) :=
  match l with
  | [] => Normal []
  | a :: l' => cbind (f a) (fun b => cbind (map f l') (fun bs => Normal (b :: bs)))
  end.
End Array.
End Array.

(** ** Registries

    A registry object, as the list [Object.entries] returns. *)

Definition registry (A : Type) : Type := list (string * A).

Section Registry.
Context {A : Type} `{EqDecision A}.

(** The own property [k] of [reg]. *)
Definition lookupKey (reg : registry A) (k : string) : option A :=
  (fun r => r.2.2) <$> list_find (fun e => e.1 = k) reg.

(** [reg[k]] for an object [reg] whose prototype is [proto]: the own
    property, or else the inherited one. *)
Definition getProperty (reg proto : registry A) (k : string) : option A :=
  match lookupKey reg k with
  | Some v => Some v
  | None => lookupKey proto k
  end.

(** [Object.entries(reg).find(([_, o]) => o === v)] *)
Definition entryOf (reg : registry A) (v : option A) : option (string * A) :=
  snd <$> list_find (fun e => Some e.2 = v) reg.
End Registry.

(** A function that answers the key of [Object.entries(reg).find(..)]
    and throws when there is no entry. *)
Definition reverseLookupOf {A} `{EqDecision A} (reg : registry A)
    (getType : option A -> completion string) : Prop :=
  forall v, match entryOf reg v with
            | Some entry => getType v = Normal entry.1
            | None => throws (getType v)
            end.

(** ** Puzzle objects (src/puzzleObject.ts) *)

(** A value seen through the interface [PuzzleObject].  The interface
    promises [name] and [description]; a value that is not one of the
    definitions need not have them. *)
Module PuzzleObject.
Record t := {
  oid : nat;
  name : option string;
  description : option string;
  inventoryImageUrl : option string;
  spawnerImageUrl : option string }.

#[global] Instance eq_dec : EqDecision t.
Proof. solve_decision. Defined.
End PuzzleObject.

Definition emojipedia (path : string) : string :=
  "https://emojipedia-us.s3.dualstack.us-west-1.amazonaws.com/thumbs/120/" +:+ path.

Definition puzzleObjects : registry PuzzleObject.t :=
  [ ("key",
     {| PuzzleObject.oid := 0;
        PuzzleObject.name := Some "Key";
        PuzzleObject.description := Some "A plain key with a loop and a couple of teeth";
        PuzzleObject.inventoryImageUrl := Some (emojipedia "google/298/old-key_1f5dd-fe0f.png");
        PuzzleObject.spawnerImageUrl := Some (emojipedia "google/298/old-key_1f5dd-fe0f.png") |});
    ("small-key",
     {| PuzzleObject.oid := 1;
        PuzzleObject.name := Some "Small Key";
        PuzzleObject.description := Some "This key has become really tiny! It looks like it's the right size to fit into a lockbox of some kind.";
        PuzzleObject.inventoryImageUrl := Some (emojipedia "google/298/old-key_1f5dd-fe0f.png");
        PuzzleObject.spawnerImageUrl := Some (emojipedia "google/298/old-key_1f5dd-fe0f.png") |});
    ("big-key",
     {| PuzzleObject.oid := 2;
        PuzzleObject.name := Some "Big Key";
        PuzzleObject.description := Some "This key has become really tiny! It looks like it's the right size to fit into a lockbox of some kind.";
        PuzzleObject.inventoryImageUrl := Some "https://static.wikia.nocookie.net/zelda/images/0/09/Boss_Key_%28Ocarina_of_Time%29.png";
        PuzzleObject.spawnerImageUrl := Some "https://static.wikia.nocookie.net/zelda/images/0/09/Boss_Key_%28Ocarina_of_Time%29.png" |});
    ("radio",
     {| PuzzleObject.oid := 3;
        PuzzleObject.name := Some "Broken Radio";
        PuzzleObject.description := Some "This radio is looking fine, but it won't play any tunes! It seems like it has been drained of power, and just needs some energy to start playing again.";
        PuzzleObject.inventoryImageUrl := Some (emojipedia "google/298/radio_1f4fb.png");
        PuzzleObject.spawnerImageUrl := Some (emojipedia "google/298/radio_1f4fb.png") |});
    ("gravity-stone",
     {| PuzzleObject.oid := 4;
        PuzzleObject.name := Some "Gravity Stone";
        PuzzleObject.description := Some "This rock is made out of some very heavy minerals and metals! It’s also really slippery, and it feels like it might fall from your grasp. Watch your toes!";
        PuzzleObject.inventoryImageUrl := Some (emojipedia "google/298/rock_1faa8.png");
        PuzzleObject.spawnerImageUrl := Some (emojipedia "google/298/rock_1faa8.png") |}) ].

(** What the object literal inherits from [Object.prototype]: eleven
    functions, each with a [name] of its own, and the accessor
    [__proto__], which answers [Object.prototype] itself.  None of them
    has a [description] or an image. *)
Definition inherited (oid : nat) (name : option string) : PuzzleObject.t :=
  {| PuzzleObject.oid := oid;
     PuzzleObject.name := name;
     PuzzleObject.description := None;
     PuzzleObject.inventoryImageUrl := None;
     PuzzleObject.spawnerImageUrl := None |}.

Definition Object_prototype : registry PuzzleObject.t :=
  [ ("constructor", inherited 5 (Some "Object"));
    ("__defineGetter__", inherited 6 (Some "__defineGetter__"));
    ("__defineSetter__", inherited 7 (Some "__defineSetter__"));
    ("hasOwnProperty", inherited 8 (Some "hasOwnProperty"));
    ("__lookupGetter__", inherited 9 (Some "__lookupGetter__"));
    ("__lookupSetter__", inherited 10 (Some "__lookupSetter__"));
    ("isPrototypeOf", inherited 11 (Some "isPrototypeOf"));
    ("propertyIsEnumerable", inherited 12 (Some "propertyIsEnumerable"));
    ("toString", inherited 13 (Some "toString"));
    ("valueOf", inherited 14 (Some "valueOf"));
    ("__proto__", inherited 15 None);
    ("toLocaleString", inherited 16 (Some "toLocaleString")) ].

(** [puzzleObjects[k]] *)
Definition puzzleObjectAt (k : string) : option PuzzleObject.t :=
  getProperty puzzleObjects Object_prototype k.

Definition getPuzzleObjectType (puzzleObject : option PuzzleObject.t) : completion string :=
  match entryOf puzzleObjects puzzleObject with
  | None => Throw (JsError "PuzzleObject not found.")
  | Some entry => Normal entry.1
  end.

(** ** Materials (material.js, not among the sources)

    The fields of a material that the player reads. *)

Module Material.
Record t := {
  oid : nat;
  name : string;
  inventoryImageUrl : option string;
  worldImageUrl : option string }.

#[global] Instance eq_dec : EqDecision t.
Proof. solve_decision. Defined.
End Material.

(** Modelled from the spec: material.js is missing.  [materials] is the
    registry object of the materials, any object with string keys, and
    [getMaterialType] the reverse lookup of a definition in it, which
    throws when the definition is not found, as its sibling
    [getPuzzleObjectType] does for puzzle objects. *)
Class MaterialRegistry := {
  materials : registry Material.t;
  materials_keys : NoDup materials.*1;
  getMaterialType : option Material.t -> completion string;
  getMaterialType_spec : reverseLookupOf materials getMaterialType }.

(** ** Potions (potions.js): the two fields the player reads *)

Record Potion := {
  applyTo : string;
  turnsInto : string }.

(** ** The services the player calls (hud.js, audio.js, toast.js, main.js)

    A hotbar entry holds the closure to run on activation; the closures
    of the source are the two cases of [Activation], each with the
    variables it captures. *)

Inductive Activation :=
  | depositMaterial (mat : Material.t)
  | openPuzzleObjectWindow (obj : PuzzleObject.t).

Module HotbarItem.
Record t := {
  imageUrl : string;
  name : option string;
  onActivate : Activation }.
End HotbarItem.

Inductive WindowAction :=
  | onToss (obj : PuzzleObject.t)
  | onPlace (obj : PuzzleObject.t)
  | onTake (obj : PuzzleObject.t).

(** The argument of [makeHudItemWindow] and the position the caller then
    gives the window ([None] when it is read from the page layout). *)
Module HudItemWindow.
Record t := {
  image : option string;
  name : option string;
  traits : list string;
  description : option string;
  actions : list WindowAction;
  position : option (number * number) }.
End HudItemWindow.

Inductive Event :=
  | playSFX (cue : string)
  | toast (message : string)
  | save                                   (* window.game.save() *)
  | hideHudItemWindow
  | showHudItemWindow (w : HudItemWindow.t).

(** Modelled from the spec: hud.js is missing.  The hotbar is the
    on-screen slot row that mirrors the inventory; it is kept abstract,
    with the operations the player calls on it. *)
Class Hud := {
  HudItemHotbar : Type;
  newHudItemHotbar : HudItemHotbar;
  setCapacity : number -> HudItemHotbar -> HudItemHotbar;
  addItem : HotbarItem.t -> HudItemHotbar -> HudItemHotbar;
  removeItem : HotbarItem.t -> HudItemHotbar -> HudItemHotbar;
  removeItemByName : option string -> HudItemHotbar -> HudItemHotbar }.

(** Modelled from the spec: loader.js is missing.  An image is known by
    its size; loading is taken to succeed. *)
Class Loader := {
  HTMLImageElement : Type;
  loadImage : string -> HTMLImageElement;
  imageWidth : HTMLImageElement -> number;
  imageHeight : HTMLImageElement -> number }.

(** Modelled from the spec: furnace.js and cauldron.js are missing.
    [putObjectIn(object): boolean] and [putItem(material): boolean]
    answer whether the item is accepted and may change the receiver. *)
Class Fixtures := {
  Furnace : Type;
  putObjectIn : Furnace -> PuzzleObject.t -> bool * Furnace;
  Cauldron : Type;
  cauldronX : Cauldron -> number;
  cauldronY : Cauldron -> number;
  putItem : Cauldron -> Material.t -> bool * Cauldron }.

(** ** Methods: state, completion and service calls *)

Definition M (S A : Type) : Type := S -> completion A * S * list Event.

Definition ret {S A} (a : A) : M S A := fun s => (Normal a, s, []).

Definition bind {S A B} (m : M S A) (k : A -> M S B) : M S B := fun s =>
  match m s with
  | (Normal a, s1, evs) => let '(r, s2, evs') := k a s1 in (r, s2, evs ++ evs')
  | (Throw e, s1, evs) => (Throw e, s1, evs)
  end.

Definition throw {S A} (e : Error) : M S A := fun s => (Throw e, s, []).
Definition emit {S} (ev : Event) : M S unit := fun s => (Normal tt, s, [ev]).
Definition get {S} : M S S := fun s => (Normal s, s, []).
Definition modify {S} (f : S -> S) : M S unit := fun s => (Normal tt, f s, []).

Definition lift {S A} (c : completion A) : M S A :=
  match c with
  | Normal a => ret a
  | Throw e => throw e
  end.

Declare Scope js_scope.
Delimit Scope js_scope with js.
Notation "x <- m ;; k" := (bind m (fun x => k))
  (at level 100, m at next level, right associativity) : js_scope.
Notation "m ;; k" := (bind m (fun _ => k))
  (at level 100, right associativity) : js_scope.

Definition when {S} (b : bool) (m : M S unit) : M S unit :=
  if b then m else ret tt.

(** [for (const v of l) body(v)] *)
Fixpoint forOf {S X} (l : list X) (body : X -> M S unit) : M S unit :=
  match l with
  | [] => ret tt
  | v :: l' => (body v ;; forOf l' body)%js
  end.

(** A property read [o.p] on a value that may be undefined. *)
Definition deref {S A} (o : option A) : M S A :=
  match o with
  | Some v => ret v
  | None => throw (TypeError "Cannot read properties of undefined")
  end.

Definition status {S A} (r : completion A * S * list Event) : completion A := r.1.1.
Definition final {S A} (r : completion A * S * list Event) : S := r.1.2.
Definition calls {S A} (r : completion A * S * list Event) : list Event := r.2.

(** ** The player *)

Definition loc := nat.

Module PlayerData.
Record t := {
  x : number;
  y : number;
  heldMaterials : option (list string);
  heldPuzzleObjects : option (list string);
  materialInventorySize : option number }.
End PlayerData.

Module Player.
Section Player.
Context `{Hud, Loader}.

Record t := {
  x : number;
  y : number;
  z : number;
  targetX : number;
  room : option loc;
  hotbar : HudItemHotbar;
  materialInventorySize : number;
  heldMaterials : list (option Material.t);
  heldPuzzleObjects : list (option PuzzleObject.t);
  standingImage : HTMLImageElement;
  walkingImage : HTMLImageElement }.

Definition set_x (v : number) (p : t) : t :=
  {| x := v; y := y p; z := z p; targetX := targetX p; room := room p;
     hotbar := hotbar p; materialInventorySize := materialInventorySize p;
     heldMaterials := heldMaterials p; heldPuzzleObjects := heldPuzzleObjects p;
     standingImage := standingImage p; walkingImage := walkingImage p |}.

Definition set_targetX (v : number) (p : t) : t :=
  {| x := x p; y := y p; z := z p; targetX := v; room := room p;
     hotbar := hotbar p; materialInventorySize := materialInventorySize p;
     heldMaterials := heldMaterials p; heldPuzzleObjects := heldPuzzleObjects p;
     standingImage := standingImage p; walkingImage := walkingImage p |}.

Definition set_room (v : option loc) (p : t) : t :=
  {| x := x p; y := y p; z := z p; targetX := targetX p; room := v;
     hotbar := hotbar p; materialInventorySize := materialInventorySize p;
     heldMaterials := heldMaterials p; heldPuzzleObjects := heldPuzzleObjects p;
     standingImage := standingImage p; walkingImage := walkingImage p |}.

Definition set_hotbar (f : HudItemHotbar -> HudItemHotbar) (p : t) : t :=
  {| x := x p; y := y p; z := z p; targetX := targetX p; room := room p;
     hotbar := f (hotbar p); materialInventorySize := materialInventorySize p;
     heldMaterials := heldMaterials p; heldPuzzleObjects := heldPuzzleObjects p;
     standingImage := standingImage p; walkingImage := walkingImage p |}.

Definition set_heldMaterials
    (f : list (option Material.t) -> list (option Material.t)) (p : t) : t :=
  {| x := x p; y := y p; z := z p; targetX := targetX p; room := room p;
     hotbar := hotbar p; materialInventorySize := materialInventorySize p;
     heldMaterials := f (heldMaterials p); heldPuzzleObjects := heldPuzzleObjects p;
     standingImage := standingImage p; walkingImage := walkingImage p |}.

Definition set_heldPuzzleObjects
    (f : list (option PuzzleObject.t) -> list (option PuzzleObject.t)) (p : t) : t :=
  {| x := x p; y := y p; z := z p; targetX := targetX p; room := room p;
     hotbar := hotbar p; materialInventorySize := materialInventorySize p;
     heldMaterials := heldMaterials p; heldPuzzleObjects := f (heldPuzzleObjects p);
     standingImage := standingImage p; walkingImage := walkingImage p |}.
End Player.
End Player.

Definition PLACEHOLDER_IMAGE_URL : string :=
  emojipedia "apple/285/large-blue-square_1f7e6.png".

(** [a ?? b ?? c] *)
Definition nullish3 {A} (a b : option A) (c : A) : A :=
  nullish (match a with Some v => Some v | None => b end) c.

Section PlayerMethods.
Context `{Hud, Loader, MaterialRegistry}.

Definition tick (dt : number) : M Player.t unit :=
  (this <- get ;;
   let maxMovement := (500 * dt)%float in
   if (Player.targetX this <? Player.x this)%float then
     modify (Player.set_x
               (Math.max (Player.x this - maxMovement)%float (Player.targetX this)))
   else if (Player.x this <? Player.targetX this)%float then
     modify (Player.set_x
               (Math.min (Player.x this + maxMovement)%float (Player.targetX this)))
   else ret tt)%js.

Definition canReach (this : Player.t) (x _y : number) : bool :=
  (Math.abs (x - Player.x this) <? 200)%float.

Definition moveToCursor (x : number) : M Player.t unit :=
  modify (Player.set_targetX x).

(** The player after [n] frames of the game loop, each calling
    [tick(dt)]. *)
Definition ticks (n : nat) (dt : number) (this : Player.t) : Player.t :=
  Nat.iter n (fun p => final (tick dt p)) this.

Definition serialize (this : Player.t) : completion PlayerData.t :=
  cbind (Array.map getMaterialType (Player.heldMaterials this)) (fun mats =>
  cbind (Array.map getPuzzleObjectType (Player.heldPuzzleObjects this)) (fun pos =>
  Normal {| PlayerData.x := Player.x this;
            PlayerData.y := Player.y this;
            PlayerData.heldMaterials := Some mats;
            PlayerData.heldPuzzleObjects := Some pos;
            PlayerData.materialInventorySize := Some (Player.materialInventorySize this) |})).

Definition hasPuzzleObject (this : Player.t) (obj : PuzzleObject.t) : bool :=
  negb (Array.indexOf (Player.heldPuzzleObjects this) (Some obj) =? -1)%Z.

Definition tossPuzzleObject (obj : PuzzleObject.t) : M Player.t unit :=
  (modify (Player.set_heldPuzzleObjects
             (fun l => Array.splice l (Array.indexOf l (Some obj)) 1 [])) ;;
   modify (Player.set_hotbar (removeItemByName (PuzzleObject.name obj))))%js.

Definition takePuzzleObject (obj : option PuzzleObject.t) (isInitializing : bool)
  : M Player.t unit :=
  (modify (Player.set_heldPuzzleObjects (fun l => Array.push l obj)) ;;
   when (negb isInitializing) (emit (playSFX "chimes-002")) ;;
   o <- deref obj ;;
   let imageUrl :=
     nullish3 (PuzzleObject.inventoryImageUrl o) (PuzzleObject.spawnerImageUrl o)
       PLACEHOLDER_IMAGE_URL in
   let hotbarItem :=
     {| HotbarItem.imageUrl := imageUrl;
        HotbarItem.name := PuzzleObject.name o;
        HotbarItem.onActivate := openPuzzleObjectWindow o |} in
   modify (Player.set_hotbar (addItem hotbarItem)) ;;
   when (negb isInitializing) (emit save))%js.

Definition hasMaterial (this : Player.t) (mat : option Material.t) : bool :=
  negb (Array.indexOf (Player.heldMaterials this) mat =? -1)%Z.

Definition materialItem (m : Material.t) : HotbarItem.t :=
  {| HotbarItem.imageUrl :=
       nullish3 (Material.inventoryImageUrl m) (Material.worldImageUrl m)
         PLACEHOLDER_IMAGE_URL;
     HotbarItem.name := Some (Material.name m);
     HotbarItem.onActivate := depositMaterial m |}.

Definition takeMaterial (mat : option Material.t) (isInitializing : bool)
  : M Player.t unit :=
  (this <- get ;;
   if (Player.materialInventorySize this
       <=? toNumber (length (Player.heldMaterials this)))%float
   then
     emit (playSFX "bad-job-4") ;;
     emit (toast "You can’t hold that many things.")
   else if hasMaterial this mat then
     emit (playSFX "bad-job-4") ;;
     emit (toast "You’ve already got one of those.")
   else
     when (negb isInitializing) (emit (playSFX "great-jearb-06")) ;;
     modify (Player.set_heldMaterials (fun l => Array.push l mat)) ;;
     m <- deref mat ;;
     modify (Player.set_hotbar (addItem (materialItem m))) ;;
     when (negb isInitializing) (emit save))%js.

Definition hasType {A} (getType : option A -> completion string) (applyTo : string)
    (o : option A) : completion bool :=
  cbind (getType o) (fun ty => Normal (bool_decide (ty = applyTo))).

Definition applyPotion (potion : Potion) : M Player.t bool :=
  (this <- get ;;
   let applyTo := applyTo potion in
   materialToApplyTo <-
     lift (Array.find (hasType getMaterialType applyTo) (Player.heldMaterials this)) ;;
   puzzleObjectToApplyTo <-
     lift (Array.find (hasType getPuzzleObjectType applyTo) (Player.heldPuzzleObjects this)) ;;
   match mjoin materialToApplyTo with
   | Some found =>
       let turnsInto := turnsInto potion in
       let newMaterial := lookupKey materials turnsInto in
       modify (Player.set_heldMaterials (fun l =>
         Array.splice l (Array.indexOf l (Some found)) 1 [newMaterial])) ;;
       ret true
   | None =>
       match mjoin puzzleObjectToApplyTo with
       | Some found =>
           let turnsInto := turnsInto potion in
           let newPuzzleObject := puzzleObjectAt turnsInto in
           modify (Player.set_heldPuzzleObjects (fun l =>
             Array.splice l (Array.indexOf l (Some found)) 1 [newPuzzleObject])) ;;
           ret true
       | None => ret false
       end
   end)%js.

(** [new Player(data, standingImage, walkingImage)]: the object the
    constructor returns, unless it throws. *)
Definition newPlayer (data : PlayerData.t) (standingImage walkingImage : HTMLImageElement)
  : completion Player.t * list Event :=
  let size := nullish (PlayerData.materialInventorySize data) 5%float in
  let this :=
    {| Player.x := PlayerData.x data;
       Player.y := PlayerData.y data;
       Player.z := 1%float;
       Player.targetX := PlayerData.x data;
       Player.room := None;
       Player.hotbar := setCapacity size newHudItemHotbar;
       Player.materialInventorySize := size;
       Player.heldMaterials := [];
       Player.heldPuzzleObjects := [];
       Player.standingImage := standingImage;
       Player.walkingImage := walkingImage |} in
  let r :=
    (forOf (nullish (PlayerData.heldMaterials data) [])
       (fun mat => takeMaterial (lookupKey materials mat) true) ;;
     forOf (nullish (PlayerData.heldPuzzleObjects data) [])
       (fun po => takePuzzleObject (puzzleObjectAt po) true))%js this in
  (cbind (status r) (fun _ => Normal (final r)), calls r).

Definition deserialize (playerData : PlayerData.t) : completion Player.t * list Event :=
  let standing := loadImage "./sprites/player-forwards.png" in
  let walking := loadImage "./sprites/player-right.png" in
  newPlayer playerData standing walking.
End PlayerMethods.

(** ** Rooms and the object store

    The player and the room refer to each other, and a spawner reads the
    inventory of the player of its room: players and rooms live in a
    store and are named by location.  A location the store does not bind
    reads as [undefined]. *)

Module Room.
Section Room.
Context `{Fixtures}.

(** Modelled from the spec: room.js is missing.  A room gives its player
    (the back-reference) and its objects by type; of these the player
    asks for the furnaces and the cauldrons. *)
Record t := {
  player : option loc;
  furnaces : list Furnace;     (* getObjectsOfType(Furnace) *)
  cauldrons : list Cauldron }. (* getObjectsOfType(Cauldron) *)

Definition set_furnaces (v : list Furnace) (r : t) : t :=
  {| player := player r; furnaces := v; cauldrons := cauldrons r |}.

Definition set_cauldrons (v : list Cauldron) (r : t) : t :=
  {| player := player r; furnaces := furnaces r; cauldrons := v |}.
End Room.
End Room.

Section World.
Context `{Hud, Loader, MaterialRegistry, Fixtures}.

Record World := {
  players : gmap loc Player.t;
  rooms : gmap loc Room.t }.

Definition set_players (f : gmap loc Player.t -> gmap loc Player.t) (w : World) : World :=
  {| players := f (players w); rooms := rooms w |}.

Definition set_rooms (f : gmap loc Room.t -> gmap loc Room.t) (w : World) : World :=
  {| players := players w; rooms := f (rooms w) |}.

(** A method of the player at [this], run in the store. *)
Definition onPlayer {A} (this : loc) (m : M Player.t A) : M World A := fun w =>
  match players w !! this with
  | Some p =>
      let '(r, p', evs) := m p in
      (r, set_players (fun ps => <[this := p']> ps) w, evs)
  | None => (Throw (TypeError "Cannot read properties of undefined"), w, [])
  end.

(** [this.room], with the location it is stored at. *)
Definition roomOf (w : World) (p : Player.t) : option (loc * Room.t) :=
  match Player.room p with
  | Some r => (fun rm => (r, rm)) <$> rooms w !! r
  | None => None
  end.

Definition placePuzzleObject (this : loc) (obj : PuzzleObject.t) : M World unit :=
  (w <- get ;;
   p <- deref (players w !! this) ;;
   match roomOf w p with
   | Some (r, rm) =>
       match Room.furnaces rm with
       | furnace :: others =>
           let '(accepted, furnace') := putObjectIn furnace obj in
           modify (set_rooms (fun rs => <[r := Room.set_furnaces (furnace' :: others) rm]> rs)) ;;
           when accepted (onPlayer this (tossPuzzleObject obj))
       | [] => emit (toast "Nowhere to put it")
       end
   | None => ret tt
   end)%js.

(** The [onActivate] closure of the hotbar entry [item] of the player
    at [this]. *)
Definition activate (this : loc) (item : HotbarItem.t) : M World unit :=
  match HotbarItem.onActivate item with
  | depositMaterial mat =>
      (w <- get ;;
       p <- deref (players w !! this) ;;
       rrm <- deref (roomOf w p) ;;
       let '(r, rm) := rrm in
       match Room.cauldrons rm with
       | [] => emit (toast "This goes in a cauldron")
       | cauldron :: others =>
           if negb (canReach p (cauldronX cauldron) (cauldronY cauldron)) then
             emit (toast "You cannot reach that")
           else
             let '(accepted, cauldron') := putItem cauldron mat in
             modify (set_rooms (fun rs => <[r := Room.set_cauldrons (cauldron' :: others) rm]> rs)) ;;
             if negb accepted then ret tt
             else
               onPlayer this
                 (modify (Player.set_hotbar (removeItem item)) ;;
                  modify (Player.set_heldMaterials
                            (fun l => Array.splice l (Array.indexOf l (Some mat)) 1 []))) ;;
               emit save
       end)%js
  | openPuzzleObjectWindow obj =>
      emit (showHudItemWindow
              {| HudItemWindow.image := Some (HotbarItem.imageUrl item);
                 HudItemWindow.name := PuzzleObject.name obj;
                 HudItemWindow.traits := [];
                 HudItemWindow.description := PuzzleObject.description obj;
                 HudItemWindow.actions := [onToss obj; onPlace obj];
                 HudItemWindow.position := None |})
  end.
End World.

(** ** The spawner (src/puzzleObject.ts) *)

Module PuzzleObjectData.
Record t := {
  x : number;
  y : number;
  puzzleObjectType : string }.
End PuzzleObjectData.

Module PuzzleObjectSpawner.
Definition PLACEHOLDER_IMAGE_URL : string :=
  emojipedia "google/298/flag-switzerland_1f1e8-1f1ed.png".

Section PuzzleObjectSpawner.
Context `{Hud, Loader, MaterialRegistry, Fixtures}.

Record t := {
  puzzleObject : PuzzleObject.t;
  worldImage : HTMLImageElement;
  x : number;
  y : number;
  width : number;
  height : number;
  room : option loc }.

Definition set_room (v : option loc) (s : t) : t :=
  {| puzzleObject := puzzleObject s; worldImage := worldImage s; x := x s; y := y s;
     width := width s; height := height s; room := v |}.

(** [new PuzzleObjectSpawner(puzzleObject, worldImage, data)] *)
Definition new (puzzleObject : PuzzleObject.t) (worldImage : HTMLImageElement)
    (data : PuzzleObjectData.t) : t :=
  {| puzzleObject := puzzleObject;
     worldImage := worldImage;
     x := PuzzleObjectData.x data;
     y := PuzzleObjectData.y data;
     width := imageWidth worldImage;
     height := imageHeight worldImage;
     room := None |}.

Definition deserialize (data : PuzzleObjectData.t) : completion t :=
  match puzzleObjectAt (PuzzleObjectData.puzzleObjectType data) with
  | None =>
      Throw (JsError ("Cannot find puzzle object with name "
                        +:+ PuzzleObjectData.puzzleObjectType data))
  | Some puzzleObject =>
      let image :=
        loadImage (nullish3 (PuzzleObject.spawnerImageUrl puzzleObject)
                     (PuzzleObject.inventoryImageUrl puzzleObject)
                     PLACEHOLDER_IMAGE_URL) in
      Normal (new puzzleObject image data)
  end.

Definition serialize (this : t) : completion PuzzleObjectData.t :=
  match entryOf puzzleObjects (Some (puzzleObject this)) with
  | None => Throw (TypeError "Cannot read properties of undefined")
  | Some entry =>
      Normal {| PuzzleObjectData.x := x this;
                PuzzleObjectData.y := y this;
                PuzzleObjectData.puzzleObjectType := entry.1 |}
  end.

(** [this.room?.player], with the location it is stored at. *)
Definition playerOf (this : t) (w : World) : option (loc * Player.t) :=
  match room this with
  | Some r =>
      match rooms w !! r with
      | Some rm =>
          match Room.player rm with
          | Some pl => (fun p => (pl, p)) <$> players w !! pl
          | None => None
          end
      | None => None
      end
  | None => None
  end.

Definition take (this : t) : M World unit :=
  (w <- get ;;
   match playerOf this w with
   | Some (pl, _) => onPlayer pl (takePuzzleObject (Some (puzzleObject this)) false)
   | None => ret tt
   end)%js.

Definition isUnderPointer (this : t) (px py : number) : bool :=
  negb ((width this / 2 <? Math.abs (x this - px))%float
        || (height this / 2 <? Math.abs (y this - py))%float).

Definition isVisible (this : t) (w : World) : bool :=
  match playerOf this w with
  | None => false
  | Some (_, p) => negb (hasPuzzleObject p (puzzleObject this))
  end.

Definition doClick (this : t) (px py : number) : M World bool :=
  (if negb (isUnderPointer this px py) then
     emit hideHudItemWindow ;; ret false
   else
     w <- get ;;
     if negb (isVisible this w) then ret false
     else
       match playerOf this w with
       | Some (_, p) =>
           if negb (canReach p (x this) (y this)) then ret false
           else
             emit (showHudItemWindow
                     {| HudItemWindow.image := PuzzleObject.inventoryImageUrl (puzzleObject this);
                        HudItemWindow.name := PuzzleObject.name (puzzleObject this);
                        HudItemWindow.traits := [];
                        HudItemWindow.description := PuzzleObject.description (puzzleObject this);
                        HudItemWindow.actions := [onTake (puzzleObject this)];
                        HudItemWindow.position := Some (x this, y this) |}) ;;
             ret true
       | None => ret false
       end)%js.
End PuzzleObjectSpawner.
End PuzzleObjectSpawner.

(** ** Notions used in the statements *)

(** The state after a sequence of [takeMaterial] calls, whatever each
    call answers. *)
Definition takeMaterials `{Hud, Loader, MaterialRegistry}
    (attempts : list (option Material.t * bool)) (this : Player.t) : Player.t :=
  fold_left (fun p a => final (takeMaterial a.1 a.2 p)) attempts this.

(** The class invariant of the material inventory:
    [heldMaterials.length <= materialInventorySize]. *)
Definition withinCapacity `{Hud, Loader} (this : Player.t) : Prop :=
  (toNumber (length (Player.heldMaterials this))
   <=? Player.materialInventorySize this)%float = true.

(** The test of [takeMaterial]:
    [heldMaterials.length >= materialInventorySize]. *)
Definition isFull `{Hud, Loader} (this : Player.t) : bool :=
  (Player.materialInventorySize this
   <=? toNumber (length (Player.heldMaterials this)))%float.

(** How many of [n] further distinct materials an inventory of [len]
    materials and of capacity [capacity] takes, one after the other:
    one more as long as [len >= capacity] fails. *)
Fixpoint admitted (capacity : number) (len n : nat) : nat :=
  match n with
  | 0 => 0
  | S n' =>
      if (capacity <=? toNumber len)%float then 0
      else S (admitted capacity (S len) n')
  end.

(** What every JavaScript array satisfies: its length is below 2^32. *)
Definition arrayLength (n : nat) : Prop := (Z.of_nat n < 2 ^ 32)%Z.

(** A value that is a definition of the registry. *)
Definition registered {A} (reg : registry A) (v : option A) : Prop :=
  exists k o, v = Some o /\ (k, o) ∈ reg.

(** ** Drawing *)

Section Drawing.
Context `{Hud, Loader, MaterialRegistry, Fixtures}.

(** The calls a [draw] method makes on its [CanvasRenderingContext2D]. *)
Inductive CanvasCall :=
  | canvasSave
  | canvasTranslate (x y : number)
  | canvasScale (x y : number)
  | canvasDrawImage (image : HTMLImageElement) (dx dy : number)
  | canvasRestore.

(** [Player.draw(ctx)] *)
Definition draw (this : Player.t) : list CanvasCall :=
  let image :=
    if negb (Player.targetX this =? Player.x this)%float
    then Player.walkingImage this else Player.standingImage this in
  let width := imageWidth image in
  let height := imageHeight image in
  [canvasSave; canvasTranslate (Player.x this) (Player.y this)]
  ++ (if (Player.targetX this <? Player.x this)%float
      then [canvasScale (-1)%float 1%float] else [])
  ++ [canvasDrawImage image (- width / 2)%float (- height)%float; canvasRestore].

(** [PuzzleObjectSpawner.draw(ctx)] *)
Definition drawSpawner (this : PuzzleObjectSpawner.t) (w : World) : list CanvasCall :=
  if negb (PuzzleObjectSpawner.isVisible this w) then []
  else [canvasDrawImage (PuzzleObjectSpawner.worldImage this)
          (PuzzleObjectSpawner.x this - PuzzleObjectSpawner.width this / 2)%float
          (PuzzleObjectSpawner.y this - PuzzleObjectSpawner.height this / 2)%float].
End Drawing.

(** ** A concrete game

    Instances of the missing collaborators, on which the definitions run:
    a hotbar that is the list of its entries, images of 40 by 40, a
    furnace that accepts every object, a cauldron that accepts every
    material, and the materials of the scenarios of the specification. *)

Module Example.
#[global] Instance activation_eq_dec : EqDecision Activation.
Proof. solve_decision. Defined.

#[global] Instance hotbarItem_eq_dec : EqDecision HotbarItem.t.
Proof. solve_decision. Defined.

Definition hud : Hud :=
  {| HudItemHotbar := number * list HotbarItem.t;
     newHudItemHotbar := (0%float, []);
     setCapacity := fun n h => (n, h.2);
     addItem := fun it h => (h.1, h.2 ++ [it]);
     removeItem := fun it h => (h.1, filter (fun i => i <> it) h.2);
     removeItemByName := fun n h => (h.1, filter (fun i => HotbarItem.name i <> n) h.2) |}.

Definition loader : Loader :=
  {| HTMLImageElement := string;
     loadImage := fun url => url;
     imageWidth := fun _ => 40%float;
     imageHeight := fun _ => 40%float |}.

Definition fixtures : Fixtures :=
  {| Furnace := list PuzzleObject.t;
     putObjectIn := fun f o => (true, f ++ [o]);
     Cauldron := number * number * list Material.t;
     cauldronX := fun c => c.1.1;
     cauldronY := fun c => c.1.2;
     putItem := fun c m => (true, (c.1, c.2 ++ [m])) |}.

Definition wood : Material.t :=
  {| Material.oid := 0; Material.name := "Wood";
     Material.inventoryImageUrl := None; Material.worldImageUrl := None |}.

Definition stone : Material.t :=
  {| Material.oid := 1; Material.name := "Stone";
     Material.inventoryImageUrl := None; Material.worldImageUrl := None |}.

Definition stock : registry Material.t := [("wood", wood); ("stone", stone)].

Definition typeOfMaterial (material : option Material.t) : completion string :=
  match entryOf stock material with
  | None => Throw (JsError "Material not found.")
  | Some entry => Normal entry.1
  end.

Definition registryOfMaterials : MaterialRegistry :=
  {| materials := stock;
     materials_keys := ltac:(apply (bool_decide_unpack _); exact I);
     getMaterialType := typeOfMaterial;
     getMaterialType_spec :=
       ltac:(intros v; unfold typeOfMaterial;
             destruct (entryOf stock v); [reflexivity | exact I]) |}.

Definition key : PuzzleObject.t :=
  {| PuzzleObject.oid := 0;
     PuzzleObject.name := Some "Key";
     PuzzleObject.description := Some "A plain key with a loop and a couple of teeth";
     PuzzleObject.inventoryImageUrl := Some (emojipedia "google/298/old-key_1f5dd-fe0f.png");
     PuzzleObject.spawnerImageUrl := Some (emojipedia "google/298/old-key_1f5dd-fe0f.png") |}.

(** A player as the constructor leaves it, then given an inventory. *)
Definition player (size : number) (mats : list (option Material.t))
    (pos : list (option PuzzleObject.t)) : @Player.t hud loader :=
  {| Player.x := 100%float; Player.y := 0%float; Player.z := 1%float;
     Player.targetX := 100%float;
     Player.room := None;
     Player.hotbar := @setCapacity hud size (@newHudItemHotbar hud);
     Player.materialInventorySize := size;
     Player.heldMaterials := mats;
     Player.heldPuzzleObjects := pos;
     Player.standingImage := @loadImage loader "./sprites/player-forwards.png";
     Player.walkingImage := @loadImage loader "./sprites/player-right.png" |}.
Arguments player size%_float_scope mats pos.

(** A puzzle object that is in no registry. *)
Definition lantern : PuzzleObject.t :=
  {| PuzzleObject.oid := 17;
     PuzzleObject.name := Some "Lantern";
     PuzzleObject.description := Some "A lantern someone left behind";
     PuzzleObject.inventoryImageUrl := None;
     PuzzleObject.spawnerImageUrl := None |}.

Definition woodIntoStone : Potion := {| applyTo := "wood"; turnsInto := "stone" |}.

(** One room, at location 0, whose player is the player at location 0. *)
Definition room : @Room.t fixtures :=
  {| Room.player := Some 0; Room.furnaces := []; Room.cauldrons := [] |}.

Definition world (p : @Player.t hud loader) : @World hud loader fixtures :=
  {| players := {[ 0 := Player.set_room (Some 0) p ]};
     rooms := {[ 0 := room ]} |}.

(** The player at location 0, in no room. *)
Definition lobby (p : @Player.t hud loader) : @World hud loader fixtures :=
  {| players := {[ 0 := p ]}; rooms := ∅ |}.

(** The spawner of the key at (50, 50), bound to the room. *)
Definition spawner : @PuzzleObjectSpawner.t loader :=
  PuzzleObjectSpawner.set_room (Some 0)
    (PuzzleObjectSpawner.new key
       (@loadImage loader (emojipedia "google/298/old-key_1f5dd-fe0f.png"))
       {| PuzzleObjectData.x := 50%float;
          PuzzleObjectData.y := 50%float;
          PuzzleObjectData.puzzleObjectType := "key" |}).

#[local] Existing Instances hud loader fixtures registryOfMaterials.

(** Holds stone, wood and the key. *)
Definition alchemist : Player.t := player 5 [Some stone; Some wood] [Some key].

(** Took wood, then the lantern. *)
Definition scavenger : Player.t :=
  final (takePuzzleObject (Some lantern) true
           (final (takeMaterial (Some wood) true (player 5 [] [])))).

(** Holds wood, with room for one material. *)
Definition porter : Player.t := player 1 [Some wood] [].

(** Holds wood, with room for five materials. *)
Definition carrier : Player.t := player 5 [Some wood] [].

(** Loaded from a save that holds wood; not yet in a room. *)
Definition loaded : completion Player.t :=
  (deserialize {| PlayerData.x := 100%float; PlayerData.y := 0%float;
                  PlayerData.heldMaterials := Some ["wood"];
                  PlayerData.heldPuzzleObjects := Some [];
                  PlayerData.materialInventorySize := None |}).1.

(** On the way from 100 to 200. *)
Definition walker : Player.t := Player.set_targetX 200%float (player 5 [] []).

(** A material that is in no registry. *)
Definition clay : Material.t :=
  {| Material.oid := 2; Material.name := "Clay";
     Material.inventoryImageUrl := None; Material.worldImageUrl := None |}.

(** Holds wood and stone, with a capacity of two and a half. *)
Definition hoarder : Player.t := player 2.5 [Some wood; Some stone] [].

(** A save whose capacity is negative. *)
Definition indebtedSave : PlayerData.t :=
  {| PlayerData.x := 100%float; PlayerData.y := 0%float;
     PlayerData.heldMaterials := Some [];
     PlayerData.heldPuzzleObjects := Some [];
     PlayerData.materialInventorySize := Some (-1)%float |}.

(** At [x], on the way to [targetX]. *)
Definition runner (x targetX : number) : Player.t :=
  Player.set_targetX targetX (Player.set_x x (player 5 [] [])).
End Example.

(** ** Scenes for the further properties *)

Module Scenario.
Import Example.
#[local] Existing Instances hud loader fixtures registryOfMaterials.

(** A room with an empty furnace and an empty cauldron at (150, 0),
    whose player is the player at location 0. *)
Definition workshop : @Room.t fixtures :=
  @Room.Build_t fixtures (Some 0) [[]] [(150%float, 0%float, [])].

Definition studio (p : @Player.t hud loader) : @World hud loader fixtures :=
  {| players := {[ 0 := Player.set_room (Some 0) p ]};
     rooms := {[ 0 := workshop ]} |}.

(** The record of the spawner of the key at (50, 50). *)
Definition keyRecord : PuzzleObjectData.t :=
  {| PuzzleObjectData.x := 50%float;
     PuzzleObjectData.y := 50%float;
     PuzzleObjectData.puzzleObjectType := "key" |}.

(** The spawner of the key, bound to no room. *)
Definition stray : @PuzzleObjectSpawner.t loader :=
  PuzzleObjectSpawner.set_room None spawner.

(** A save with two materials and room for one. *)
Definition crowdedSave : PlayerData.t :=
  {| PlayerData.x := 100%float; PlayerData.y := 0%float;
     PlayerData.heldMaterials := Some ["wood"; "stone"];
     PlayerData.heldPuzzleObjects := Some ["key"];
     PlayerData.materialInventorySize := Some 1%float |}.

(** A save that gives no capacity. *)
Definition plainSave : PlayerData.t :=
  {| PlayerData.x := 100%float; PlayerData.y := 0%float;
     PlayerData.heldMaterials := Some ["wood"];
     PlayerData.heldPuzzleObjects := Some ["key"; "radio"];
     PlayerData.materialInventorySize := None |}.

(** A save that names a puzzle object the registry does not have. *)
Definition brokenSave : PlayerData.t :=
  {| PlayerData.x := 100%float; PlayerData.y := 0%float;
     PlayerData.heldMaterials := Some ["wood"];
     PlayerData.heldPuzzleObjects := Some ["lantern"];
     PlayerData.materialInventorySize := None |}.

Definition keyIntoSmallKey : Potion := {| applyTo := "key"; turnsInto := "small-key" |}.

(** A potion on a material whose result is no material. *)
Definition woodIntoKey : Potion := {| applyTo := "wood"; turnsInto := "key" |}.

(** Holds stone only; the hotbar still offers wood. *)
Definition mason : Player.t := player 5 [Some stone] [].

(** Holds nothing. *)
Definition newcomer : Player.t := player 5 [] [].

(** The two images of the player. *)
Definition standing : @HTMLImageElement loader :=
  @loadImage loader "./sprites/player-forwards.png".

Definition walking : @HTMLImageElement loader :=
  @loadImage loader "./sprites/player-right.png".
End Scenario.

(** * Properties *)

(** Runs the straight-line part of a method. *)
Ltac run :=
  unfold bind, get, modify, emit, ret, throw, lift, when, deref,
    status, final, calls, Array.push; simpl.

(** ** Numbers *)

(** Decides the comparisons of a goal on specified floats. *)
Ltac cmp :=
  repeat match goal with
  | |- context [Z.compare ?x ?y] => destruct (Z.compare_spec x y)
  | H : context [Z.compare ?x ?y] |- _ => destruct (Z.compare_spec x y)
  | |- context [Pos.compare_cont Eq ?x ?y] =>
      change (Pos.compare_cont Eq x y) with (Pos.compare x y)
  | H : context [Pos.compare_cont Eq ?x ?y] |- _ =>
      change (Pos.compare_cont Eq x y) with (Pos.compare x y) in H
  | |- context [Pos.compare ?x ?y] => destruct (Pos.compare_spec x y)
  | H : context [Pos.compare ?x ?y] |- _ => destruct (Pos.compare_spec x y)
  end; simpl in *; try done; try lia.

Ltac spec_floats :=
  repeat match goal with
  | a : spec_float |- _ => destruct a as [[]|[]| |[] ? ?]
  end; simpl in *; try done.

Section SpecFloatFacts.
Implicit Types a b c : spec_float.

Lemma SFleb_trans a b c : SFleb a b = true -> SFleb b c = true -> SFleb a c = true.
Proof. unfold SFleb. spec_floats. all: cmp. Qed.

Lemma SFltb_leb_trans a b c : SFltb a b = true -> SFleb b c = true -> SFltb a c = true.
Proof. unfold SFltb, SFleb. spec_floats. all: cmp. Qed.

Lemma SFleb_ltb_trans a b c : SFleb a b = true -> SFltb b c = true -> SFltb a c = true.
Proof. unfold SFltb, SFleb. spec_floats. all: cmp. Qed.

Lemma SFltb_leb a b : SFltb a b = true -> SFleb a b = true.
Proof. unfold SFltb, SFleb. by destruct (SFcompare a b) as [[]|]. Qed.

Lemma SFleb_ltb a b : SFleb a b = true -> SFltb b a = false.
Proof. unfold SFltb, SFleb. spec_floats. all: cmp. Qed.

Lemma SFltb_total a b :
  a <> S754_nan -> b <> S754_nan -> SFltb a b = false -> SFleb b a = true.
Proof. unfold SFltb, SFleb. spec_floats. all: cmp. Qed.

Lemma SFeqb_leb a b : SFeqb a b = true <-> SFleb a b = true /\ SFleb b a = true.
Proof.
  unfold SFeqb, SFleb. spec_floats.
  all: try (split; [done|by intros []]).
  all: cmp; (split; [done|by intros []]).
Qed.

Lemma SFeqb_refl a : SFeqb a a = match a with S754_nan => false | _ => true end.
Proof. unfold SFeqb. spec_floats. all: cmp. Qed.

Lemma SFabs_ltb a m e :
  SFltb (SFabs a) (S754_finite false m e)
  = SFltb (S754_finite true m e) a && SFltb a (S754_finite false m e).
Proof. unfold SFltb. spec_floats. all: cmp. Qed.
End SpecFloatFacts.

Section NumberFacts.
Implicit Types a b c : number.
Open Scope float_scope.

Lemma is_nan_spec a : is_nan a = true <-> Prim2SF a = S754_nan.
Proof.
  unfold is_nan. rewrite FloatAxioms.eqb_spec, SFeqb_refl.
  destruct (Prim2SF a); simpl; split; done.
Qed.

Lemma is_nan_false a : is_nan a = false <-> Prim2SF a <> S754_nan.
Proof. rewrite <- is_nan_spec. by destruct (is_nan a). Qed.

Lemma ltb_leb a b : (a <? b) = true -> (a <=? b) = true.
Proof. rewrite FloatAxioms.ltb_spec, FloatAxioms.leb_spec. apply SFltb_leb. Qed.

Lemma leb_ltb a b : (a <=? b) = true -> (b <? a) = false.
Proof. rewrite FloatAxioms.ltb_spec, FloatAxioms.leb_spec. apply SFleb_ltb. Qed.

Lemma ltb_asym a b : (a <? b) = true -> (b <? a) = false.
Proof. intros. by apply leb_ltb, ltb_leb. Qed.

Lemma ltb_total a b :
  is_nan a = false -> is_nan b = false -> (a <? b) = false -> (b <=? a) = true.
Proof.
  rewrite !is_nan_false, FloatAxioms.ltb_spec, FloatAxioms.leb_spec.
  apply SFltb_total.
Qed.

Lemma leb_trans a b c : (a <=? b) = true -> (b <=? c) = true -> (a <=? c) = true.
Proof. rewrite !FloatAxioms.leb_spec. apply SFleb_trans. Qed.

Lemma ltb_leb_trans a b c : (a <? b) = true -> (b <=? c) = true -> (a <? c) = true.
Proof. rewrite !FloatAxioms.ltb_spec, !FloatAxioms.leb_spec. apply SFltb_leb_trans. Qed.

Lemma leb_ltb_trans a b c : (a <=? b) = true -> (b <? c) = true -> (a <? c) = true.
Proof. rewrite !FloatAxioms.ltb_spec, !FloatAxioms.leb_spec. apply SFleb_ltb_trans. Qed.

Lemma eqb_leb a b : (a =? b) = true <-> (a <=? b) = true /\ (b <=? a) = true.
Proof. rewrite FloatAxioms.eqb_spec, !FloatAxioms.leb_spec. apply SFeqb_leb. Qed.

Lemma leb_not_nan a b : (a <=? b) = true -> is_nan a = false /\ is_nan b = false.
Proof.
  rewrite FloatAxioms.leb_spec, !is_nan_false. unfold SFleb.
  destruct (Prim2SF a), (Prim2SF b); simpl; done.
Qed.

Lemma ltb_not_nan a b : (a <? b) = true -> is_nan a = false /\ is_nan b = false.
Proof. intros. by apply leb_not_nan, ltb_leb. Qed.

Lemma ltb_neq a b : (a <? b) = true -> (a =? b) = false /\ (b =? a) = false.
Proof.
  intros Hlt. pose proof (ltb_asym _ _ Hlt) as Hgt.
  split; apply not_true_iff_false; intros [H1 H2]%eqb_leb.
  - apply leb_ltb in H2. congruence.
  - apply leb_ltb in H1. congruence.
Qed.

(** [|a| < 200] is [-200 < a < 200]. *)
Lemma abs_ltb_200 a : (abs a <? 200) = (-200 <? a) && (a <? 200).
Proof.
  rewrite !FloatAxioms.ltb_spec, abs_spec.
  change (Prim2SF 200) with (S754_finite false 7036874417766400 (-45)).
  change (Prim2SF (-200)) with (S754_finite true 7036874417766400 (-45)).
  apply SFabs_ltb.
Qed.

Lemma is_nan_eq a : is_nan a = true -> a = nan.
Proof.
  intros Hn%is_nan_spec. rewrite <- (SF2Prim_Prim2SF a), Hn. done.
Qed.

Lemma eqb_refl a : is_nan a = false -> (a =? a) = true.
Proof. unfold is_nan. by destruct (a =? a). Qed.

Lemma leb_refl a : is_nan a = false -> (a <=? a) = true.
Proof. intros Hn. by apply eqb_leb, eqb_refl. Qed.

Lemma eqb_sym a b : (a =? b) = (b =? a).
Proof.
  destruct (a =? b) eqn:E1, (b =? a) eqn:E2; try done.
  - apply eqb_leb in E1 as [? ?].
    assert ((b =? a) = true) by by apply eqb_leb. congruence.
  - apply eqb_leb in E2 as [? ?].
    assert ((a =? b) = true) by by apply eqb_leb. congruence.
Qed.

(** NaN spreads through subtraction. *)
Lemma sub_nan a b : is_nan a = true \/ is_nan b = true -> is_nan (a - b) = true.
Proof.
  rewrite !is_nan_spec, FloatAxioms.sub_spec. unfold SF64sub.
  intros [->| ->]; [done|]. by destruct (Prim2SF a).
Qed.

(** *** [Math.min] and [Math.max] *)

Lemma min_nan a b : is_nan (Math.min a b) = false -> is_nan a = false /\ is_nan b = false.
Proof.
  unfold Math.min. destruct (is_nan a), (is_nan b); simpl; try done.
Qed.

Lemma max_nan a b : is_nan (Math.max a b) = false -> is_nan a = false /\ is_nan b = false.
Proof.
  unfold Math.max. destruct (is_nan a), (is_nan b); simpl; try done.
Qed.

Lemma min_cases a b : is_nan b = false -> Math.min a b = a \/ Math.min a b = b.
Proof.
  intros Hb. unfold Math.min. rewrite Hb, orb_false_r.
  destruct (is_nan a) eqn:Ha; [left; symmetry; by apply is_nan_eq|].
  destruct (a <? b); [by left|]. destruct (b <? a); [by right|].
  destruct (get_sign a); [by left|by right].
Qed.

Lemma max_cases a b : is_nan b = false -> Math.max a b = a \/ Math.max a b = b.
Proof.
  intros Hb. unfold Math.max. rewrite Hb, orb_false_r.
  destruct (is_nan a) eqn:Ha; [left; symmetry; by apply is_nan_eq|].
  destruct (a <? b); [by right|]. destruct (b <? a); [by left|].
  destruct (get_sign a); [by right|by left].
Qed.

Lemma min_ltb a b : (a <? b) = true -> Math.min a b = a.
Proof.
  intros Hlt. destruct (ltb_not_nan _ _ Hlt) as [Ha Hb].
  unfold Math.min. by rewrite Ha, Hb, Hlt.
Qed.

Lemma max_ltb a b : (b <? a) = true -> Math.max a b = a.
Proof.
  intros Hlt. destruct (ltb_not_nan _ _ Hlt) as [Hb Ha].
  unfold Math.max. by rewrite Ha, Hb, Hlt, (ltb_asym _ _ Hlt).
Qed.

(** [Math.min(a, b)] is never above [b]. *)
Lemma min_leb a b : is_nan (Math.min a b) = false -> (Math.min a b <=? b) = true.
Proof.
  intros Hn. destruct (min_nan _ _ Hn) as [Ha Hb]. clear Hn.
  unfold Math.min. rewrite Ha, Hb. simpl.
  destruct (a <? b) eqn:Hab; [by apply ltb_leb|].
  destruct (b <? a) eqn:Hba; [by apply leb_refl|].
  destruct (get_sign a); [by apply ltb_total|by apply leb_refl].
Qed.

(** [Math.max(a, b)] is never below [b]. *)
Lemma max_leb a b : is_nan (Math.max a b) = false -> (b <=? Math.max a b) = true.
Proof.
  intros Hn. destruct (max_nan _ _ Hn) as [Ha Hb]. clear Hn.
  unfold Math.max. rewrite Ha, Hb. simpl.
  destruct (a <? b) eqn:Hab; [by apply leb_refl|].
  destruct (b <? a) eqn:Hba; [by apply ltb_leb|].
  destruct (get_sign a); [by apply leb_refl|by apply ltb_total].
Qed.


End NumberFacts.

(** *** The numbers of array lengths *)

Section IntegerFacts.
Open Scope Z_scope.

Lemma digits2_pos_bounds p :
  2 ^ (Zpos (digits2_pos p) - 1) <= Zpos p < 2 ^ Zpos (digits2_pos p).
Proof.
  induction p as [p IH|p IH|]; simpl digits2_pos; [| |done].
  all: rewrite Pos2Z.inj_succ.
  all: replace (Z.succ (Z.pos (digits2_pos p)) - 1)
         with (Z.succ (Z.pos (digits2_pos p) - 1)) by lia.
  all: rewrite !Z.pow_succ_r by lia; lia.
Qed.

Lemma iter_xO p k : Zpos (Pos.iter xO p k) = Zpos p * 2 ^ Zpos k.
Proof.
  induction k as [|k IH] using Pos.peano_ind.
  - simpl. lia.
  - rewrite Pos.iter_succ, Pos2Z.inj_succ, Z.pow_succ_r by lia.
    rewrite Pos2Z.inj_xO, IH. lia.
Qed.

Lemma digits2_iter_xO p k : digits2_pos (Pos.iter xO p k) = (digits2_pos p + k)%positive.
Proof.
  induction k as [|k IH] using Pos.peano_ind.
  - simpl. lia.
  - rewrite Pos.iter_succ. simpl. rewrite IH. lia.
Qed.

Lemma digits2_pos_53 p : Zpos p < 2 ^ 53 -> Zpos (digits2_pos p) <= 53.
Proof.
  intros Hp. pose proof (digits2_pos_bounds p) as [Hd _].
  destruct (Z.le_gt_cases (Zpos (digits2_pos p)) 53) as [|Hgt]; [done|].
  assert (2 ^ 53 <= 2 ^ (Z.pos (digits2_pos p) - 1)).
  { apply Z.pow_le_mono_r; lia. }
  lia.
Qed.

(** The double of a positive integer below 2^53 is the integer itself,
    its mantissa shifted to 53 bits. *)
Lemma binary_normalize_integer p :
  Zpos (digits2_pos p) <= 53 ->
  binary_normalize prec emax (Zpos p) 0 false
  = S754_finite false (Z.to_pos (Zpos p * 2 ^ (53 - Zpos (digits2_pos p))))
      (Zpos (digits2_pos p) - 53).
Proof.
  intros Hd. unfold binary_normalize, binary_round.
  set (d := digits2_pos p) in *.
  assert (Hf : fexp prec emax (Z.pos d + 0) = Z.pos d - 53).
  { unfold fexp, SpecFloat.emin, emax, prec. lia. }
  rewrite Hf. unfold shl_align.
  destruct (Z.pos d - 53 - 0) as [|k|k] eqn:Hk; [|lia|].
  - replace (53 - Z.pos d) with 0 by lia. rewrite Z.mul_1_r. simpl Z.to_pos.
    unfold binary_round_aux, shr_fexp. simpl Zdigits2. fold d.
    replace (fexp prec emax (Z.pos d + 0) - 0) with 0
      by (unfold fexp, SpecFloat.emin, emax, prec; lia).
    simpl. fold d.
    replace (fexp prec emax (Z.pos d + 0) - 0) with 0
      by (unfold fexp, SpecFloat.emin, emax, prec; lia).
    simpl. replace (Z.pos d - 53) with 0 by lia. done.
  - assert (Hm : Z.to_pos (Z.pos p * 2 ^ (53 - Z.pos d)) = Pos.iter xO p k).
    { apply Pos2Z.inj. rewrite iter_xO, Z2Pos.id by lia. f_equal. f_equal. lia. }
    rewrite Hm.
    unfold binary_round_aux, shr_fexp. simpl Zdigits2.
    rewrite digits2_iter_xO. fold d.
    replace (fexp prec emax (Z.pos (d + k) + (Z.pos d - 53)) - (Z.pos d - 53)) with 0
      by (unfold fexp, SpecFloat.emin, emax, prec; lia).
    simpl. rewrite digits2_iter_xO. fold d.
    replace (fexp prec emax (Z.pos (d + k) + (Z.pos d - 53)) - (Z.pos d - 53)) with 0
      by (unfold fexp, SpecFloat.emin, emax, prec; lia).
    simpl.
    destruct (Z.leb_spec (Z.pos d - 53) (emax - prec)); [done|].
    unfold emax, prec in *. lia.
Qed.

Lemma SFcompare_integer (p q : positive) :
  Zpos (digits2_pos p) <= 53 -> Zpos (digits2_pos q) <= 53 ->
  SFcompare (binary_normalize prec emax (Zpos p) 0 false)
            (binary_normalize prec emax (Zpos q) 0 false)
  = Some (Pos.compare p q).
Proof.
  intros Hp Hq. rewrite !binary_normalize_integer by done.
  simpl. f_equal.
  pose proof (digits2_pos_bounds p) as [Hp1 Hp2].
  pose proof (digits2_pos_bounds q) as [Hq1 Hq2].
  destruct (Z.compare_spec (Z.pos (digits2_pos p) - 53) (Z.pos (digits2_pos q) - 53))
    as [He|He|He].
  - assert (digits2_pos p = digits2_pos q) as Hd by lia. rewrite Hd.
    change (Pos.compare_cont Eq ?x ?y) with (Pos.compare x y).
    rewrite <- !Z2Pos.inj_compare by lia.
    assert (Hk : 0 < 2 ^ (53 - Z.pos (digits2_pos q))) by (apply Z.pow_pos_nonneg; lia).
    destruct (Pos.compare_spec p q) as [->|Hlt|Hgt].
    + apply Z.compare_refl.
    + apply Z.compare_lt_iff. nia.
    + apply Z.compare_gt_iff. nia.
  - symmetry. apply Pos.compare_lt_iff.
    assert (2 ^ Z.pos (digits2_pos p) <= 2 ^ (Z.pos (digits2_pos q) - 1)).
    { apply Z.pow_le_mono_r; lia. }
    lia.
  - symmetry. apply Pos.compare_gt_iff.
    assert (2 ^ Z.pos (digits2_pos q) <= 2 ^ (Z.pos (digits2_pos p) - 1)).
    { apply Z.pow_le_mono_r; lia. }
    lia.
Qed.

Lemma Prim2SF_toNumber n :
  Z.of_nat n < 2 ^ 53 ->
  Prim2SF (toNumber n) = binary_normalize prec emax (Z.of_nat n) 0 false.
Proof.
  intros Hn. unfold toNumber. rewrite of_uint63_spec, Uint63.of_Z_spec.
  rewrite Z.mod_small; [done|]. split; [lia|].
  eapply Z.lt_trans; [exact Hn|]. done.
Qed.

(** Below 2^53 the conversion keeps the order of the integers. *)
Lemma SFcompare_toNumber i j :
  Z.of_nat i < 2 ^ 53 -> Z.of_nat j < 2 ^ 53 ->
  SFcompare (Prim2SF (toNumber i)) (Prim2SF (toNumber j)) = Some (Nat.compare i j).
Proof.
  intros Hi Hj. rewrite !Prim2SF_toNumber by done.
  destruct (Z.of_nat i) as [|p|p] eqn:Ei, (Z.of_nat j) as [|q|q] eqn:Ej; try lia.
  - replace i with 0%nat by lia. by replace j with 0%nat by lia.
  - replace i with 0%nat by lia. destruct j; [lia|].
    rewrite binary_normalize_integer by by apply digits2_pos_53. done.
  - replace j with 0%nat by lia. destruct i; [lia|].
    rewrite binary_normalize_integer by by apply digits2_pos_53. done.
  - rewrite SFcompare_integer by by apply digits2_pos_53.
    f_equal. change (p ?= q)%positive with (Z.pos p ?= Z.pos q)%Z.
    by rewrite <- Ei, <- Ej, <- Nat2Z.inj_compare.
Qed.

Lemma toNumber_ltb i j :
  Z.of_nat i < 2 ^ 53 -> Z.of_nat j < 2 ^ 53 ->
  (toNumber i <? toNumber j)%float = (i <? j)%nat.
Proof.
  intros Hi Hj. rewrite FloatAxioms.ltb_spec. unfold SFltb.
  rewrite SFcompare_toNumber by done.
  destruct (Nat.compare_spec i j), (Nat.ltb_spec i j); done || lia.
Qed.

Lemma toNumber_leb i j :
  Z.of_nat i < 2 ^ 53 -> Z.of_nat j < 2 ^ 53 ->
  (toNumber i <=? toNumber j)%float = (i <=? j)%nat.
Proof.
  intros Hi Hj. rewrite FloatAxioms.leb_spec. unfold SFleb.
  rewrite SFcompare_toNumber by done.
  destruct (Nat.compare_spec i j), (Nat.leb_spec i j); done || lia.
Qed.

Lemma arrayLength_53 n : arrayLength n -> Z.of_nat n < 2 ^ 53.
Proof. unfold arrayLength. intros Hn. eapply Z.lt_trans; [exact Hn|]. done. Qed.
End IntegerFacts.

(** *** Rounding is monotone

    The sum and the difference of two doubles are rounded to the
    nearest double.  The facts below follow the rounding of
    [SpecFloat], bit by bit, to show that it never crosses a
    representable number: adding a non-negative number never gives
    less, subtracting one never gives more. *)

Section ShiftFacts.
Open Scope Z_scope.

(** The number of binary digits is the only [d] with [2^(d-1) <= p < 2^d]. *)
Lemma digits2_pos_unique p d : 2 ^ (d - 1) <= Zpos p < 2 ^ d -> Zpos (digits2_pos p) = d.
Proof.
  intros [Hlo Hhi]. pose proof (digits2_pos_bounds p) as [Hlo' Hhi'].
  assert (0 < d).
  { destruct (Z.lt_ge_cases 0 d); [done|]. exfalso.
    assert (2 ^ d <= 1).
    { destruct (Z.eq_dec d 0) as [->|]; [done|]. rewrite Z.pow_neg_r by lia. lia. }
    lia. }
  destruct (Z.lt_trichotomy (Zpos (digits2_pos p)) d) as [Hlt|[Heq|Hgt]]; [|done|].
  - exfalso. assert (2 ^ Zpos (digits2_pos p) <= 2 ^ (d - 1)) by (apply Z.pow_le_mono_r; lia).
    lia.
  - exfalso. assert (2 ^ d <= 2 ^ (Zpos (digits2_pos p) - 1)) by (apply Z.pow_le_mono_r; lia).
    lia.
Qed.

Lemma digits2_pos_le p q : (Zpos p <= Zpos q) -> Zpos (digits2_pos p) <= Zpos (digits2_pos q).
Proof.
  intros Hle.
  pose proof (digits2_pos_bounds p) as [Hp _].
  pose proof (digits2_pos_bounds q) as [_ Hq].
  destruct (Z.le_gt_cases (Zpos (digits2_pos p)) (Zpos (digits2_pos q))) as [|Hgt]; [done|].
  exfalso.
  assert (2 ^ Z.pos (digits2_pos q) <= 2 ^ (Z.pos (digits2_pos p) - 1)).
  { apply Z.pow_le_mono_r; lia. }
  lia.
Qed.

Lemma shr_1_spec m r s :
  0 <= m -> shr_1 (Build_shr_record m r s) = Build_shr_record (Z.div2 m) (Z.odd m) (r || s).
Proof. intros Hm. destruct m as [|[p|p|]|p]; done || lia. Qed.

Lemma iter_shr_1 (k : nat) m :
  0 <= m ->
  let rec := Nat.iter k shr_1 (Build_shr_record m false false) in
  shr_m rec = m / 2 ^ Z.of_nat k
  /\ (m mod 2 ^ Z.of_nat k = 0 -> shr_r rec = false /\ shr_s rec = false).
Proof.
  intros Hm. induction k as [|k [IHm IHe]].
  - simpl. rewrite Z.div_1_r. done.
  - rewrite Nat.iter_succ.
    destruct (Nat.iter k shr_1 (Build_shr_record m false false)) as [mk rk sk] eqn:E.
    simpl in IHm, IHe. subst mk.
    assert (Hk : 0 < 2 ^ Z.of_nat k) by (apply Z.pow_pos_nonneg; lia).
    rewrite shr_1_spec by (apply Z.div_pos; lia).
    rewrite Nat2Z.inj_succ, Z.pow_succ_r by lia. simpl.
    split.
    + rewrite Z.div2_div, Z.div_div by lia. f_equal. lia.
    + intros Hmod.
      assert (Hdiv : m = 2 * 2 ^ Z.of_nat k * (m / (2 * 2 ^ Z.of_nat k))).
      { apply Z.div_exact; lia. }
      assert (Hmk : m mod 2 ^ Z.of_nat k = 0).
      { rewrite Hdiv.
        replace (2 * 2 ^ Z.of_nat k * (m / (2 * 2 ^ Z.of_nat k)))
          with ((2 * (m / (2 * 2 ^ Z.of_nat k))) * 2 ^ Z.of_nat k) by lia.
        apply Z.mod_mul. lia. }
      destruct (IHe Hmk) as [-> ->]. split; [|done].
      assert (Hq : m / 2 ^ Z.of_nat k = 2 * (m / (2 * 2 ^ Z.of_nat k))).
      { rewrite Hdiv at 1.
        replace (2 * 2 ^ Z.of_nat k * (m / (2 * 2 ^ Z.of_nat k)))
          with ((2 * (m / (2 * 2 ^ Z.of_nat k))) * 2 ^ Z.of_nat k) by lia.
        apply Z.div_mul. lia. }
      rewrite Hq, Z.odd_mul. done.
Qed.

Lemma iter_pos_nat {A} (f : A -> A) p x : SpecFloat.iter_pos f p x = Nat.iter (Pos.to_nat p) f x.
Proof.
  revert x. induction p as [p IH|p IH|]; intros x; cbn [SpecFloat.iter_pos].
  - rewrite !IH. rewrite Pos2Nat.inj_xI.
    replace (2 * Pos.to_nat p)%nat with (Pos.to_nat p + Pos.to_nat p)%nat by lia.
    rewrite Nat.iter_succ_r, Nat.iter_add. done.
  - rewrite !IH. rewrite Pos2Nat.inj_xO.
    replace (2 * Pos.to_nat p)%nat with (Pos.to_nat p + Pos.to_nat p)%nat by lia.
    rewrite Nat.iter_add. done.
  - done.
Qed.

(** Shifting right by [n] bits divides by [2^n], exactly when the
    record says so. *)
Lemma shr_spec m e n :
  0 <= m -> 0 < n ->
  exists mrs, shr (Build_shr_record m false false) e n = (mrs, e + n)
              /\ shr_m mrs = m / 2 ^ n
              /\ (m mod 2 ^ n = 0 -> loc_of_shr_record mrs = loc_Exact).
Proof.
  intros Hm Hn. destruct n as [|p|p]; try lia. unfold shr.
  rewrite iter_pos_nat.
  destruct (iter_shr_1 (Pos.to_nat p) m Hm) as [Hq He].
  rewrite positive_nat_Z in Hq, He.
  eexists. split; [done|]. split; [done|].
  intros Hmod. destruct (He Hmod) as [Hr Hs].
  destruct (Nat.iter (Pos.to_nat p) shr_1 _) as [mk rk sk]. simpl in *. by subst.
Qed.

Lemma round_nearest_even_bounds q l :
  q <= round_nearest_even q l <= q + 1.
Proof. destruct l as [|[]]; simpl; try lia. destruct (Z.even q); lia. Qed.
End ShiftFacts.

Section RoundingFacts.
Open Scope Z_scope.

Lemma Zdigits2_bounds m : 0 < m -> 2 ^ (Zdigits2 m - 1) <= m < 2 ^ Zdigits2 m.
Proof. destruct m as [|p|p]; try lia. intros _. apply digits2_pos_bounds. Qed.

Lemma Zdigits2_unique m d : 2 ^ (d - 1) <= m < 2 ^ d -> 0 < m -> Zdigits2 m = d.
Proof. destruct m as [|p|p]; try lia. intros H _. by apply digits2_pos_unique. Qed.

Lemma Zdigits2_le a b : 0 < a -> a <= b -> Zdigits2 a <= Zdigits2 b.
Proof.
  destruct a as [|p|p], b as [|q|q]; try lia. intros _ H. by apply digits2_pos_le.
Qed.

Lemma Zdigits2_pos m : 0 < m -> 0 < Zdigits2 m.
Proof. destruct m; simpl; lia. Qed.

Lemma Zdigits2_mul_pow a k : 0 < a -> 0 <= k -> Zdigits2 (a * 2 ^ k) = Zdigits2 a + k.
Proof.
  intros Ha Hk. pose proof (Zdigits2_bounds a Ha) as [Hlo Hhi].
  pose proof (Zdigits2_pos a Ha).
  assert (0 < 2 ^ k) by (apply Z.pow_pos_nonneg; lia).
  apply Zdigits2_unique; [|nia].
  replace (Zdigits2 a + k - 1) with (Zdigits2 a - 1 + k) by lia.
  rewrite !Z.pow_add_r by lia. nia.
Qed.

Lemma fexp_eq d : fexp prec emax d = Z.max (d - 53) (-1074).
Proof. reflexivity. Qed.

Lemma fexp_le d d' : d <= d' -> fexp prec emax d <= fexp prec emax d'.
Proof. rewrite !fexp_eq. lia. Qed.

Lemma shr_fexp_spec m e :
  0 <= m ->
  let n := fexp prec emax (Zdigits2 m + e) - e in
  exists mrs, shr_fexp prec emax m e loc_Exact = (mrs, e + Z.max n 0)
    /\ shr_m mrs = (if 0 <? n then m / 2 ^ n else m)
    /\ ((0 <? n) = false \/ m mod 2 ^ n = 0 -> loc_of_shr_record mrs = loc_Exact).
Proof.
  intros Hm n. unfold shr_fexp. fold n. cbn [shr_record_of_loc].
  destruct (Z.ltb_spec 0 n) as [Hn|Hn].
  - destruct (shr_spec m e n Hm Hn) as (mrs & E & Hq & Hx).
    exists mrs. rewrite E. replace (Z.max n 0) with n by lia.
    split; [done|]. split; [done|]. intros [?|?]; [done|tauto].
  - exists (Build_shr_record m false false). split; [|done].
    replace (Z.max n 0) with 0 by lia. rewrite Z.add_0_r.
    destruct n; done || lia.
Qed.

(** The two rounding steps of [binary_round_aux] on an exact,
    non-negative mantissa. *)
Lemma binary_round_aux_spec sx m e :
  0 <= m ->
  let n := fexp prec emax (Zdigits2 m + e) - e in
  exists m1,
    (if 0 <? n
     then m / 2 ^ n <= m1 <= m / 2 ^ n + 1 /\ (m mod 2 ^ n = 0 -> m1 = m / 2 ^ n)
     else m1 = m)
    /\ let f := e + Z.max n 0 in
       let n2 := fexp prec emax (Zdigits2 m1 + f) - f in
       binary_round_aux prec emax sx m e loc_Exact =
         match (if 0 <? n2 then m1 / 2 ^ n2 else m1) with
         | 0 => S754_zero sx
         | Zpos m3 =>
             if f + Z.max n2 0 <=? 971 then S754_finite sx m3 (f + Z.max n2 0)
             else S754_infinity sx
         | Zneg _ => S754_nan
         end.
Proof.
  intros Hm n. unfold binary_round_aux.
  destruct (shr_fexp_spec m e Hm) as (mrs & -> & Hq & Hx). fold n in Hq, Hx.
  set (m1 := round_nearest_even (shr_m mrs) (loc_of_shr_record mrs)).
  assert (Hn : 0 < 2 ^ n \/ (0 <? n) = false).
  { destruct (Z.ltb_spec 0 n); [left; apply Z.pow_pos_nonneg; lia|by right]. }
  assert (Hm1 : 0 <= m1).
  { pose proof (round_nearest_even_bounds (shr_m mrs) (loc_of_shr_record mrs)).
    fold m1 in H. rewrite Hq in H.
    destruct (0 <? n) eqn:En; [|lia].
    destruct Hn as [Hn|]; [|done].
    assert (0 <= m / 2 ^ n) by (apply Z.div_pos; lia). lia. }
  exists m1. split.
  - pose proof (round_nearest_even_bounds (shr_m mrs) (loc_of_shr_record mrs)) as Hb.
    fold m1 in Hb. rewrite Hq in Hb.
    destruct (0 <? n) eqn:En.
    + split; [done|]. intros Hmod. unfold m1. rewrite Hx by auto. simpl. done.
    + unfold m1. rewrite Hx by auto. simpl. done.
  - cbv zeta. fold n.
    destruct (shr_fexp_spec m1 (e + Z.max n 0) Hm1) as (mrs2 & -> & Hq2 & _).
    rewrite Hq2. done.
Qed.

Lemma pow2_pos k : 0 <= k -> 0 < 2 ^ k.
Proof. intros. apply Z.pow_pos_nonneg; lia. Qed.

Lemma pow2_split a b : 0 <= b <= a -> 2 ^ a = 2 ^ (a - b) * 2 ^ b.
Proof. intros. rewrite <- Z.pow_add_r by lia. f_equal. lia. Qed.

Lemma binary_round_aux_sign sx m e :
  0 <= m ->
  let R := binary_round_aux prec emax sx m e loc_Exact in
  R = S754_zero sx \/ R = S754_infinity sx \/ exists m' e', R = S754_finite sx m' e'.
Proof.
  intros Hm R. unfold R.
  destruct (binary_round_aux_spec sx m e Hm) as (m1 & H1 & ->).
  set (n := fexp prec emax (Zdigits2 m + e) - e) in *.
  set (f := e + Z.max n 0). set (n2 := fexp prec emax (Zdigits2 m1 + f) - f).
  assert (Hm1 : 0 <= m1).
  { destruct (Z.ltb_spec 0 n); [|lia].
    assert (0 <= m / 2 ^ n) by (apply Z.div_pos; [lia|apply pow2_pos; lia]). lia. }
  assert (Hm3 : 0 <= (if 0 <? n2 then m1 / 2 ^ n2 else m1)).
  { destruct (Z.ltb_spec 0 n2); [|lia]. apply Z.div_pos; [lia|apply pow2_pos; lia]. }
  destruct (if 0 <? n2 then m1 / 2 ^ n2 else m1) as [|p|p]; [by left| |lia].
  destruct (_ <=? 971); eauto.
Qed.

(** Rounding a mantissa that is at least that of a representable
    number gives at least that number. *)
Lemma binary_round_aux_up sx mx ex m e :
  fexp prec emax (Zpos (digits2_pos mx) + ex) = ex -> ex <= 971 ->
  e <= ex -> Zpos mx * 2 ^ (ex - e) <= m ->
  let R := binary_round_aux prec emax sx m e loc_Exact in
  R = S754_infinity sx
  \/ exists m' e', R = S754_finite sx m' e' /\ (ex < e' \/ (e' = ex /\ Zpos mx <= Zpos m')).
Proof.
  intros Hc Hb He HX R. unfold R.
  pose proof (pow2_pos (ex - e) ltac:(lia)) as Hpw.
  assert (Hm : 0 < m) by nia.
  destruct (binary_round_aux_spec sx m e ltac:(lia)) as (m1 & H1 & ->).
  assert (Hd : Zpos (digits2_pos mx) + (ex - e) <= Zdigits2 m).
  { rewrite <- (Zdigits2_mul_pow (Zpos mx)) by lia. apply Zdigits2_le; lia. }
  pose proof (Zdigits2_bounds m Hm) as [Hmlo Hmhi].
  set (n := fexp prec emax (Zdigits2 m + e) - e) in *.
  assert (Hf : ex <= fexp prec emax (Zdigits2 m + e)).
  { rewrite <- Hc. apply fexp_le. lia. }
  assert (Hemin : -1074 <= ex) by (rewrite <- Hc, fexp_eq; lia).
  set (f := e + Z.max n 0).
  assert (Hfex : ex <= f) by (unfold f, n; lia).
  assert (H1' : 0 < m1 /\ (f = ex -> Zpos mx <= m1) /\ (ex < f -> 2 ^ 52 <= m1)).
  { destruct (Z.ltb_spec 0 n) as [Hn|Hn].
    - destruct H1 as [[Hlo _] _].
      pose proof (pow2_pos n ltac:(lia)) as Hpn.
      assert (Hq : f = ex -> Zpos mx <= m / 2 ^ n).
      { intros Hfe. assert (n = ex - e) by (unfold f in Hfe; lia).
        rewrite <- (Z.div_mul (Zpos mx) (2 ^ n)) by lia.
        apply Z.div_le_mono; [lia|]. by rewrite H. }
      assert (Hq' : ex < f -> 2 ^ 52 <= m / 2 ^ n).
      { intros Hfe.
        assert (Hn' : n = Zdigits2 m - 53).
        { unfold f in Hfe. unfold n in *. rewrite fexp_eq in *. lia. }
        rewrite <- (Z.div_mul (2 ^ 52) (2 ^ n)) by lia.
        apply Z.div_le_mono; [lia|].
        rewrite <- Z.pow_add_r by lia.
        replace (52 + n) with (Zdigits2 m - 1) by lia. done. }
      assert (0 < m / 2 ^ n).
      { destruct (Z.eq_dec f ex) as [Hfe|Hfe]; [specialize (Hq Hfe); lia|].
        specialize (Hq' ltac:(lia)). lia. }
      repeat split; [lia|intros Hfe; specialize (Hq Hfe); lia
                     |intros Hfe; specialize (Hq' Hfe); lia].
    - subst m1. assert (f = ex) by (unfold f; lia).
      assert (e = ex) by (unfold f in *; lia). subst e.
      rewrite Z.sub_diag in HX. simpl in HX.
      repeat split; [done|lia|lia]. }
  destruct H1' as (Hm1 & Hmx & H52). clear H1.
  pose proof (Zdigits2_bounds m1 Hm1) as [Hlo1 Hhi1].
  set (n2 := fexp prec emax (Zdigits2 m1 + f) - f).
  assert (Hn2 : 0 <= n2).
  { unfold n2. destruct (Z.eq_dec f ex) as [Hfe|Hfe].
    - rewrite Hfe. rewrite <- Hc at 2.
      assert (Zpos (digits2_pos mx) <= Zdigits2 m1).
      { change (Zpos (digits2_pos mx)) with (Zdigits2 (Zpos mx)).
        apply Zdigits2_le; [lia|auto]. }
      pose proof (fexp_le (Zpos (digits2_pos mx) + ex) (Zdigits2 m1 + ex)). lia.
    - assert (52 < Zdigits2 m1).
      { apply (Z.pow_lt_mono_r_iff 2); [lia|pose proof (Zdigits2_pos m1); lia|].
        specialize (H52 ltac:(lia)). lia. }
      rewrite fexp_eq. lia. }
  destruct (Z.ltb_spec 0 n2) as [Hn2'|Hn2'].
  - assert (Hn2e : n2 = Zdigits2 m1 - 53) by (unfold n2 in *; rewrite fexp_eq in *; lia).
    pose proof (pow2_pos n2 ltac:(lia)) as Hpn2.
    assert (1 <= m1 / 2 ^ n2).
    { rewrite <- (Z.div_same (2 ^ n2)) by lia.
      apply Z.div_le_mono; [lia|].
      assert (2 ^ n2 <= 2 ^ (Zdigits2 m1 - 1)) by (apply Z.pow_le_mono_r; lia). lia. }
    destruct (m1 / 2 ^ n2) as [|p|p]; try lia.
    destruct (Z.leb_spec (f + Z.max n2 0) 971); [|by left].
    right. eexists _, _. split; [done|]. left. lia.
  - destruct m1 as [|p|p]; try lia.
    replace (Z.max n2 0) with 0 by lia. rewrite Z.add_0_r.
    destruct (Z.leb_spec f 971); [|by left].
    right. eexists _, _. split; [done|].
    destruct (Z.eq_dec f ex) as [Hfe|Hfe]; [right; split; auto|left; lia].
Qed.

(** Rounding a mantissa that is at most that of a representable
    number gives at most that number. *)
Lemma binary_round_aux_down sx mx ex m e :
  fexp prec emax (Zpos (digits2_pos mx) + ex) = ex -> ex <= 971 ->
  e <= ex -> 0 < m <= Zpos mx * 2 ^ (ex - e) ->
  let R := binary_round_aux prec emax sx m e loc_Exact in
  R = S754_zero sx
  \/ exists m' e', R = S754_finite sx m' e' /\ (e' < ex \/ (e' = ex /\ Zpos m' <= Zpos mx)).
Proof.
  intros Hc Hb He [Hm HX] R. unfold R.
  pose proof (pow2_pos (ex - e) ltac:(lia)) as Hpw.
  destruct (binary_round_aux_spec sx m e ltac:(lia)) as (m1 & H1 & ->).
  assert (Hd : Zdigits2 m <= Zpos (digits2_pos mx) + (ex - e)).
  { rewrite <- (Zdigits2_mul_pow (Zpos mx)) by lia. apply Zdigits2_le; lia. }
  set (n := fexp prec emax (Zdigits2 m + e) - e) in *.
  assert (Hf : fexp prec emax (Zdigits2 m + e) <= ex).
  { rewrite <- Hc. apply fexp_le. lia. }
  set (f := e + Z.max n 0).
  assert (Hfex : f <= ex) by (unfold f, n; lia).
  assert (Hef : e <= f) by (unfold f; lia).
  pose proof (pow2_pos (ex - f) ltac:(lia)) as Hpf.
  assert (H1' : 0 <= m1 <= Zpos mx * 2 ^ (ex - f)).
  { destruct (Z.ltb_spec 0 n) as [Hn|Hn].
    - destruct H1 as [[Hlo Hhi] Hex].
      pose proof (pow2_pos n ltac:(lia)) as Hpn.
      assert (Hfn : f = e + n) by (unfold f; lia).
      assert (HXt : Zpos mx * 2 ^ (ex - e) = Zpos mx * 2 ^ (ex - f) * 2 ^ n).
      { rewrite (pow2_split (ex - e) n) by lia.
        replace (ex - e - n) with (ex - f) by lia. lia. }
      assert (Hq0 : 0 <= m / 2 ^ n) by (apply Z.div_pos; lia).
      assert (Hqt : m / 2 ^ n <= Zpos mx * 2 ^ (ex - f)).
      { rewrite <- (Z.div_mul (Zpos mx * 2 ^ (ex - f)) (2 ^ n)) by lia.
        apply Z.div_le_mono; lia. }
      split; [lia|].
      destruct (Z.eq_dec (m / 2 ^ n) (Zpos mx * 2 ^ (ex - f))) as [Heq|Hne]; [|lia].
      pose proof (Z.mul_div_le m (2 ^ n) Hpn) as Hle.
      assert (Hmeq : m = Zpos mx * 2 ^ (ex - f) * 2 ^ n) by nia.
      rewrite Hex; [lia|]. rewrite Hmeq. apply Z.mod_mul. lia.
    - subst m1. assert (f = e) by (unfold f; lia). rewrite H. lia. }
  clear H1.
  set (n2 := fexp prec emax (Zdigits2 m1 + f) - f).
  destruct (Z.eq_dec m1 0) as [->|Hm1].
  { left. rewrite Zdiv_0_l. by destruct (0 <? n2). }
  assert (Hd1 : Zdigits2 m1 <= Zpos (digits2_pos mx) + (ex - f)).
  { rewrite <- (Zdigits2_mul_pow (Zpos mx)) by lia. apply Zdigits2_le; lia. }
  assert (Hn2 : n2 <= ex - f).
  { unfold n2. rewrite <- Hc at 1.
    pose proof (fexp_le (Zdigits2 m1 + f) (Zpos (digits2_pos mx) + ex)). lia. }
  destruct (Z.ltb_spec 0 n2) as [Hn2'|Hn2'].
  - pose proof (pow2_pos n2 ltac:(lia)) as Hpn2.
    assert (Hq0 : 0 <= m1 / 2 ^ n2) by (apply Z.div_pos; lia).
    assert (Hq : n2 = ex - f -> m1 / 2 ^ n2 <= Zpos mx).
    { intros ->. rewrite <- (Z.div_mul (Zpos mx) (2 ^ (ex - f))) by lia.
      apply Z.div_le_mono; lia. }
    destruct (m1 / 2 ^ n2) as [|p|p]; [by left| |lia].
    replace (Z.max n2 0) with n2 by lia.
    destruct (Z.leb_spec (f + n2) 971); [|lia].
    right. eexists _, _. split; [done|].
    destruct (Z.eq_dec n2 (ex - f)) as [Heq|Hne]; [right; split; [lia|auto]|left; lia].
  - destruct m1 as [|p|p]; try lia.
    replace (Z.max n2 0) with 0 by lia. rewrite Z.add_0_r.
    destruct (Z.leb_spec f 971); [|lia].
    right. eexists _, _. split; [done|].
    destruct (Z.eq_dec f ex) as [Hfe|Hfe]; [right; split; [done|]|left; lia].
    rewrite Hfe, Z.sub_diag in H1'. simpl in H1'. lia.
Qed.
End RoundingFacts.

Ltac cmp_finite :=
  unfold SFleb, SFcompare;
  repeat match goal with
    | |- context [(?a ?= ?b)%Z] => destruct (Z.compare_spec a b); try lia
    end;
  repeat match goal with
    | |- context [PosDef.Pos.compare_cont Eq ?a ?b] =>
        change (PosDef.Pos.compare_cont Eq a b) with (Pos.compare a b);
        destruct (Pos.compare_spec a b); try lia
    end;
  try done.

Section SumFacts.
Open Scope Z_scope.

Lemma binary_round_aux_of sx p e :
  exists e', e' <= e
    /\ binary_round prec emax sx p e
       = binary_round_aux prec emax sx (Zpos p * 2 ^ (e - e')) e' loc_Exact.
Proof.
  unfold binary_round, shl_align.
  destruct (fexp prec emax (Z.pos (digits2_pos p) + e) - e) as [|d|d] eqn:E.
  - exists e. split; [lia|]. by rewrite Z.sub_diag, Z.pow_0_r, Z.mul_1_r.
  - exists e. split; [lia|]. by rewrite Z.sub_diag, Z.pow_0_r, Z.mul_1_r.
  - exists (fexp prec emax (Z.pos (digits2_pos p) + e)). split; [lia|].
    rewrite iter_xO. do 3 f_equal. lia.
Qed.

Lemma shl_align_fst mx ex ez :
  ez <= ex -> Zpos (fst (shl_align mx ex ez)) = Zpos mx * 2 ^ (ex - ez).
Proof.
  intros He. unfold shl_align. destruct (ez - ex) as [|d|d] eqn:E; try lia.
  - replace (ex - ez) with 0 by lia. simpl. lia.
  - simpl. rewrite iter_xO. do 2 f_equal. lia.
Qed.

Lemma valid_finite s m e :
  SpecFloat.valid_binary prec emax (S754_finite s m e) = true ->
  fexp prec emax (Zpos (digits2_pos m) + e) = e /\ e <= 971.
Proof.
  simpl. unfold bounded, canonical_mantissa.
  intros [H1 H2]%andb_prop. split; [by apply Z.eqb_eq|]. apply Z.leb_le in H2.
  exact H2.
Qed.

Lemma SFleb_finite_ge s mx ex R :
  (R = S754_infinity s
   \/ exists m' e', R = S754_finite s m' e' /\ (ex < e' \/ (e' = ex /\ Zpos mx <= Zpos m'))) ->
  if s then SFleb R (S754_finite s mx ex) = true
  else SFleb (S754_finite s mx ex) R = true.
Proof.
  intros [->|(m' & e' & -> & H)]; [by destruct s|].
  destruct s, H as [H|[-> H]]; cmp_finite.
Qed.

Lemma SFleb_finite_le s mx ex R :
  (R = S754_zero s
   \/ exists m' e', R = S754_finite s m' e' /\ (e' < ex \/ (e' = ex /\ Zpos m' <= Zpos mx))) ->
  if s then SFleb (S754_finite s mx ex) R = true
  else SFleb R (S754_finite s mx ex) = true.
Proof.
  intros [->|(m' & e' & -> & H)]; [by destruct s|].
  destruct s, H as [H|[-> H]]; cmp_finite.
Qed.

Lemma binary_round_sign sx p e :
  let R := binary_round prec emax sx p e in
  R = S754_zero sx \/ R = S754_infinity sx \/ exists m' e', R = S754_finite sx m' e'.
Proof.
  destruct (binary_round_aux_of sx p e) as (e' & He & ->).
  apply binary_round_aux_sign. pose proof (pow2_pos (e - e')). lia.
Qed.

Lemma binary_round_up sx mx ex p e :
  fexp prec emax (Zpos (digits2_pos mx) + ex) = ex -> ex <= 971 ->
  e <= ex -> Zpos mx * 2 ^ (ex - e) <= Zpos p ->
  let R := binary_round prec emax sx p e in
  R = S754_infinity sx
  \/ exists m' e', R = S754_finite sx m' e' /\ (ex < e' \/ (e' = ex /\ Zpos mx <= Zpos m')).
Proof.
  intros Hc Hb He HX.
  destruct (binary_round_aux_of sx p e) as (e' & He' & ->).
  apply binary_round_aux_up; [done|done|lia|].
  rewrite (pow2_split (ex - e') (e - e')) by lia.
  replace (ex - e' - (e - e')) with (ex - e) by lia.
  pose proof (pow2_pos (e - e')). nia.
Qed.

Lemma binary_round_down sx mx ex p e :
  fexp prec emax (Zpos (digits2_pos mx) + ex) = ex -> ex <= 971 ->
  e <= ex -> Zpos p <= Zpos mx * 2 ^ (ex - e) ->
  let R := binary_round prec emax sx p e in
  R = S754_zero sx
  \/ exists m' e', R = S754_finite sx m' e' /\ (e' < ex \/ (e' = ex /\ Zpos m' <= Zpos mx)).
Proof.
  intros Hc Hb He HX.
  destruct (binary_round_aux_of sx p e) as (e' & He' & ->).
  apply binary_round_aux_down; [done|done|lia|].
  rewrite (pow2_split (ex - e') (e - e')) by lia.
  replace (ex - e' - (e - e')) with (ex - e) by lia.
  pose proof (pow2_pos (e - e')). nia.
Qed.

(** Rounding is monotone at a representable number: a sum that is at
    least [x] rounds to at least [x], one that is at most [x] to at
    most [x]. *)
Lemma binary_normalize_ge sx mx ex S e :
  SpecFloat.valid_binary prec emax (S754_finite sx mx ex) = true ->
  e <= ex -> cond_Zopp sx (Zpos mx * 2 ^ (ex - e)) <= S ->
  SFleb (S754_finite sx mx ex) (binary_normalize prec emax S e false) = true.
Proof.
  intros [Hc Hb]%valid_finite He HS.
  pose proof (pow2_pos (ex - e) ltac:(lia)) as Hp.
  destruct sx; simpl in HS.
  - destruct S as [|p|p]; simpl.
    + done.
    + by destruct (binary_round_sign false p e) as [->|[->|(m' & e' & ->)]].
    + apply (SFleb_finite_le true). apply binary_round_down; [done|done|done|lia].
  - destruct S as [|p|p]; try lia. simpl.
    apply (SFleb_finite_ge false). by apply binary_round_up.
Qed.

Lemma binary_normalize_le sx mx ex S e :
  SpecFloat.valid_binary prec emax (S754_finite sx mx ex) = true ->
  e <= ex -> S <= cond_Zopp sx (Zpos mx * 2 ^ (ex - e)) ->
  SFleb (binary_normalize prec emax S e false) (S754_finite sx mx ex) = true.
Proof.
  intros [Hc Hb]%valid_finite He HS.
  pose proof (pow2_pos (ex - e) ltac:(lia)) as Hp.
  destruct sx; simpl in HS.
  - destruct S as [|p|p]; try lia. simpl.
    apply (SFleb_finite_ge true). apply binary_round_up; [done|done|done|lia].
  - destruct S as [|p|p]; simpl.
    + done.
    + apply (SFleb_finite_le false). by apply binary_round_down.
    + by destruct (binary_round_sign true p e) as [->|[->|(m' & e' & ->)]].
Qed.

Lemma SFleb_refl x : x <> S754_nan -> SFleb x x = true.
Proof.
  destruct x as [s|s| |s m e]; try done; [by destruct s|]. intros _.
  destruct s; cmp_finite.
Qed.

Lemma SFadd_nonneg x y :
  SpecFloat.valid_binary prec emax x = true ->
  SFleb (S754_zero false) y = true ->
  SFadd prec emax x y <> S754_nan ->
  SFleb x (SFadd prec emax x y) = true.
Proof.
  intros Hx Hy Hn.
  destruct y as [sy|[]| |[] my ey]; try done; destruct x as [sx|sx| |sx mx ex]; try done.
  all: try (by destruct sx); try (by destruct sx, sy).
  all: try (apply SFleb_refl; done).
  cbn [SFadd]. apply binary_normalize_ge; [done|apply Z.le_min_l|].
  rewrite !shl_align_fst by lia. simpl cond_Zopp at 2.
  destruct sx; simpl; lia.
Qed.

Lemma SFsub_nonneg x y :
  SpecFloat.valid_binary prec emax x = true ->
  SFleb (S754_zero false) y = true ->
  SFsub prec emax x y <> S754_nan ->
  SFleb (SFsub prec emax x y) x = true.
Proof.
  intros Hx Hy Hn.
  destruct y as [sy|[]| |[] my ey]; try done; destruct x as [sx|sx| |sx mx ex]; try done.
  all: try (by destruct sx); try (by destruct sx, sy).
  all: try (apply SFleb_refl; done).
  cbn [SFsub]. apply binary_normalize_le; [done|apply Z.le_min_l|].
  rewrite !shl_align_fst by lia. simpl cond_Zopp at 2.
  destruct sx; simpl; lia.
Qed.

Lemma SFmul_nonneg m e y :
  SFleb (S754_zero false) y = true ->
  SFleb (S754_zero false) (SFmul prec emax (S754_finite false m e) y) = true.
Proof.
  destruct y as [[]|[]| |[] my ey]; try done. intros _. cbn [SFmul xorb].
  by destruct (binary_round_aux_sign false (Zpos (m * my)) (e + ey) ltac:(lia))
    as [->|[->|(m' & e' & ->)]].
Qed.

Lemma SFadd_nonpos x y :
  SpecFloat.valid_binary prec emax x = true ->
  SFleb y (S754_zero false) = true ->
  SFadd prec emax x y <> S754_nan ->
  SFleb (SFadd prec emax x y) x = true.
Proof.
  intros Hx Hy Hn.
  destruct y as [sy|[]| |[] my ey]; try done; destruct x as [sx|sx| |sx mx ex]; try done.
  all: try (by destruct sx); try (by destruct sx, sy).
  all: try (apply SFleb_refl; done).
  cbn [SFadd]. apply binary_normalize_le; [done|apply Z.le_min_l|].
  rewrite !shl_align_fst by lia. simpl cond_Zopp at 2.
  destruct sx; simpl; lia.
Qed.

Lemma SFsub_nonpos x y :
  SpecFloat.valid_binary prec emax x = true ->
  SFleb y (S754_zero false) = true ->
  SFsub prec emax x y <> S754_nan ->
  SFleb x (SFsub prec emax x y) = true.
Proof.
  intros Hx Hy Hn.
  destruct y as [sy|[]| |[] my ey]; try done; destruct x as [sx|sx| |sx mx ex]; try done.
  all: try (by destruct sx); try (by destruct sx, sy).
  all: try (apply SFleb_refl; done).
  cbn [SFsub]. apply binary_normalize_ge; [done|apply Z.le_min_l|].
  rewrite !shl_align_fst by lia. simpl cond_Zopp at 2.
  destruct sx; simpl; lia.
Qed.

Lemma SFmul_nonpos m e y :
  SFleb y (S754_zero false) = true ->
  SFleb (SFmul prec emax (S754_finite false m e) y) (S754_zero false) = true.
Proof.
  destruct y as [[]|[]| |[] my ey]; try done. intros _. cbn [SFmul xorb].
  by destruct (binary_round_aux_sign true (Zpos (m * my)) (e + ey) ltac:(lia))
    as [->|[->|(m' & e' & ->)]].
Qed.

(** A difference of equal numbers is zero, unless they are infinite. *)
Lemma SFsub_eqb x y :
  SFeqb x y = true ->
  match y with S754_infinity _ => False | _ => True end ->
  exists s, SFsub prec emax x y = S754_zero s.
Proof.
  destruct x as [sx|sx| |sx mx ex], y as [sy|sy| |sy my ey]; intros Heq Hy; try done.
  all: try (destruct sx, sy; done || by eexists).
  unfold SFeqb, SFcompare in Heq. cbn [SFsub].
  destruct sx, sy; try done.
  all: destruct (Z.compare_spec ex ey) as [->| |]; try done.
  all: change (PosDef.Pos.compare_cont Eq mx my) with (Pos.compare mx my) in Heq.
  all: destruct (Pos.compare_spec mx my) as [->| |]; try done.
  all: rewrite Z.sub_diag; by eexists.
Qed.
End SumFacts.

(** *** Differences and their exact values *)

Section ExactFacts.
Open Scope Z_scope.

Lemma binary_round_align sx p e :
  let e' := Z.min e (fexp prec emax (Zpos (digits2_pos p) + e)) in
  binary_round prec emax sx p e
  = binary_round_aux prec emax sx (Zpos p * 2 ^ (e - e')) e' loc_Exact.
Proof.
  intros e'. subst e'. unfold binary_round, shl_align.
  destruct (fexp prec emax (Z.pos (digits2_pos p) + e) - e) as [|d|d] eqn:E.
  - replace (Z.min _ _) with e by lia. by rewrite Z.sub_diag, Z.pow_0_r, Z.mul_1_r.
  - replace (Z.min _ _) with e by lia. by rewrite Z.sub_diag, Z.pow_0_r, Z.mul_1_r.
  - replace (Z.min _ _) with (fexp prec emax (Z.pos (digits2_pos p) + e)) by lia.
    rewrite iter_xO. do 3 f_equal. lia.
Qed.

(** A mantissa whose rounding exponent is above [ex] rounds to a
    number of exponent above [ex]. *)
Lemma binary_round_aux_high sx m e ex :
  0 < m -> -1074 <= ex ->
  e <= fexp prec emax (Zdigits2 m + e) -> ex < fexp prec emax (Zdigits2 m + e) ->
  let R := binary_round_aux prec emax sx m e loc_Exact in
  R = S754_infinity sx \/ exists m' e', R = S754_finite sx m' e' /\ ex < e'.
Proof.
  intros Hm Hex He Hf R. unfold R.
  destruct (binary_round_aux_spec sx m e ltac:(lia)) as (m1 & H1 & ->).
  pose proof (Zdigits2_bounds m Hm) as [Hmlo Hmhi].
  set (n := fexp prec emax (Zdigits2 m + e) - e) in *.
  assert (Hfe : fexp prec emax (Zdigits2 m + e) = Zdigits2 m + e - 53)
    by (rewrite fexp_eq in *; lia).
  set (f := e + Z.max n 0).
  assert (Hff : f = fexp prec emax (Zdigits2 m + e)) by (unfold f, n; lia).
  assert (Hm1 : 2 ^ 52 <= m1).
  { destruct (Z.ltb_spec 0 n) as [Hn|Hn].
    - destruct H1 as [[Hlo _] _].
      pose proof (pow2_pos n ltac:(lia)) as Hpn.
      assert (2 ^ 52 <= m / 2 ^ n); [|lia].
      rewrite <- (Z.div_mul (2 ^ 52) (2 ^ n)) by lia.
      apply Z.div_le_mono; [lia|].
      rewrite <- Z.pow_add_r by lia.
      replace (52 + n) with (Zdigits2 m - 1) by (unfold n; lia). done.
    - subst m1. replace 52 with (Zdigits2 m - 1) by (unfold n in *; lia). done. }
  clear H1.
  assert (Hm1' : 0 < m1) by lia.
  pose proof (Zdigits2_bounds m1 Hm1') as [Hlo1 Hhi1].
  assert (Hd1 : 52 < Zdigits2 m1).
  { apply (Z.pow_lt_mono_r_iff 2); [lia|pose proof (Zdigits2_pos m1); lia|lia]. }
  set (n2 := fexp prec emax (Zdigits2 m1 + f) - f).
  assert (Hn2e : n2 = Zdigits2 m1 - 53) by (unfold n2; rewrite fexp_eq in *; lia).
  destruct (Z.ltb_spec 0 n2) as [Hn2'|Hn2'].
  - pose proof (pow2_pos n2 ltac:(lia)) as Hpn2.
    assert (1 <= m1 / 2 ^ n2).
    { rewrite <- (Z.div_same (2 ^ n2)) by lia.
      apply Z.div_le_mono; [lia|].
      assert (2 ^ n2 <= 2 ^ (Zdigits2 m1 - 1)) by (apply Z.pow_le_mono_r; lia). lia. }
    destruct (m1 / 2 ^ n2) as [|p|p]; try lia.
    destruct (Z.leb_spec (f + Z.max n2 0) 971); [|by left].
    right. eexists _, _. split; [done|]. lia.
  - destruct m1 as [|p|p]; try lia.
    replace (Z.max n2 0) with 0 by lia. rewrite Z.add_0_r.
    destruct (Z.leb_spec f 971); [|by left].
    right. eexists _, _. split; [done|]. lia.
Qed.

Lemma Zdigits2_scaled p j : 0 <= j -> Zdigits2 (Zpos p * 2 ^ j) = Zpos (digits2_pos p) + j.
Proof. intros. by rewrite Zdigits2_mul_pow. Qed.

Lemma binary_round_up_any sx mx ex p e k :
  fexp prec emax (Zpos (digits2_pos mx) + ex) = ex -> ex <= 971 ->
  k <= e -> k <= ex -> Zpos mx * 2 ^ (ex - k) <= Zpos p * 2 ^ (e - k) ->
  let R := binary_round prec emax sx p e in
  R = S754_infinity sx
  \/ exists m' e', R = S754_finite sx m' e' /\ (ex < e' \/ (e' = ex /\ Zpos mx <= Zpos m')).
Proof.
  intros Hc Hb Hke Hkx HX R. unfold R. rewrite binary_round_align.
  set (f := fexp prec emax (Zpos (digits2_pos p) + e)).
  set (e' := Z.min e f).
  assert (Hemin : -1074 <= ex) by (rewrite <- Hc, fexp_eq; lia).
  assert (Hfmin : -1074 <= f) by (unfold f; rewrite fexp_eq; lia).
  pose proof (pow2_pos (e - e') ltac:(lia)) as Hp1.
  destruct (Z.le_gt_cases e' ex) as [Hle|Hgt].
  - apply binary_round_aux_up; [done|done|done|].
    set (j := Z.min k e').
    pose proof (pow2_pos (k - j) ltac:(lia)) as Hp2.
    pose proof (pow2_pos (e' - j) ltac:(lia)) as Hp3.
    assert (H1 : Zpos mx * 2 ^ (ex - j) <= Zpos p * 2 ^ (e - j)).
    { rewrite (pow2_split (ex - j) (k - j)), (pow2_split (e - j) (k - j)) by lia.
      replace (ex - j - (k - j)) with (ex - k) by lia.
      replace (e - j - (k - j)) with (e - k) by lia. nia. }
    rewrite (pow2_split (ex - j) (e' - j)), (pow2_split (e - j) (e' - j)) in H1 by lia.
    replace (ex - j - (e' - j)) with (ex - e') in H1 by lia.
    replace (e - j - (e' - j)) with (e - e') in H1 by lia. nia.
  - destruct (binary_round_aux_high sx (Zpos p * 2 ^ (e - e')) e' ex) as [->|(m' & e2 & -> & ?)].
    + lia.
    + done.
    + rewrite Zdigits2_scaled by lia.
      replace (Z.pos (digits2_pos p) + (e - e') + e') with (Zpos (digits2_pos p) + e) by lia.
      fold f. lia.
    + rewrite Zdigits2_scaled by lia.
      replace (Z.pos (digits2_pos p) + (e - e') + e') with (Zpos (digits2_pos p) + e) by lia.
      fold f. lia.
    + by left.
    + right. eexists _, _. split; [done|]. by left.
Qed.

Lemma binary_round_down_any sx mx ex p e k :
  fexp prec emax (Zpos (digits2_pos mx) + ex) = ex -> ex <= 971 ->
  k <= e -> k <= ex -> Zpos p * 2 ^ (e - k) <= Zpos mx * 2 ^ (ex - k) ->
  let R := binary_round prec emax sx p e in
  R = S754_zero sx
  \/ exists m' e', R = S754_finite sx m' e' /\ (e' < ex \/ (e' = ex /\ Zpos m' <= Zpos mx)).
Proof.
  intros Hc Hb Hke Hkx HX R. unfold R. rewrite binary_round_align.
  set (f := fexp prec emax (Zpos (digits2_pos p) + e)).
  set (e' := Z.min e f).
  pose proof (pow2_pos (e - e') ltac:(lia)) as Hp1.
  assert (Hle : e' <= ex).
  { destruct (Z.le_gt_cases e ex) as [|Hgt]; [lia|].
    assert (Hd : Zpos (digits2_pos p) + (e - k) <= Zpos (digits2_pos mx) + (ex - k)).
    { rewrite <- !Zdigits2_scaled by lia. apply Zdigits2_le; [|done].
      pose proof (pow2_pos (e - k) ltac:(lia)). lia. }
    assert (f <= ex); [|lia].
    rewrite <- Hc. apply fexp_le. lia. }
  apply binary_round_aux_down; [done|done|done|].
  split; [lia|].
  set (j := Z.min k e').
  pose proof (pow2_pos (k - j) ltac:(lia)) as Hp2.
  pose proof (pow2_pos (e' - j) ltac:(lia)) as Hp3.
  assert (H1 : Zpos p * 2 ^ (e - j) <= Zpos mx * 2 ^ (ex - j)).
  { rewrite (pow2_split (ex - j) (k - j)), (pow2_split (e - j) (k - j)) by lia.
    replace (ex - j - (k - j)) with (ex - k) by lia.
    replace (e - j - (k - j)) with (e - k) by lia. nia. }
  rewrite (pow2_split (ex - j) (e' - j)), (pow2_split (e - j) (e' - j)) in H1 by lia.
  replace (ex - j - (e' - j)) with (ex - e') in H1 by lia.
  replace (e - j - (e' - j)) with (e - e') in H1 by lia. nia.
Qed.

(** Rounding is monotone at a representable number, whatever the
    exponents: [k] is any common unit of the two sides. *)
Lemma binary_normalize_ge_any sx mx ex S e k :
  SpecFloat.valid_binary prec emax (S754_finite sx mx ex) = true ->
  k <= e -> k <= ex ->
  cond_Zopp sx (Zpos mx * 2 ^ (ex - k)) <= S * 2 ^ (e - k) ->
  SFleb (S754_finite sx mx ex) (binary_normalize prec emax S e false) = true.
Proof.
  intros [Hc Hb]%valid_finite Hke Hkx HS.
  pose proof (pow2_pos (ex - k) ltac:(lia)) as Hp.
  pose proof (pow2_pos (e - k) ltac:(lia)) as Hp'.
  destruct sx; simpl in HS.
  - destruct S as [|p|p]; simpl.
    + done.
    + by destruct (binary_round_sign false p e) as [->|[->|(m' & e' & ->)]].
    + apply (SFleb_finite_le true). apply (binary_round_down_any _ _ _ _ _ k); try done.
      lia.
  - destruct S as [|p|p]; try lia. simpl.
    apply (SFleb_finite_ge false). by apply (binary_round_up_any _ _ _ _ _ k).
Qed.

Lemma binary_normalize_le_any sx mx ex S e k :
  SpecFloat.valid_binary prec emax (S754_finite sx mx ex) = true ->
  k <= e -> k <= ex ->
  S * 2 ^ (e - k) <= cond_Zopp sx (Zpos mx * 2 ^ (ex - k)) ->
  SFleb (binary_normalize prec emax S e false) (S754_finite sx mx ex) = true.
Proof.
  intros [Hc Hb]%valid_finite Hke Hkx HS.
  pose proof (pow2_pos (ex - k) ltac:(lia)) as Hp.
  pose proof (pow2_pos (e - k) ltac:(lia)) as Hp'.
  destruct sx; simpl in HS.
  - destruct S as [|p|p]; try lia. simpl.
    apply (SFleb_finite_ge true). apply (binary_round_up_any _ _ _ _ _ k); try done. lia.
  - destruct S as [|p|p]; simpl.
    + done.
    + apply (SFleb_finite_le false). by apply (binary_round_down_any _ _ _ _ _ k).
    + by destruct (binary_round_sign true p e) as [->|[->|(m' & e' & ->)]].
Qed.

(** A representable number rounds to itself. *)
Lemma binary_normalize_valid s m e :
  SpecFloat.valid_binary prec emax (S754_finite s m e) = true ->
  binary_normalize prec emax (cond_Zopp s (Zpos m)) e false = S754_finite s m e.
Proof.
  intros [Hc Hb]%valid_finite.
  assert (binary_round prec emax s m e = S754_finite s m e); [|by destruct s].
  rewrite binary_round_align. rewrite Hc.
  replace (Z.min e e) with e by lia. rewrite Z.sub_diag, Z.pow_0_r, Z.mul_1_r.
  destruct (binary_round_aux_spec s (Zpos m) e ltac:(lia)) as (m1 & H1 & ->).
  simpl Zdigits2 in *. rewrite Hc in *. rewrite Z.sub_diag in *. simpl in H1. subst m1.
  simpl Z.max. rewrite Z.add_0_r. simpl Zdigits2. rewrite Hc, Z.sub_diag. simpl.
  rewrite Z.add_0_r. by destruct (Z.leb_spec e 971); [|lia].
Qed.

Lemma valid_emin s m e :
  SpecFloat.valid_binary prec emax (S754_finite s m e) = true -> -1074 <= e.
Proof. intros [Hc _]%valid_finite. rewrite <- Hc, fexp_eq. lia. Qed.

(** The difference of two numbers is their exact difference, rounded. *)
Lemma SFsub_exact x y :
  SpecFloat.valid_binary prec emax x = true ->
  SpecFloat.valid_binary prec emax y = true ->
  SFfinite x -> SFfinite y ->
  (exists s, SFsub prec emax x y = S754_zero s /\ SFexact x - SFexact y = 0)
  \/ exists S e, -1074 <= e
       /\ SFsub prec emax x y = binary_normalize prec emax S e false
       /\ SFexact x - SFexact y = S * 2 ^ (e + 1074).
Proof.
  intros Hx Hy Fx Fy.
  destruct x as [sx|sx| |sx mx ex], y as [sy|sy| |sy my ey]; try done.
  - left. destruct sx, sy; by eexists.
  - right. exists (cond_Zopp (negb sy) (Zpos my)), ey.
    split; [by eapply valid_emin|]. split.
    + by rewrite binary_normalize_valid.
    + simpl. destruct sy; simpl; lia.
  - right. exists (cond_Zopp sx (Zpos mx)), ex.
    split; [by eapply valid_emin|]. split.
    + by rewrite binary_normalize_valid.
    + simpl. destruct sx; simpl; lia.
  - right. pose proof (valid_emin _ _ _ Hx). pose proof (valid_emin _ _ _ Hy).
    eexists _, _. split; [|split; [reflexivity|]]; [lia|].
    rewrite !shl_align_fst by lia. simpl SFexact.
    set (ez := Z.min ex ey).
    rewrite (pow2_split (ex + 1074) (ez + 1074)), (pow2_split (ey + 1074) (ez + 1074))
      by lia.
    replace (ex + 1074 - (ez + 1074)) with (ex - ez) by lia.
    replace (ey + 1074 - (ez + 1074)) with (ey - ez) by lia.
    destruct sx, sy; simpl; lia.
Qed.

Lemma SFsub_round_ge sr mr er x y :
  SpecFloat.valid_binary prec emax (S754_finite sr mr er) = true ->
  SpecFloat.valid_binary prec emax x = true ->
  SpecFloat.valid_binary prec emax y = true ->
  SFfinite x -> SFfinite y ->
  SFexact (S754_finite sr mr er) <= SFexact x - SFexact y ->
  SFleb (S754_finite sr mr er) (SFsub prec emax x y) = true.
Proof.
  intros Hr Hx Hy Fx Fy Hle. pose proof (valid_emin _ _ _ Hr) as Her.
  destruct (SFsub_exact x y Hx Hy Fx Fy) as [(s & -> & E)|(S & e & He & -> & E)].
  - rewrite E in Hle. simpl in Hle.
    pose proof (pow2_pos (er + 1074) ltac:(lia)). destruct sr; [done|simpl in Hle; lia].
  - apply (binary_normalize_ge_any _ _ _ _ _ (-1074)); [done|lia|lia|].
    rewrite E in Hle. simpl in Hle.
    by replace (er - -1074) with (er + 1074) by lia;
       replace (e - -1074) with (e + 1074) by lia.
Qed.

Lemma SFsub_round_le sr mr er x y :
  SpecFloat.valid_binary prec emax (S754_finite sr mr er) = true ->
  SpecFloat.valid_binary prec emax x = true ->
  SpecFloat.valid_binary prec emax y = true ->
  SFfinite x -> SFfinite y ->
  SFexact x - SFexact y <= SFexact (S754_finite sr mr er) ->
  SFleb (SFsub prec emax x y) (S754_finite sr mr er) = true.
Proof.
  intros Hr Hx Hy Fx Fy Hle. pose proof (valid_emin _ _ _ Hr) as Her.
  destruct (SFsub_exact x y Hx Hy Fx Fy) as [(s & -> & E)|(S & e & He & -> & E)].
  - rewrite E in Hle. simpl in Hle.
    pose proof (pow2_pos (er + 1074) ltac:(lia)). destruct sr; [simpl in Hle; lia|done].
  - apply (binary_normalize_le_any _ _ _ _ _ (-1074)); [done|lia|lia|].
    rewrite E in Hle. simpl in Hle.
    by replace (er - -1074) with (er + 1074) by lia;
       replace (e - -1074) with (e + 1074) by lia.
Qed.
End ExactFacts.

Section NumberSumFacts.
Implicit Types a b m dt : number.
Open Scope float_scope.

(** Adding a non-negative number never gives less, in doubles too. *)
Lemma add_nonneg a m :
  (0 <=? m) = true -> is_nan (a + m) = false -> (a <=? a + m) = true.
Proof.
  rewrite is_nan_false, !FloatAxioms.leb_spec, add_spec. intros Hm Hn.
  apply SFadd_nonneg; [apply Prim2SF_valid|exact Hm|exact Hn].
Qed.

Lemma sub_nonneg a m :
  (0 <=? m) = true -> is_nan (a - m) = false -> (a - m <=? a) = true.
Proof.
  rewrite is_nan_false, !FloatAxioms.leb_spec, sub_spec. intros Hm Hn.
  apply SFsub_nonneg; [apply Prim2SF_valid|exact Hm|exact Hn].
Qed.

Lemma mul_500_nonneg dt : (0 <=? dt) = true -> (0 <=? 500 * dt) = true.
Proof.
  rewrite !FloatAxioms.leb_spec, mul_spec. intros H.
  change (Prim2SF 500) with (S754_finite false 8796093022208000 (-44)).
  by apply SFmul_nonneg.
Qed.

Lemma add_nonpos a m :
  (m <=? 0) = true -> is_nan (a + m) = false -> (a + m <=? a) = true.
Proof.
  rewrite is_nan_false, !FloatAxioms.leb_spec, add_spec. intros Hm Hn.
  apply SFadd_nonpos; [apply Prim2SF_valid|exact Hm|exact Hn].
Qed.

Lemma sub_nonpos a m :
  (m <=? 0) = true -> is_nan (a - m) = false -> (a <=? a - m) = true.
Proof.
  rewrite is_nan_false, !FloatAxioms.leb_spec, sub_spec. intros Hm Hn.
  apply SFsub_nonpos; [apply Prim2SF_valid|exact Hm|exact Hn].
Qed.

Lemma mul_500_nonpos dt : (dt <=? 0) = true -> (500 * dt <=? 0) = true.
Proof.
  rewrite !FloatAxioms.leb_spec, mul_spec. intros H.
  change (Prim2SF 500) with (S754_finite false 8796093022208000 (-44)).
  by apply SFmul_nonpos.
Qed.

Lemma sub_eqb a b :
  (a =? b) = true -> is_infinity b = false -> (abs (a - b) =? 0) = true.
Proof.
  unfold is_infinity.
  rewrite !FloatAxioms.eqb_spec, !abs_spec, sub_spec.
  change (Prim2SF infinity) with (S754_infinity false).
  change (Prim2SF 0) with (S754_zero false).
  intros Heq Hinf.
  destruct (SFsub_eqb (Prim2SF a) (Prim2SF b) Heq) as [s Hs].
  - by destruct (Prim2SF b) as [?|[]| |].
  - unfold SF64sub. by rewrite Hs.
Qed.

(** Numbers that are equal are less than 200 apart, unless they are
    infinite. *)
Lemma abs_sub_eqb_200 a b :
  (a =? b) = true -> is_infinity b = false -> (abs (a - b) <? 200) = true.
Proof.
  intros Heq Hinf. apply (leb_ltb_trans _ 0); [|done].
  by destruct (proj1 (eqb_leb _ _) (sub_eqb a b Heq Hinf)).
Qed.

(** [Math.min(a, b)] is never above [a]. *)
Lemma min_leb_l a b : is_nan (Math.min a b) = false -> (Math.min a b <=? a) = true.
Proof.
  intros Hn. destruct (min_nan _ _ Hn) as [Ha Hb]. clear Hn.
  unfold Math.min. rewrite Ha, Hb. simpl.
  destruct (a <? b) eqn:Hab; [by apply leb_refl|].
  destruct (b <? a) eqn:Hba; [by apply ltb_leb|].
  destruct (get_sign a); [by apply leb_refl|by apply ltb_total].
Qed.

(** [Math.max(a, b)] is never below [a]. *)
Lemma max_leb_l a b : is_nan (Math.max a b) = false -> (a <=? Math.max a b) = true.
Proof.
  intros Hn. destruct (max_nan _ _ Hn) as [Ha Hb]. clear Hn.
  unfold Math.max. rewrite Ha, Hb. simpl.
  destruct (a <? b) eqn:Hab; [by apply ltb_leb|].
  destruct (b <? a) eqn:Hba; [by apply leb_refl|].
  destruct (get_sign a); [by apply ltb_total|by apply leb_refl].
Qed.

(** A step of [m >= 0] towards a bound on the right stays between the
    start and the bound. *)
Lemma min_step a m b :
  (0 <=? m) = true -> (a <=? b) = true -> is_nan (Math.min (a + m) b) = false ->
  (a <=? Math.min (a + m) b) = true
  /\ (Math.min (a + m) b <=? a + m) = true
  /\ (Math.min (a + m) b <=? b) = true.
Proof.
  intros Hm Hab Hn. destruct (min_nan _ _ Hn) as [Hs Hb].
  split; [|split; [by apply min_leb_l|by apply min_leb]].
  destruct (min_cases (a + m) b Hb) as [-> | ->]; [by apply add_nonneg|done].
Qed.

Lemma max_step a m b :
  (0 <=? m) = true -> (b <=? a) = true -> is_nan (Math.max (a - m) b) = false ->
  (Math.max (a - m) b <=? a) = true
  /\ (a - m <=? Math.max (a - m) b) = true
  /\ (b <=? Math.max (a - m) b) = true.
Proof.
  intros Hm Hab Hn. destruct (max_nan _ _ Hn) as [Hs Hb].
  split; [|split; [by apply max_leb_l|by apply max_leb]].
  destruct (max_cases (a - m) b Hb) as [-> | ->]; [by apply sub_nonneg|done].
Qed.

Lemma is_finite_spec a : is_finite a = true -> SFfinite (Prim2SF a).
Proof.
  unfold is_finite, is_nan, is_infinity.
  rewrite !FloatAxioms.eqb_spec, abs_spec.
  change (Prim2SF infinity) with (S754_infinity false).
  by destruct (Prim2SF a) as [?|[]| |].
Qed.

(** The rounded difference is on the same side of a number as the
    exact difference. *)
Lemma sub_round_ge r a b sr mr er :
  Prim2SF r = S754_finite sr mr er ->
  is_finite a = true -> is_finite b = true ->
  (exactValue r <= exactValue a - exactValue b)%Z ->
  (r <=? a - b) = true.
Proof.
  unfold exactValue. intros Er Fa%is_finite_spec Fb%is_finite_spec Hle.
  rewrite FloatAxioms.leb_spec, sub_spec.
  pose proof (Prim2SF_valid r) as Hr. rewrite Er in *.
  apply SFsub_round_ge; try done; apply Prim2SF_valid.
Qed.

Lemma sub_round_le r a b sr mr er :
  Prim2SF r = S754_finite sr mr er ->
  is_finite a = true -> is_finite b = true ->
  (exactValue a - exactValue b <= exactValue r)%Z ->
  (a - b <=? r) = true.
Proof.
  unfold exactValue. intros Er Fa%is_finite_spec Fb%is_finite_spec Hle.
  rewrite FloatAxioms.leb_spec, sub_spec.
  pose proof (Prim2SF_valid r) as Hr. rewrite Er in *.
  apply SFsub_round_le; try done; apply Prim2SF_valid.
Qed.

Lemma exactValue_200 : exactValue 200 = (200 * 2 ^ 1074)%Z.
Proof. by vm_compute. Qed.

Lemma exactValue_minus_200 : exactValue (-200) = (- (200 * 2 ^ 1074))%Z.
Proof. by vm_compute. Qed.

(** A difference below 200 in doubles is below 200 exactly, and an
    exact difference below 200 is at most 200 in doubles. *)
Lemma sub_ltb_200 a b :
  is_finite a = true -> is_finite b = true ->
  ((a - b <? 200) = true -> (exactValue a - exactValue b < 200 * 2 ^ 1074)%Z)
  /\ ((-200 <? a - b) = true -> (- (200 * 2 ^ 1074) < exactValue a - exactValue b)%Z)
  /\ ((exactValue a - exactValue b <= 200 * 2 ^ 1074)%Z -> (a - b <=? 200) = true)
  /\ ((- (200 * 2 ^ 1074) <= exactValue a - exactValue b)%Z -> (-200 <=? a - b) = true).
Proof.
  intros Fa Fb. rewrite <- exactValue_minus_200, <- exactValue_200. split_and!.
  - intros Hlt.
    destruct (Z.lt_ge_cases (exactValue a - exactValue b) (exactValue 200)) as [|Hge];
      [done|].
    pose proof (sub_round_ge 200 a b _ _ _ eq_refl Fa Fb Hge) as Hle.
    apply leb_ltb in Hle. congruence.
  - intros Hlt.
    destruct (Z.lt_ge_cases (exactValue (-200)) (exactValue a - exactValue b)) as [|Hge];
      [done|].
    pose proof (sub_round_le (-200) a b _ _ _ eq_refl Fa Fb Hge) as Hle.
    apply leb_ltb in Hle. congruence.
  - by apply (sub_round_le 200 a b _ _ _ eq_refl).
  - by apply (sub_round_ge (-200) a b _ _ _ eq_refl).
Qed.
End NumberSumFacts.

(** ** Arrays *)

Section ArrayFacts.
Context {A : Type} `{EqDecision A}.
Implicit Types (l : list A) (v : A).

Lemma indexOf_absent l v : v ∉ l -> Array.indexOf l v = (-1)%Z.
Proof.
  intros Hv. unfold Array.indexOf.
  destruct (list_find (fun a => a = v) l) as [[i a]|] eqn:E; [|done].
  apply list_find_Some in E as (Hi & -> & _).
  exfalso. apply Hv. by eapply list_elem_of_lookup_2.
Qed.

Lemma indexOf_present l v : v ∈ l ->
  exists i, Array.indexOf l v = Z.of_nat i /\ l !! i = Some v
            /\ forall j, j < i -> l !! j <> Some v.
Proof.
  intros Hv. unfold Array.indexOf.
  destruct (list_find (fun a => a = v) l) as [[i a]|] eqn:E.
  - apply list_find_Some in E as (Hi & -> & Hfirst).
    exists i. split_and!; [done..|]. intros j Hj Hl. by eapply Hfirst.
  - apply list_find_None in E. rewrite Forall_forall in E. by destruct (E v Hv).
Qed.

Lemma indexOf_first l v i :
  l !! i = Some v -> (forall j, j < i -> l !! j <> Some v) ->
  Array.indexOf l v = Z.of_nat i.
Proof.
  intros Hi Hfirst.
  destruct (indexOf_present l v) as (k & -> & Hk & Hmin).
  { by eapply list_elem_of_lookup_2. }
  f_equal. destruct (Nat.lt_trichotomy k i) as [Hlt|[->|Hgt]]; [|done|].
  - by destruct (Hfirst k Hlt).
  - by destruct (Hmin i Hgt).
Qed.

Lemma indexOf_negative l v : (Array.indexOf l v =? -1)%Z = bool_decide (v ∉ l).
Proof.
  case_bool_decide as Hv.
  - rewrite indexOf_absent; done.
  - destruct (indexOf_present l v Hv) as (i & -> & _).
    apply Z.eqb_neq. lia.
Qed.

Lemma splice_replace l i v :
  i < length l -> Array.splice l (Z.of_nat i) 1 [v] = <[i := v]> l.
Proof.
  intros Hi. unfold Array.splice.
  destruct (Z.ltb_spec (Z.of_nat i) 0); [lia|].
  rewrite Z.min_l by lia. rewrite Z.max_l by lia. rewrite Z.min_l by lia.
  rewrite Nat2Z.id. change (Z.to_nat 1) with 1. rewrite Nat.add_1_r.
  by rewrite insert_take_drop.
Qed.

Lemma splice_remove l i :
  i < length l -> Array.splice l (Z.of_nat i) 1 [] = delete i l.
Proof.
  intros Hi. unfold Array.splice.
  destruct (Z.ltb_spec (Z.of_nat i) 0); [lia|].
  rewrite Z.min_l by lia. rewrite Z.max_l by lia. rewrite Z.min_l by lia.
  rewrite Nat2Z.id. change (Z.to_nat 1) with 1. rewrite Nat.add_1_r.
  by rewrite delete_take_drop.
Qed.

(** [l.splice(-1, 1)] deletes the final entry, and nothing of []. *)
Lemma splice_minus_one l :
  Array.splice l (-1) 1 [] = take (length l - 1) l.
Proof.
  unfold Array.splice. change (-1 <? 0)%Z with true. cbv iota.
  destruct l as [|a l]; [done|].
  rewrite Z.max_l by (simpl length; lia).
  rewrite (Z.max_l 1 0) by lia. rewrite Z.min_l by (simpl length; lia).
  replace (Z.to_nat (Z.of_nat (length (a :: l)) + -1)) with (length (a :: l) - 1)
    by (simpl length; lia).
  replace (length (a :: l) - 1 + Z.to_nat 1) with (length (a :: l))
    by (simpl length; lia).
  rewrite drop_all. simpl. by rewrite app_nil_r.
Qed.
End ArrayFacts.

(** ** The inventories of the player *)

Section InventoryFacts.
Context `{Hud, Loader, MaterialRegistry}.
Implicit Types (this : Player.t) (mat : option Material.t).

Lemma takeMaterial_full this mat isInitializing :
  isFull this = true ->
  takeMaterial mat isInitializing this
  = (Normal tt, this, [playSFX "bad-job-4"; toast "You can’t hold that many things."]).
Proof. intros Hfull. unfold takeMaterial. run. fold (isFull this). by rewrite Hfull. Qed.

Lemma takeMaterial_held this mat isInitializing :
  isFull this = false ->
  hasMaterial this mat = true ->
  takeMaterial mat isInitializing this
  = (Normal tt, this, [playSFX "bad-job-4"; toast "You’ve already got one of those."]).
Proof.
  intros Hroom Hheld. unfold takeMaterial. run. fold (isFull this).
  by rewrite Hroom, Hheld.
Qed.

(** An accepted material is appended; a value that is [undefined] is
    appended before its property read throws. *)
Lemma takeMaterial_new this mat isInitializing :
  isFull this = false ->
  hasMaterial this mat = false ->
  let r := takeMaterial mat isInitializing this in
  Player.heldMaterials (final r) = Player.heldMaterials this ++ [mat]
  /\ Player.materialInventorySize (final r) = Player.materialInventorySize this
  /\ Player.heldPuzzleObjects (final r) = Player.heldPuzzleObjects this
  /\ Player.x (final r) = Player.x this /\ Player.y (final r) = Player.y this
  /\ (forall m, mat = Some m -> status r = Normal tt).
Proof.
  intros Hroom Hheld. unfold takeMaterial. run. fold (isFull this).
  rewrite Hroom, Hheld. destruct isInitializing, mat; simpl; split_and!; try done.
Qed.

(** The three ways of [takeMaterial]: the list is as before, or the
    test of the capacity failed and the material is appended. *)
Lemma takeMaterial_cases this mat isInitializing :
  let r := takeMaterial mat isInitializing this in
  Player.materialInventorySize (final r) = Player.materialInventorySize this
  /\ (Player.heldMaterials (final r) = Player.heldMaterials this
      \/ (isFull this = false /\ hasMaterial this mat = false
          /\ Player.heldMaterials (final r) = Player.heldMaterials this ++ [mat])).
Proof.
  destruct (isFull this) eqn:Hfull.
  - rewrite takeMaterial_full by done. split; [done|by left].
  - destruct (hasMaterial this mat) eqn:Hheld.
    + rewrite takeMaterial_held by done. split; [done|by left].
    + destruct (takeMaterial_new this mat isInitializing Hfull Hheld)
        as (Hm & Hs & _).
      split; [done|]. by right.
Qed.

Lemma toNumber_full c n :
  (Z.of_nat c < 2 ^ 53)%Z -> n <= c ->
  (toNumber c <=? toNumber n)%float = bool_decide (n = c).
Proof.
  intros Hc Hn. rewrite toNumber_leb by lia.
  case_bool_decide as E.
  - subst n. by apply Nat.leb_le.
  - apply Nat.leb_gt. lia.
Qed.

(** For a capacity that is a whole number, a count within the capacity
    stays within it. *)
Lemma takeMaterial_whole_capacity (c : nat) this mat isInitializing :
  (Z.of_nat c < 2 ^ 53)%Z ->
  Player.materialInventorySize this = toNumber c ->
  length (Player.heldMaterials this) <= c ->
  length (Player.heldMaterials (final (takeMaterial mat isInitializing this))) <= c.
Proof.
  intros Hc Hcap Hle.
  destruct (takeMaterial_cases this mat isInitializing) as [_ [->|(Hroom & _ & ->)]];
    [done|].
  rewrite length_app. simpl.
  unfold isFull in Hroom. rewrite Hcap, toNumber_full in Hroom by done.
  apply bool_decide_eq_false in Hroom. lia.
Qed.

Lemma forOf_invariant {S X} (I : S -> Prop) (body : X -> M S unit) (l : list X) :
  (forall v st, I st -> I (final (body v st))) ->
  forall st, I st -> I (final (forOf l body st)).
Proof.
  intros Hbody. induction l as [|v l IH]; intros st Hst; [done|].
  simpl. unfold bind. specialize (Hbody v st Hst).
  destruct (body v st) as [[[[]|e] st1] evs]; [|done].
  specialize (IH st1 Hbody). by destruct (forOf l body st1) as [[c st2] evs'].
Qed.

Lemma takeMaterial_size this mat isInitializing :
  Player.materialInventorySize (final (takeMaterial mat isInitializing this))
  = Player.materialInventorySize this.
Proof. apply takeMaterial_cases. Qed.

Lemma takeMaterials_size attempts this :
  Player.materialInventorySize (takeMaterials attempts this)
  = Player.materialInventorySize this.
Proof.
  revert this. induction attempts as [|[mat b] attempts IH]; intros this; [done|].
  simpl. by rewrite IH, takeMaterial_size.
Qed.

Lemma takeMaterials_whole_capacity (c : nat) attempts this :
  (Z.of_nat c < 2 ^ 53)%Z ->
  Player.materialInventorySize this = toNumber c ->
  length (Player.heldMaterials this) <= c ->
  length (Player.heldMaterials (takeMaterials attempts this)) <= c.
Proof.
  intros Hc. revert this.
  induction attempts as [|[mat b] attempts IH]; intros this Hcap Hle; [done|].
  simpl. apply IH.
  - by rewrite takeMaterial_size.
  - by apply takeMaterial_whole_capacity.
Qed.

(** C3, as the code has it: a [takeMaterial] call never changes the
    capacity and appends at most the material it is given, and only
    when the test [length >= materialInventorySize] fails; a call made
    when the test holds, as when the list has [materialInventorySize]
    elements, is rejected and leaves the player, hence the list, as it
    was.  So for a capacity that is a whole number [c], a player who
    holds at most [c] materials holds at most [c], and is within
    capacity, after any sequence of [takeMaterial] calls. *)
Theorem takeMaterial_capacity this :
  (forall attempts,
      Player.materialInventorySize (takeMaterials attempts this)
      = Player.materialInventorySize this)
  /\ (forall mat isInitializing,
        let r := takeMaterial mat isInitializing this in
        Player.heldMaterials (final r) = Player.heldMaterials this
        \/ (isFull this = false
            /\ Player.heldMaterials (final r) = Player.heldMaterials this ++ [mat]))
  /\ ((toNumber (length (Player.heldMaterials this))
       =? Player.materialInventorySize this)%float = true ->
      isFull this = true)
  /\ (forall mat isInitializing,
        isFull this = true ->
        let r := takeMaterial mat isInitializing this in
        status r = Normal tt /\ final r = this
        /\ Player.heldMaterials (final r) = Player.heldMaterials this)
  /\ (forall c : nat,
        (Z.of_nat c < 2 ^ 53)%Z ->
        Player.materialInventorySize this = toNumber c ->
        length (Player.heldMaterials this) <= c ->
        forall attempts,
          length (Player.heldMaterials (takeMaterials attempts this)) <= c
          /\ withinCapacity (takeMaterials attempts this)).
Proof.
  split_and!.
  - intros attempts. apply takeMaterials_size.
  - intros mat b r. subst r.
    destruct (takeMaterial_cases this mat b) as [_ [?|(? & _ & ?)]]; [by left|by right].
  - intros Heq. apply eqb_leb in Heq. apply Heq.
  - intros mat b Hfull r. subst r. by rewrite takeMaterial_full.
  - intros c Hc Hcap Hle attempts.
    pose proof (takeMaterials_whole_capacity c attempts this Hc Hcap Hle) as Hfit.
    split; [done|]. unfold withinCapacity.
    rewrite takeMaterials_size, Hcap, toNumber_leb by lia.
    by apply Nat.leb_le.
Qed.

(** C4: [takeMaterial(m)] for a material [m] that is already held
    returns without appending: the player, hence the held-materials
    list and its length, is unchanged, and the only effect is the
    negative cue with a message. *)
Theorem takeMaterial_duplicate_rejected this mat isInitializing :
  hasMaterial this mat = true ->
  let r := takeMaterial mat isInitializing this in
  status r = Normal tt
  /\ final r = this
  /\ Player.heldMaterials (final r) = Player.heldMaterials this
  /\ length (Player.heldMaterials (final r)) = length (Player.heldMaterials this)
  /\ exists message, calls r = [playSFX "bad-job-4"; toast message].
Proof.
  intros Hheld r. subst r.
  destruct (isFull this) eqn:Hfull.
  - rewrite takeMaterial_full by done. split_and!; try done. by eexists.
  - rewrite takeMaterial_held by done. split_and!; try done. by eexists.
Qed.

Lemma takePuzzleObject_defined this (obj : PuzzleObject.t) (isInitializing : bool) :
  let r := takePuzzleObject (Some obj) isInitializing this in
  status r = Normal tt
  /\ Player.heldPuzzleObjects (final r) = Player.heldPuzzleObjects this ++ [Some obj]
  /\ Player.heldMaterials (final r) = Player.heldMaterials this
  /\ Player.materialInventorySize (final r) = Player.materialInventorySize this.
Proof. unfold takePuzzleObject. run. by destruct isInitializing. Qed.

(** C5: [takePuzzleObject(o, b)] appends [o] whatever the player
    holds: no capacity check, no duplicate check, and the list is one
    longer. *)
Theorem takePuzzleObject_appends this (obj : PuzzleObject.t) (isInitializing : bool) :
  let r := takePuzzleObject (Some obj) isInitializing this in
  status r = Normal tt
  /\ Player.heldPuzzleObjects (final r) = Player.heldPuzzleObjects this ++ [Some obj]
  /\ length (Player.heldPuzzleObjects (final r))
     = S (length (Player.heldPuzzleObjects this))
  /\ Player.heldMaterials (final r) = Player.heldMaterials this.
Proof.
  destruct (takePuzzleObject_defined this obj isInitializing) as (Hst & Hheld & Hmats & _).
  split_and!; try done.
  rewrite Hheld, length_app. simpl. lia.
Qed.

(** C10: when the held-puzzle-objects list does not contain [o],
    [tossPuzzleObject(o)] deletes the final entry of the list
    ([indexOf] is -1 and [splice(-1, 1)] counts from the end), so a
    non-empty list shrinks by one; an empty list stays empty. *)
Theorem tossPuzzleObject_absent this (obj : PuzzleObject.t) :
  Some obj ∉ Player.heldPuzzleObjects this ->
  let r := tossPuzzleObject obj this in
  status r = Normal tt
  /\ Array.indexOf (Player.heldPuzzleObjects this) (Some obj) = (-1)%Z
  /\ (forall init last, Player.heldPuzzleObjects this = init ++ [last] ->
        Player.heldPuzzleObjects (final r) = init)
  /\ (Player.heldPuzzleObjects this <> [] ->
        S (length (Player.heldPuzzleObjects (final r)))
        = length (Player.heldPuzzleObjects this))
  /\ (Player.heldPuzzleObjects this = [] -> Player.heldPuzzleObjects (final r) = []).
Proof.
  intros Habsent. unfold tossPuzzleObject. run.
  rewrite (indexOf_absent _ _ Habsent), splice_minus_one.
  split_and!; try done.
  - intros init last ->. rewrite length_app. simpl.
    replace (length init + 1 - 1) with (length init) by lia.
    by rewrite take_app_length.
  - intros Hne. rewrite length_take.
    destruct (Player.heldPuzzleObjects this); [done|]. simpl. lia.
  - by intros ->.
Qed.
End InventoryFacts.

(** ** Reach and movement *)

Section MovementFacts.
Context `{Hud, Loader}.
Implicit Types (this : Player.t).
Open Scope float_scope.

Lemma set_x_same this : Player.set_x (Player.x this) this = this.
Proof. by destruct this. Qed.

Lemma canReach_infinite this px py :
  is_infinity px = true \/ is_infinity (Player.x this) = true ->
  canReach this px py = false.
Proof.
  unfold canReach, Math.abs, is_infinity.
  rewrite FloatAxioms.ltb_spec, !FloatAxioms.eqb_spec, !abs_spec, FloatAxioms.sub_spec.
  change (Prim2SF infinity) with (S754_infinity false).
  change (Prim2SF 200) with (S754_finite false 7036874417766400 (-45)).
  destruct (Prim2SF px) as [[]|[]| |[] ? ?],
           (Prim2SF (Player.x this)) as [[]|[]| |[] ? ?];
    intros [?|?]; done.
Qed.

(** C7: [canReach(x, y)] is true exactly when the horizontal distance,
    as the code computes it, is strictly less than 200: when the
    difference [x - this.x], the double the subtraction rounds to, is
    strictly between -200 and 200.  [y] plays no part, and the answer
    is false when an abscissa is NaN or infinite.  For finite
    abscissas the answer follows the exact distance but for the
    rounding: within reach, the exact distance is below 200; and an
    exact distance below 200 is within reach unless the difference
    rounds to 200 or to -200. *)
Theorem canReach_iff this px py :
  let d := px - Player.x this in
  (canReach this px py = true <-> (Math.abs d <? 200) = true)
  /\ (canReach this px py = true <-> (-200 <? d) = true /\ (d <? 200) = true)
  /\ (forall py', canReach this px py' = canReach this px py)
  /\ (is_nan px = true \/ is_nan (Player.x this) = true -> canReach this px py = false)
  /\ (is_infinity px = true \/ is_infinity (Player.x this) = true ->
      canReach this px py = false)
  /\ (is_finite px = true -> is_finite (Player.x this) = true ->
      let distance := Z.abs (exactValue px - exactValue (Player.x this)) in
      (canReach this px py = true -> (distance < 200 * 2 ^ 1074)%Z)
      /\ ((distance < 200 * 2 ^ 1074)%Z ->
          canReach this px py = true \/ (d =? 200) = true \/ (d =? -200) = true)).
Proof.
  intros d.
  assert (Hiff : canReach this px py = true <-> (-200 <? d) = true /\ (d <? 200) = true).
  { unfold canReach, Math.abs. fold d. rewrite abs_ltb_200. apply andb_true_iff. }
  split_and!; [done|done|done| |apply canReach_infinite|].
  - intros Hnan%sub_nan. fold d in Hnan.
    destruct (canReach this px py) eqn:Hr; [|done].
    destruct (proj1 Hiff eq_refl) as [_ Hlt].
    apply ltb_not_nan in Hlt as [Hd _]. congruence.
  - intros Fx Ft distance. subst distance.
    destruct (sub_ltb_200 px (Player.x this) Fx Ft) as (Hlt & Hgt & Hle & Hge).
    fold d in Hlt, Hgt, Hle, Hge. split.
    + intros [H1 H2]%Hiff. specialize (Hlt H2). specialize (Hgt H1). lia.
    + intros Hdist.
      specialize (Hle ltac:(lia)). specialize (Hge ltac:(lia)).
      destruct (leb_not_nan _ _ Hle) as [Hd _].
      destruct (d <? 200) eqn:E1; [destruct (-200 <? d) eqn:E2|].
      * left. by apply Hiff.
      * right. right. apply eqb_leb. split; [|done].
        by apply ltb_total.
      * right. left. apply eqb_leb. split; [done|].
        by apply ltb_total.
Qed.

Lemma tick_final this dt :
  final (tick dt this)
  = if Player.targetX this <? Player.x this then
      Player.set_x (Math.max (Player.x this - 500 * dt) (Player.targetX this)) this
    else if Player.x this <? Player.targetX this then
      Player.set_x (Math.min (Player.x this + 500 * dt) (Player.targetX this)) this
    else this.
Proof.
  unfold tick, bind, get, modify, ret, final.
  destruct (Player.targetX this <? Player.x this); [done|].
  by destruct (Player.x this <? Player.targetX this).
Qed.


Lemma tick_targetX this dt :
  Player.targetX (final (tick dt this)) = Player.targetX this.
Proof.
  rewrite tick_final.
  destruct (Player.targetX this <? Player.x this); [done|].
  by destruct (Player.x this <? Player.targetX this).
Qed.

Lemma tick_only_x this dt :
  final (tick dt this) = Player.set_x (Player.x (final (tick dt this))) this.
Proof.
  rewrite tick_final.
  destruct (Player.targetX this <? Player.x this); [done|].
  destruct (Player.x this <? Player.targetX this); [done|].
  by rewrite set_x_same.
Qed.

(** A player on [targetX] is left as it is. *)
Lemma tick_at_target this dt :
  (Player.x this =? Player.targetX this) = true -> final (tick dt this) = this.
Proof.
  intros [H1 H2]%eqb_leb. rewrite tick_final.
  by rewrite (leb_ltb _ _ H1), (leb_ltb _ _ H2).
Qed.

(** [tick] does not undo a NaN. *)
Lemma tick_nan this dt :
  is_nan (Player.x (final (tick dt this))) = false -> is_nan (Player.x this) = false.
Proof.
  rewrite tick_final.
  destruct (Player.targetX this <? Player.x this) eqn:Hgt;
    [by destruct (ltb_not_nan _ _ Hgt)|].
  destruct (Player.x this <? Player.targetX this) eqn:Hlt;
    [by destruct (ltb_not_nan _ _ Hlt)|done].
Qed.

(** With [dt >= 0], a frame takes a player who is not right of
    [targetX] no further left and not past [targetX]. *)
Lemma tick_forward this dt :
  (0 <=? dt) = true ->
  is_nan (Player.x (final (tick dt this))) = false ->
  (Player.x this <=? Player.targetX this) = true ->
  (Player.x this <=? Player.x (final (tick dt this))) = true
  /\ (Player.x (final (tick dt this)) <=? Player.targetX this) = true.
Proof.
  intros Hdt Hn Hle. rewrite tick_final in *.
  rewrite (leb_ltb _ _ Hle) in *.
  destruct (Player.x this <? Player.targetX this) eqn:Hlt;
    cbn [Player.x Player.set_x] in *.
  - destruct (min_step _ _ _ (mul_500_nonneg dt Hdt) Hle Hn) as (? & _ & ?). done.
  - split; [by apply leb_refl|done].
Qed.

Lemma tick_backward this dt :
  (0 <=? dt) = true ->
  is_nan (Player.x (final (tick dt this))) = false ->
  (Player.targetX this <=? Player.x this) = true ->
  (Player.targetX this <=? Player.x (final (tick dt this))) = true
  /\ (Player.x (final (tick dt this)) <=? Player.x this) = true.
Proof.
  intros Hdt Hn Hle. rewrite tick_final in *.
  destruct (Player.targetX this <? Player.x this) eqn:Hgt;
    cbn [Player.x Player.set_x] in *.
  - destruct (max_step _ _ _ (mul_500_nonneg dt Hdt) Hle Hn) as (? & _ & ?). done.
  - rewrite (leb_ltb _ _ Hle) in *. split; [done|by apply leb_refl].
Qed.

Lemma ticks_S n dt this : ticks (S n) dt this = final (tick dt (ticks n dt this)).
Proof. done. Qed.

Lemma ticks_targetX n dt this : Player.targetX (ticks n dt this) = Player.targetX this.
Proof.
  induction n as [|n IH]; [done|]. by rewrite ticks_S, tick_targetX.
Qed.

Lemma ticks_only_x n dt this :
  ticks n dt this = Player.set_x (Player.x (ticks n dt this)) this.
Proof.
  induction n as [|n IH].
  - change (ticks 0 dt this) with this. by rewrite set_x_same.
  - rewrite ticks_S, tick_only_x. rewrite IH at 2. done.
Qed.

Lemma ticks_nan n dt this :
  is_nan (Player.x (ticks n dt this)) = false -> is_nan (Player.x this) = false.
Proof.
  induction n as [|n IH]; [done|]. rewrite ticks_S. intros Hn%tick_nan. auto.
Qed.

(** With [dt >= 0] the frames never carry the player past
    [targetX], nor back. *)
Lemma ticks_forward n dt this :
  (0 <=? dt) = true ->
  is_nan (Player.x (ticks n dt this)) = false ->
  (Player.x this <=? Player.targetX this) = true ->
  (Player.x this <=? Player.x (ticks n dt this)) = true
  /\ (Player.x (ticks n dt this) <=? Player.targetX this) = true.
Proof.
  intros Hdt. induction n as [|n IH]; intros Hn Hle.
  - split; [by apply leb_refl|done].
  - rewrite ticks_S in *.
    destruct (IH (tick_nan _ _ Hn) Hle) as [H1 H2].
    rewrite <- (ticks_targetX n dt this) in H2.
    destruct (tick_forward _ dt Hdt Hn H2) as [H3 H4].
    rewrite ticks_targetX in H4. split; [|done]. by eapply leb_trans.
Qed.

Lemma ticks_backward n dt this :
  (0 <=? dt) = true ->
  is_nan (Player.x (ticks n dt this)) = false ->
  (Player.targetX this <=? Player.x this) = true ->
  (Player.targetX this <=? Player.x (ticks n dt this)) = true
  /\ (Player.x (ticks n dt this) <=? Player.x this) = true.
Proof.
  intros Hdt. induction n as [|n IH]; intros Hn Hle.
  - split; [done|by apply leb_refl].
  - rewrite ticks_S in *.
    destruct (IH (tick_nan _ _ Hn) Hle) as [H1 H2].
    rewrite <- (ticks_targetX n dt this) in H1.
    destruct (tick_backward _ dt Hdt Hn H1) as [H3 H4].
    rewrite ticks_targetX in H3. split; [done|]. by eapply leb_trans.
Qed.

End MovementFacts.

(** ** Registries and reverse lookup *)

Section RegistryFacts.
Context {A : Type} `{EqDecision A}.
Implicit Types (reg : registry A) (v : option A) (k : string) (o : A).

Lemma entryOf_Some reg v k o :
  entryOf reg v = Some (k, o) -> v = Some o /\ (k, o) ∈ reg.
Proof.
  unfold entryOf. intros E.
  destruct (list_find (fun e => Some e.2 = v) reg) as [[i e]|] eqn:F; [|done].
  simpl in E. injection E as ->.
  apply list_find_Some in F as (Hi & Hv & _). simpl in Hv.
  split; [done|]. by eapply list_elem_of_lookup_2.
Qed.

Lemma entryOf_None reg v : entryOf reg v = None <-> ~ registered reg v.
Proof.
  unfold entryOf, registered. split.
  - intros E (k & o & -> & Hin).
    destruct (list_find (fun e => Some e.2 = Some o) reg) eqn:F; [done|].
    apply list_find_None in F. rewrite Forall_forall in F.
    by apply (F _ Hin).
  - intros Hno.
    destruct (list_find (fun e => Some e.2 = v) reg) as [[i [k o]]|] eqn:F; [|done].
    apply list_find_Some in F as (Hi & Hv & _). simpl in Hv.
    destruct Hno. exists k, o. split; [done|]. by eapply list_elem_of_lookup_2.
Qed.

Lemma entryOf_registered reg v :
  registered reg v -> exists k o, entryOf reg v = Some (k, o).
Proof.
  intros Hreg. destruct (entryOf reg v) as [[k o]|] eqn:E; [by eauto|].
  by apply entryOf_None in E.
Qed.

Lemma lookupKey_None reg k : lookupKey reg k = None <-> k ∉ reg.*1.
Proof.
  unfold lookupKey. split.
  - intros E Hin.
    destruct (list_find (fun e => e.1 = k) reg) eqn:F; [done|].
    apply list_find_None in F. rewrite Forall_forall in F.
    apply list_elem_of_fmap in Hin as (e & -> & He). by apply (F _ He).
  - intros Hno.
    destruct (list_find (fun e => e.1 = k) reg) as [[i e]|] eqn:F; [|done].
    apply list_find_Some in F as (Hi & <- & _).
    destruct Hno. apply list_elem_of_fmap. exists e. split; [done|].
    by eapply list_elem_of_lookup_2.
Qed.

Lemma lookupKey_Some reg k o : lookupKey reg k = Some o -> (k, o) ∈ reg.
Proof.
  unfold lookupKey. intros E.
  destruct (list_find (fun e => e.1 = k) reg) as [[i [k' o']]|] eqn:F; [|done].
  simpl in E. injection E as ->.
  apply list_find_Some in F as (Hi & Hk & _). simpl in Hk. subst k'.
  by eapply list_elem_of_lookup_2.
Qed.

(** The keys of an object are distinct: the key found for a definition
    leads back to that definition. *)
Lemma lookupKey_entryOf reg v k o :
  NoDup reg.*1 -> entryOf reg v = Some (k, o) -> lookupKey reg k = v.
Proof.
  intros Hkeys E. unfold entryOf in E.
  destruct (list_find (fun e => Some e.2 = v) reg) as [[i e]|] eqn:F; [|done].
  simpl in E. injection E as ->.
  apply list_find_Some in F as (Hi & Hv & _). simpl in Hv. subst v.
  unfold lookupKey.
  destruct (list_find (fun e => e.1 = k) reg) as [[j [k' o']]|] eqn:G.
  - apply list_find_Some in G as (Hj & Hk & _). simpl in Hk. subst k'. simpl.
    assert (j = i) as ->; [|congruence].
    eapply NoDup_lookup; [done| |].
    + rewrite list_lookup_fmap, Hj. done.
    + rewrite list_lookup_fmap, Hi. done.
  - apply list_find_None in G. rewrite Forall_forall in G.
    destruct (G (k, o)); [|done]. by eapply list_elem_of_lookup_2.
Qed.

Section ReverseLookup.
Variables (reg : registry A) (getType : option A -> completion string).
Hypothesis getType_spec : reverseLookupOf reg getType.

Lemma getType_throws v : throws (getType v) <-> ~ registered reg v.
Proof.
  rewrite <- entryOf_None. specialize (getType_spec v).
  destruct (entryOf reg v); [|done].
  rewrite getType_spec. done.
Qed.

Lemma getType_registered v :
  registered reg v ->
  exists k o, v = Some o /\ (k, o) ∈ reg /\ getType v = Normal k
              /\ (NoDup reg.*1 -> lookupKey reg k = v).
Proof.
  intros (k & o & E)%entryOf_registered.
  pose proof (getType_spec v) as Hspec. rewrite E in Hspec.
  pose proof (entryOf_Some _ _ _ _ E) as [-> Hin].
  exists k, o. split_and!; try done.
  intros Hkeys. by eapply lookupKey_entryOf.
Qed.

Lemma getType_Normal v k :
  getType v = Normal k -> exists o, v = Some o /\ (k, o) ∈ reg.
Proof.
  intros E. pose proof (getType_spec v) as Hspec.
  destruct (entryOf reg v) as [[k' o]|] eqn:F.
  - simpl in Hspec. rewrite Hspec in E. injection E as ->.
    apply entryOf_Some in F as [-> Hin]. eauto.
  - by rewrite E in Hspec.
Qed.

(** [l.map(getType)] on registered definitions: the keys, which lead
    back to the definitions. *)
Lemma map_getType_registered (l : list (option A)) :
  Forall (registered reg) l ->
  exists keys, Array.map getType l = Normal keys
               /\ length keys = length l
               /\ (NoDup reg.*1 -> lookupKey reg <$> keys = l).
Proof.
  induction 1 as [|v l Hv Hl (keys & E & Hlen & Hback)].
  - by exists [].
  - destruct (getType_registered v Hv) as (k & o & -> & _ & Ek & Hk).
    exists (k :: keys). simpl. rewrite Ek. simpl. rewrite E. simpl.
    split_and!; [done|by rewrite Hlen|].
    intros Hkeys. f_equal; [by apply Hk | by apply Hback].
Qed.

(** [l.find(o => getType(o) === ty)] on registered definitions: the
    first element of type [ty]. *)
Lemma find_hasType_registered (ty : string) (l : list (option A)) :
  Forall (registered reg) l ->
  exists r, Array.find (hasType getType ty) l = Normal r /\
    match r with
    | Some v =>
        exists i o, v = Some o /\ l !! i = Some v /\ getType v = Normal ty
          /\ forall j w, j < i -> l !! j = Some w -> getType w <> Normal ty
    | None => forall w, w ∈ l -> getType w <> Normal ty
    end.
Proof.
  induction 1 as [|v l Hv Hl (r & E & Hr)].
  - exists None. split; [done|]. intros w Hw. by apply elem_of_nil in Hw.
  - destruct (getType_registered v Hv) as (k & o & -> & _ & Ek & _).
    simpl. unfold hasType at 1. rewrite Ek. simpl.
    case_bool_decide as Hk.
    + subst k. exists (Some (Some o)). split; [done|].
      exists 0, o. split_and!; try done. intros j w Hj. lia.
    + exists r. split; [done|]. destruct r as [v|].
      * destruct Hr as (i & o' & -> & Hi & Hty & Hfirst).
        exists (S i), o'. split_and!; try done.
        intros [|j] w Hj Hw.
        -- simpl in Hw. injection Hw as <-. rewrite Ek. congruence.
        -- simpl in Hw. eapply Hfirst; [|done]. lia.
      * intros w [->|Hw]%elem_of_cons; [|by apply Hr].
        rewrite Ek. congruence.
Qed.
End ReverseLookup.
End RegistryFacts.

Lemma getPuzzleObjectType_spec : reverseLookupOf puzzleObjects getPuzzleObjectType.
Proof. intros v. unfold getPuzzleObjectType. by destruct (entryOf puzzleObjects v). Qed.

Lemma puzzleObjects_keys : NoDup puzzleObjects.*1.
Proof. apply (bool_decide_unpack _). by vm_compute. Qed.

(** *** Lookup in [puzzleObjects] *)

Lemma puzzleObjectAt_own k :
  is_Some (lookupKey puzzleObjects k) -> puzzleObjectAt k = lookupKey puzzleObjects k.
Proof. unfold puzzleObjectAt, getProperty. by intros [o ->]. Qed.

Lemma puzzleObjectAt_entry k o : (k, o) ∈ puzzleObjects -> puzzleObjectAt k = Some o.
Proof.
  intros Hin.
  assert (Hk : lookupKey puzzleObjects k = Some o).
  { destruct (lookupKey puzzleObjects k) as [o'|] eqn:E.
    - apply lookupKey_Some in E.
      pose proof puzzleObjects_keys as Hkeys.
      apply list_elem_of_lookup in E as (i & Hi).
      apply list_elem_of_lookup in Hin as (j & Hj).
      assert (i = j) as ->; [|congruence].
      eapply NoDup_lookup; [exact Hkeys| |].
      + rewrite list_lookup_fmap, Hi. done.
      + rewrite list_lookup_fmap, Hj. done.
    - apply lookupKey_None in E. destruct E.
      apply list_elem_of_fmap. by eexists (_, _). }
  rewrite puzzleObjectAt_own; [done|by rewrite Hk].
Qed.

Lemma puzzleObjectAt_inherited k :
  k ∉ puzzleObjects.*1 -> puzzleObjectAt k = lookupKey Object_prototype k.
Proof.
  intros Hk%lookupKey_None. unfold puzzleObjectAt, getProperty. by rewrite Hk.
Qed.

(** [puzzleObjects[k]] is [undefined] exactly when [k] names neither an
    entry of the object nor a property of [Object.prototype]. *)
Lemma puzzleObjectAt_None k :
  puzzleObjectAt k = None <-> (k ∉ puzzleObjects.*1) /\ (k ∉ Object_prototype.*1).
Proof.
  rewrite <- !lookupKey_None. unfold puzzleObjectAt, getProperty.
  destruct (lookupKey puzzleObjects k); split; try done; by intros [? ?].
Qed.

Lemma puzzleObjectAt_fmap (keys : list string) :
  Forall is_Some (lookupKey puzzleObjects <$> keys) ->
  puzzleObjectAt <$> keys = lookupKey puzzleObjects <$> keys.
Proof.
  induction keys as [|k keys IH]; [done|].
  rewrite !fmap_cons. intros [Hk Hkeys]%Forall_cons.
  by rewrite puzzleObjectAt_own, IH.
Qed.

(** What [puzzleObjects] inherits is none of its definitions. *)
Lemma inherited_not_registered k o :
  (k, o) ∈ Object_prototype -> ~ registered puzzleObjects (Some o).
Proof.
  intros Hin (k' & o' & [= <-] & Hin').
  assert (Hall : Forall (fun e => Forall (fun e' => e.2 <> e'.2) puzzleObjects)
                   Object_prototype).
  { apply (bool_decide_unpack _). by vm_compute. }
  rewrite Forall_forall in Hall. specialize (Hall _ Hin).
  rewrite Forall_forall in Hall. by apply (Hall _ Hin').
Qed.

(** ** Potions *)

Section PotionFacts.
Context `{Hud, Loader, MaterialRegistry}.
Implicit Types (this : Player.t) (potion : Potion).

(** C1, as the code has it: for a player whose held items are all
    definitions of the registries, if a held material has type
    [applyTo], [applyPotion] writes [materials[turnsInto]] into the
    first slot of that type, leaves every other slot and the puzzle
    objects as they were, whether or not a puzzle object matches, and
    returns true; the replaced instance is then no longer held when
    that slot was its only one and [materials[turnsInto]] is another
    instance.  If no held material and no held puzzle object has type
    [applyTo], it returns false and changes nothing. *)
Theorem applyPotion_transforms this potion :
  Forall (registered materials) (Player.heldMaterials this) ->
  Forall (registered puzzleObjects) (Player.heldPuzzleObjects this) ->
  let r := applyPotion potion this in
  let newMaterial := lookupKey materials (turnsInto potion) in
  ((exists v, v ∈ Player.heldMaterials this
              /\ getMaterialType v = Normal (applyTo potion)) ->
     exists i m,
       Player.heldMaterials this !! i = Some (Some m)
       /\ getMaterialType (Some m) = Normal (applyTo potion)
       /\ (forall j w, j < i -> Player.heldMaterials this !! j = Some w ->
                       getMaterialType w <> Normal (applyTo potion))
       /\ status r = Normal true
       /\ final r = Player.set_heldMaterials (fun l => <[i := newMaterial]> l) this
       /\ Player.heldMaterials (final r) !! i = Some newMaterial
       /\ (newMaterial <> Some m ->
           (forall j, Player.heldMaterials this !! j = Some (Some m) -> j = i) ->
           hasMaterial (final r) (Some m) = false))
  /\ ((forall v, v ∈ Player.heldMaterials this ->
                 getMaterialType v <> Normal (applyTo potion)) ->
      (forall v, v ∈ Player.heldPuzzleObjects this ->
                 getPuzzleObjectType v <> Normal (applyTo potion)) ->
      status r = Normal false /\ final r = this /\ calls r = []).
Proof.
  intros Hmats Hpos.
  destruct (find_hasType_registered materials getMaterialType getMaterialType_spec
              (applyTo potion) _ Hmats) as (rm & Em & Hrm).
  destruct (find_hasType_registered puzzleObjects getPuzzleObjectType
              getPuzzleObjectType_spec (applyTo potion) _ Hpos) as (rp & Ep & Hrp).
  unfold applyPotion. run. rewrite Em. simpl. rewrite Ep. simpl. split.
  - intros (v & Hv & Hty).
    destruct rm as [vm|]; [|by destruct (Hrm v Hv)].
    destruct Hrm as (i & m & -> & Hi & Htym & Hfirst).
    exists i, m. simpl.
    assert (Hidx : Array.indexOf (Player.heldMaterials this) (Some m) = Z.of_nat i).
    { apply indexOf_first; [done|]. intros j Hj Hl. by eapply Hfirst. }
    assert (Hlen : i < length (Player.heldMaterials this)) by by eapply lookup_lt_Some.
    unfold Player.set_heldMaterials. simpl.
    rewrite Hidx, splice_replace by done.
    split_and!; try done.
    + by apply list_lookup_insert_eq.
    + intros Hnew Honly. unfold hasMaterial. simpl.
      rewrite indexOf_negative. apply negb_false_iff, bool_decide_eq_true.
      intros (j & Hj)%list_elem_of_lookup.
      destruct (decide (j = i)) as [->|Hne].
      * rewrite list_lookup_insert_eq in Hj by done. congruence.
      * rewrite list_lookup_insert_ne in Hj by done. by apply Hne, Honly.
  - intros Hnm Hnp.
    destruct rm as [vm|].
    { destruct Hrm as (i & m & -> & Hi & Htym & _).
      destruct (Hnm (Some m)); [|done]. by eapply list_elem_of_lookup_2. }
    destruct rp as [vp|]; [|done].
    destruct Hrp as (i & o & -> & Hi & Htyo & _).
    destruct (Hnp (Some o)); [|done]. by eapply list_elem_of_lookup_2.
Qed.
End PotionFacts.

(** ** Saving and loading the player *)

Section SaveFacts.
Context `{Hud, Loader, MaterialRegistry}.
Implicit Types (this : Player.t).

(** Below a length that is within the capacity the inventory is not
    full. *)
Lemma below_capacity (n len : nat) (capacity : number) :
  arrayLength len -> n < len ->
  (toNumber len <=? capacity)%float = true ->
  (capacity <=? toNumber n)%float = false.
Proof.
  intros Hlen%arrayLength_53 Hn Hfit.
  assert (Hlt : (toNumber n <? toNumber len)%float = true).
  { rewrite toNumber_ltb by lia. by apply Nat.ltb_lt. }
  pose proof (ltb_leb_trans _ _ _ Hlt Hfit) as Hbelow.
  destruct (capacity <=? toNumber n)%float eqn:E; [|done].
  apply leb_ltb in E. congruence.
Qed.

Lemma takeMaterial_accepted this (m : Material.t) :
  isFull this = false ->
  Some m ∉ Player.heldMaterials this ->
  takeMaterial (Some m) true this
  = (Normal tt,
     Player.set_hotbar (addItem (materialItem m))
       (Player.set_heldMaterials (fun l => l ++ [Some m]) this),
     []).
Proof.
  intros Hroom Hnew. unfold takeMaterial. run. fold (isFull this). rewrite Hroom.
  unfold hasMaterial. rewrite indexOf_negative.
  by rewrite bool_decide_eq_true_2.
Qed.

(** The first loop of the constructor, on keys of definitions that are
    distinct and fit in the inventory. *)
Lemma forOf_takeMaterial (keys : list string) this :
  Forall is_Some (lookupKey materials <$> keys) ->
  NoDup (Player.heldMaterials this ++ (lookupKey materials <$> keys)) ->
  arrayLength (length (Player.heldMaterials this ++ (lookupKey materials <$> keys))) ->
  (toNumber (length (Player.heldMaterials this ++ (lookupKey materials <$> keys)))
   <=? Player.materialInventorySize this)%float = true ->
  exists hb,
    forOf keys (fun mat => takeMaterial (lookupKey materials mat) true) this
    = (Normal tt,
       Player.set_hotbar (fun _ => hb)
         (Player.set_heldMaterials
            (fun l => l ++ (lookupKey materials <$> keys)) this),
       []).
Proof.
  revert this. induction keys as [|k keys IH]; intros this Hdef Hnodup Hlen Hfit.
  - exists (Player.hotbar this). simpl. unfold ret.
    destruct this. unfold Player.set_hotbar, Player.set_heldMaterials. simpl.
    by rewrite app_nil_r.
  - rewrite fmap_cons in *. apply Forall_cons in Hdef as [[m Hm] Hdef].
    rewrite Hm in *.
    assert (Hnew : Some m ∉ Player.heldMaterials this).
    { apply NoDup_app in Hnodup as (_ & Hdisj & _).
      intros Hin. apply (Hdisj _ Hin). by left. }
    assert (Hroom : isFull this = false).
    { unfold isFull. eapply below_capacity; [exact Hlen| |exact Hfit].
      rewrite length_app. simpl. lia. }
    simpl. unfold bind at 1. rewrite Hm.
    rewrite takeMaterial_accepted by done.
    destruct (IH (Player.set_hotbar (addItem (materialItem m))
                    (Player.set_heldMaterials (fun l => l ++ [Some m]) this)))
      as (hb & ->).
    + done.
    + simpl. by rewrite <- app_assoc.
    + simpl. by rewrite <- app_assoc.
    + simpl. by rewrite <- app_assoc.
    + exists hb. unfold Player.set_hotbar, Player.set_heldMaterials. simpl.
      by rewrite <- app_assoc.
Qed.

(** The second loop of the constructor, on keys of definitions. *)
Lemma forOf_takePuzzleObject (keys : list string) this :
  Forall is_Some (puzzleObjectAt <$> keys) ->
  exists hb,
    forOf keys (fun po => takePuzzleObject (puzzleObjectAt po) true) this
    = (Normal tt,
       Player.set_hotbar (fun _ => hb)
         (Player.set_heldPuzzleObjects
            (fun l => l ++ (puzzleObjectAt <$> keys)) this),
       []).
Proof.
  revert this. induction keys as [|k keys IH]; intros this Hdef.
  - exists (Player.hotbar this). simpl. unfold ret.
    destruct this. unfold Player.set_hotbar, Player.set_heldPuzzleObjects. simpl.
    by rewrite app_nil_r.
  - rewrite fmap_cons in *. apply Forall_cons in Hdef as [[o Ho] Hdef].
    simpl. unfold bind at 1. rewrite Ho.
    unfold takePuzzleObject at 1. run.
    destruct (IH (Player.set_hotbar
                    (addItem
                       {| HotbarItem.imageUrl :=
                            nullish3 (PuzzleObject.inventoryImageUrl o)
                              (PuzzleObject.spawnerImageUrl o) PLACEHOLDER_IMAGE_URL;
                          HotbarItem.name := PuzzleObject.name o;
                          HotbarItem.onActivate := openPuzzleObjectWindow o |})
                    (Player.set_heldPuzzleObjects (fun l => l ++ [Some o]) this)))
      as (hb & E); [done|].
    unfold Player.set_hotbar, Player.set_heldPuzzleObjects in *. simpl in *.
    rewrite E. exists hb. simpl. by rewrite <- app_assoc.
Qed.

Lemma registered_is_Some {A} (reg : registry A) (l : list (option A)) :
  Forall (registered reg) l -> Forall is_Some l.
Proof.
  intros Hl. eapply Forall_impl; [exact Hl|].
  intros v (k & o & -> & _). by eexists.
Qed.

(** C2: for a player whose held items are definitions of the
    registries and whose materials are distinct and within capacity,
    [serialize()] returns a record from which the constructor (the
    [deserialize] path) builds a player with the same [x], [y],
    held materials, held puzzle objects and [materialInventorySize];
    the rebuilt player serializes to the same record, so the lists
    agree key by key, in order.  The held materials are a JavaScript
    array: its length is below 2^32, which is all [arrayLength] says,
    so that the length is the number it converts to. *)
Theorem serialize_deserialize this :
  Forall (registered materials) (Player.heldMaterials this) ->
  Forall (registered puzzleObjects) (Player.heldPuzzleObjects this) ->
  withinCapacity this ->
  NoDup (Player.heldMaterials this) ->
  arrayLength (length (Player.heldMaterials this)) ->
  exists data this',
    serialize this = Normal data
    /\ (deserialize data).1 = Normal this'
    /\ Player.x this' = Player.x this
    /\ Player.y this' = Player.y this
    /\ Player.heldMaterials this' = Player.heldMaterials this
    /\ Player.heldPuzzleObjects this' = Player.heldPuzzleObjects this
    /\ Player.materialInventorySize this' = Player.materialInventorySize this
    /\ serialize this' = Normal data.
Proof.
  intros Hmats Hpos Hfit Hnodup Hlen. unfold withinCapacity in Hfit.
  destruct (map_getType_registered materials getMaterialType getMaterialType_spec
              _ Hmats) as (mkeys & Em & _ & Hmback).
  destruct (map_getType_registered puzzleObjects getPuzzleObjectType
              getPuzzleObjectType_spec _ Hpos) as (pkeys & Ep & _ & Hpback).
  specialize (Hmback materials_keys). specialize (Hpback puzzleObjects_keys).
  set (data := {| PlayerData.x := Player.x this;
                  PlayerData.y := Player.y this;
                  PlayerData.heldMaterials := Some mkeys;
                  PlayerData.heldPuzzleObjects := Some pkeys;
                  PlayerData.materialInventorySize :=
                    Some (Player.materialInventorySize this) |}).
  assert (Eser : serialize this = Normal data).
  { unfold serialize. by rewrite Em, Ep. }
  assert (exists this', (deserialize data).1 = Normal this'
            /\ Player.x this' = Player.x this
            /\ Player.y this' = Player.y this
            /\ Player.heldMaterials this' = Player.heldMaterials this
            /\ Player.heldPuzzleObjects this' = Player.heldPuzzleObjects this
            /\ Player.materialInventorySize this' = Player.materialInventorySize this)
    as (this' & Ede & Ex & Ey & Ehm & Ehp & Esize).
  { unfold deserialize, newPlayer. simpl. unfold bind.
    match goal with
    | |- context [forOf mkeys ?f ?s] =>
        destruct (forOf_takeMaterial mkeys s) as (hb1 & E1)
    end.
    { rewrite Hmback. by eapply registered_is_Some. }
    { by rewrite Hmback. }
    { by rewrite Hmback. }
    { by rewrite Hmback. }
    rewrite E1.
    assert (Hown : puzzleObjectAt <$> pkeys = Player.heldPuzzleObjects this).
    { rewrite puzzleObjectAt_fmap; [done|].
      rewrite Hpback. by eapply registered_is_Some. }
    match goal with
    | |- context [forOf pkeys ?f ?s] =>
        destruct (forOf_takePuzzleObject pkeys s) as (hb2 & E2)
    end.
    { rewrite Hown. by eapply registered_is_Some. }
    rewrite E2. simpl. rewrite Hmback, Hown.
    eexists. split; [reflexivity|]. by simpl. }
  exists data, this'. split_and!; try done.
  unfold serialize. by rewrite Ex, Ey, Ehm, Ehp, Esize, Em, Ep.
Qed.
End SaveFacts.

(** ** The spawner and its room *)

Section SpawnerFacts.
Context `{Hud, Loader, MaterialRegistry, Fixtures}.
Implicit Types (s : PuzzleObjectSpawner.t) (w : World) (pl : loc) (p : Player.t).

Lemma playerOf_onPlayer {A} s w pl p (m : M Player.t A) :
  PuzzleObjectSpawner.playerOf s w = Some (pl, p) ->
  status (onPlayer pl m w) = status (m p)
  /\ PuzzleObjectSpawner.playerOf s (final (onPlayer pl m w)) = Some (pl, final (m p)).
Proof.
  unfold PuzzleObjectSpawner.playerOf, onPlayer. intros Hp.
  destruct (PuzzleObjectSpawner.room s) as [r|]; [|done].
  destruct (rooms w !! r) as [rm|] eqn:Hr; [|done].
  destruct (Room.player rm) as [pl'|] eqn:Hpl; [|done].
  destruct (players w !! pl') as [p'|] eqn:Hp'; [|done].
  simpl in Hp. injection Hp as -> ->. rewrite Hp'.
  destruct (m p) as [[c p1] evs]. unfold status, final. simpl.
  split; [done|]. by rewrite Hr, Hpl, lookup_insert_eq.
Qed.

Lemma hasPuzzleObject_iff p (obj : PuzzleObject.t) :
  hasPuzzleObject p obj = true <-> Some obj ∈ Player.heldPuzzleObjects p.
Proof.
  unfold hasPuzzleObject. rewrite indexOf_negative.
  rewrite negb_true_iff, bool_decide_eq_false. split.
  - intros Hnn. by destruct (decide (Some obj ∈ Player.heldPuzzleObjects p)).
  - intros Hin Hno. by apply Hno.
Qed.

(** C6, as the code has it: for a spawner bound to a room with a
    player, [isVisible()] is false exactly when the player holds the
    definition.  It is false after [take()], and stays false after any
    operation of the player that leaves the definition in the list of
    held puzzle objects; from a state in which the definition was not
    held, [take()] followed by [tossPuzzleObject] of the definition
    makes [isVisible()] true again. *)
Theorem isVisible_while_held s w pl p :
  PuzzleObjectSpawner.playerOf s w = Some (pl, p) ->
  let definition := PuzzleObjectSpawner.puzzleObject s in
  PuzzleObjectSpawner.isVisible s w = negb (hasPuzzleObject p definition)
  /\ (let r := PuzzleObjectSpawner.take s w in
      status r = Normal tt /\ PuzzleObjectSpawner.isVisible s (final r) = false)
  /\ (forall A (m : M Player.t A),
        hasPuzzleObject (final (m p)) definition = true ->
        PuzzleObjectSpawner.isVisible s (final (onPlayer pl m w)) = false)
  /\ (hasPuzzleObject p definition = false ->
      let r := onPlayer pl (tossPuzzleObject definition)
                 (final (PuzzleObjectSpawner.take s w)) in
      status r = Normal tt /\ PuzzleObjectSpawner.isVisible s (final r) = true).
Proof.
  intros Hp definition.
  assert (Htake : PuzzleObjectSpawner.take s w
                  = onPlayer pl (takePuzzleObject (Some definition) false) w).
  { unfold PuzzleObjectSpawner.take, bind, get. rewrite Hp.
    destruct (onPlayer pl _ w) as [[c w'] evs]. done. }
  pose proof (takePuzzleObject_defined p definition false)
    as (Hst & Hheld & _).
  destruct (playerOf_onPlayer s w pl p
              (takePuzzleObject (Some definition) false) Hp) as [Hst1 Hp1].
  split_and!.
  - unfold PuzzleObjectSpawner.isVisible. by rewrite Hp.
  - cbv zeta. rewrite Htake, Hst1. split; [done|].
    unfold PuzzleObjectSpawner.isVisible. rewrite Hp1.
    apply negb_false_iff, hasPuzzleObject_iff. rewrite Hheld.
    apply elem_of_app. right. by left.
  - intros A m Hkept.
    destruct (playerOf_onPlayer s w pl p m Hp) as [_ Hp2].
    unfold PuzzleObjectSpawner.isVisible. rewrite Hp2.
    by apply negb_false_iff.
  - intros Hnot. cbv zeta. rewrite Htake.
    destruct (playerOf_onPlayer s _ pl _ (tossPuzzleObject definition) Hp1)
      as [Hst2 Hp2].
    split; [by rewrite Hst2|].
    unfold PuzzleObjectSpawner.isVisible. rewrite Hp2.
    apply negb_true_iff. apply not_true_iff_false.
    rewrite hasPuzzleObject_iff.
    assert (Habsent : Some definition ∉ Player.heldPuzzleObjects p).
    { rewrite <- hasPuzzleObject_iff. by rewrite Hnot. }
    remember (final (takePuzzleObject (Some definition) false p)) as p1.
    unfold tossPuzzleObject. run. rewrite Hheld.
    rewrite (indexOf_first _ _ (length (Player.heldPuzzleObjects p))).
    + rewrite splice_remove by (rewrite length_app; simpl; lia).
      rewrite delete_take_drop, take_app_length.
      rewrite drop_app_ge by lia.
      replace (S (length (Player.heldPuzzleObjects p))
               - length (Player.heldPuzzleObjects p)) with 1 by lia.
      simpl. by rewrite app_nil_r.
    + by rewrite lookup_app_r, Nat.sub_diag by lia.
    + intros j Hj Hl. rewrite lookup_app_l in Hl by done.
      apply Habsent. by eapply list_elem_of_lookup_2.
Qed.
End SpawnerFacts.

(** ** Thrown errors *)

Section ThrowFacts.
Context `{Hud, Loader, MaterialRegistry, Fixtures}.
Implicit Types (this : Player.t) (w : World) (pl : loc).




(** The deposit closure reads [this.room!] where [placePuzzleObject]
    tests [this.room]: for a player in no room it throws. *)
Lemma activate_throws w pl p (item : HotbarItem.t) :
  players w !! pl = Some p ->
  throws (status (activate pl item w))
  <-> (exists mat, HotbarItem.onActivate item = depositMaterial mat)
      /\ roomOf w p = None.
Proof.
  intros Hp. unfold activate.
  destruct (HotbarItem.onActivate item) as [mat|obj].
  - run. rewrite Hp. simpl.
    destruct (roomOf w p) as [[r rm]|]; simpl.
    + split; [|by intros [_ ?]]. intros Hthrows. exfalso. revert Hthrows.
      destruct (Room.cauldrons rm) as [|cauldron others]; [done|].
      destruct (canReach p (cauldronX cauldron) (cauldronY cauldron)); [|done].
      simpl. destruct (putItem cauldron mat) as [[] cauldron']; simpl; [|done].
      unfold onPlayer. simpl. by rewrite Hp.
    + split; [|done]. intros _. split; [by eexists|done].
  - run. split; [done|]. by intros [[mat ?] _].
Qed.

Lemma forOf_returns {S X} (body : X -> M S unit) (l : list X) :
  (forall v, v ∈ l -> forall st, status (body v st) = Normal tt) ->
  forall st, status (forOf l body st) = Normal tt.
Proof.
  induction l as [|v l IH]; intros Hbody st; [done|].
  simpl. unfold bind.
  pose proof (Hbody v (list_elem_of_here _ _) st) as Hv.
  destruct (body v st) as [[c st1] evs]. unfold status in Hv. simpl in Hv. subst c.
  assert (Hrest : forall v', v' ∈ l -> forall st', status (body v' st') = Normal tt).
  { intros v' Hv'. apply Hbody. by right. }
  specialize (IH Hrest st1).
  destruct (forOf l body st1) as [[c st2] evs']. done.
Qed.

Lemma takeMaterial_returns this (m : Material.t) b :
  status (takeMaterial (Some m) b this) = Normal tt.
Proof.
  destruct (isFull this) eqn:Hfull.
  - by rewrite takeMaterial_full.
  - destruct (hasMaterial this (Some m)) eqn:Hheld.
    + by rewrite takeMaterial_held.
    + by eapply takeMaterial_new.
Qed.

Lemma newPlayer_returns (data : PlayerData.t) standingImage walkingImage :
  (forall k, k ∈ nullish (PlayerData.heldMaterials data) [] -> k ∈ materials.*1) ->
  (forall k, k ∈ nullish (PlayerData.heldPuzzleObjects data) [] ->
             k ∈ puzzleObjects.*1 \/ k ∈ Object_prototype.*1) ->
  exists this, (newPlayer data standingImage walkingImage).1 = Normal this.
Proof.
  intros Hmats Hpos. unfold newPlayer. cbn [fst]. unfold bind.
  match goal with
  | |- context [forOf ?l ?body ?s0] =>
      pose proof (fun Hb => forOf_returns body l Hb s0) as Hfirst;
      destruct (forOf l body s0) as [[c st1] evs]
  end.
  assert (Ec : c = Normal tt).
  { apply Hfirst. intros k Hk st.
    destruct (lookupKey materials k) as [m|] eqn:E.
    - apply takeMaterial_returns.
    - apply lookupKey_None in E. by destruct (E (Hmats k Hk)). }
  subst c. clear Hfirst.
  match goal with
  | |- context [forOf ?l ?body st1] =>
      pose proof (fun Hb => forOf_returns body l Hb st1) as Hsecond;
      destruct (forOf l body st1) as [[c2 st2] evs2]
  end.
  assert (Ec : c2 = Normal tt).
  { apply Hsecond. intros k Hk st.
    destruct (puzzleObjectAt k) as [o|] eqn:E.
    - apply takePuzzleObject_defined.
    - apply puzzleObjectAt_None in E as [Hown Hinh].
      by destruct (Hpos k Hk). }
  subst c2. by eexists.
Qed.

End ThrowFacts.

(** ** The theorems at concrete inputs *)

Section Instances.
Import Example.
#[local] Existing Instances hud loader fixtures registryOfMaterials.

Ltac in_registry :=
  repeat constructor; eexists _, _; (split; [reflexivity|]);
  repeat (first [by left | right]).

(** The alchemist turns the wood into stone. *)
Lemma applyPotion_transforms_witness :
  Forall (registered materials) (Player.heldMaterials alchemist)
  /\ Forall (registered puzzleObjects) (Player.heldPuzzleObjects alchemist)
  /\ status (applyPotion woodIntoStone alchemist) = Normal true.
Proof.
  assert (Hm : Forall (registered materials) (Player.heldMaterials alchemist))
    by in_registry.
  assert (Ho : Forall (registered puzzleObjects) (Player.heldPuzzleObjects alchemist))
    by in_registry.
  split; [exact Hm|]. split; [exact Ho|].
  destruct (proj1 (applyPotion_transforms alchemist woodIntoStone Hm Ho))
    as (i & m & _ & _ & _ & Hst & _).
  - exists (Some wood). split; [right; by left|reflexivity].
  - exact Hst.
Defined.

(** C1 fails as stated: a player who took wood and then a lantern that
    is in no registry holds a material of type "wood", yet
    [applyPotion] of a potion on "wood" throws in the search of the
    puzzle objects and transforms nothing. *)
Lemma applyPotion_throws_on_unregistered :
  Player.heldMaterials scavenger = [Some wood]
  /\ Player.heldPuzzleObjects scavenger = [Some lantern]
  /\ getMaterialType (Some wood) = Normal "wood"
  /\ status (applyPotion woodIntoStone scavenger)
     = Throw (JsError "PuzzleObject not found.")
  /\ Player.heldMaterials (final (applyPotion woodIntoStone scavenger)) = [Some wood].
Proof. by vm_compute. Qed.

(** The alchemist is saved and loaded. *)
Lemma serialize_deserialize_witness :
  Forall (registered materials) (Player.heldMaterials alchemist)
  /\ Forall (registered puzzleObjects) (Player.heldPuzzleObjects alchemist)
  /\ withinCapacity alchemist
  /\ NoDup (Player.heldMaterials alchemist)
  /\ exists data this',
       serialize alchemist = Normal data
       /\ (deserialize data).1 = Normal this'
       /\ Player.heldMaterials this' = [Some stone; Some wood]
       /\ Player.heldPuzzleObjects this' = [Some key].
Proof.
  assert (Hm : Forall (registered materials) (Player.heldMaterials alchemist))
    by in_registry.
  assert (Ho : Forall (registered puzzleObjects) (Player.heldPuzzleObjects alchemist))
    by in_registry.
  assert (Hc : withinCapacity alchemist) by (by vm_compute).
  assert (Hn : NoDup (Player.heldMaterials alchemist))
    by (apply (bool_decide_unpack _); exact I).
  assert (Hl : arrayLength (length (Player.heldMaterials alchemist)))
    by (by vm_compute).
  split_and!; try assumption.
  destruct (serialize_deserialize alchemist Hm Ho Hc Hn Hl)
    as (data & this' & Hs & Hd & _ & _ & Hhm & Hhp & _).
  exists data, this'. split_and!; assumption.
Defined.

(** The porter, at capacity, is offered stone and wood. *)
Lemma takeMaterial_capacity_witness :
  isFull porter = true
  /\ withinCapacity (takeMaterials [(Some stone, false); (Some wood, false)] porter)
  /\ final (takeMaterial (Some stone) false porter) = porter.
Proof.
  assert (Hf : isFull porter = true) by reflexivity.
  destruct (takeMaterial_capacity porter) as (_ & _ & _ & Hfull & Hwhole).
  split; [exact Hf|]. split.
  - apply (Hwhole 1); [done|reflexivity|simpl; lia].
  - apply (Hfull (Some stone) false Hf).
Defined.

(** C3 fails as stated: the hoarder, whose capacity is two and a half,
    holds two materials, which is within the capacity, and is given a
    third; and the constructor builds, from a save whose capacity is
    -1, a player who holds no material, which is more than -1. *)
Lemma takeMaterial_exceeds_capacity :
  withinCapacity hoarder
  /\ Player.heldMaterials (final (takeMaterial (Some clay) false hoarder))
     = [Some wood; Some stone; Some clay]
  /\ (toNumber 3 <=? Player.materialInventorySize hoarder)%float = false
  /\ exists this,
       (newPlayer indebtedSave (loadImage "standing") (loadImage "walking")).1
       = Normal this
       /\ Player.heldMaterials this = []
       /\ (toNumber 0 <=? Player.materialInventorySize this)%float = false.
Proof. split_and!; try reflexivity. eexists. by vm_compute. Qed.

(** The carrier takes wood a second time. *)
Lemma takeMaterial_duplicate_rejected_witness :
  hasMaterial carrier (Some wood) = true
  /\ final (takeMaterial (Some wood) false carrier) = carrier.
Proof.
  split; [reflexivity|].
  apply (takeMaterial_duplicate_rejected carrier (Some wood) false).
  reflexivity.
Defined.

(** The alchemist tosses a lantern that was never held, and loses the key. *)
Lemma tossPuzzleObject_absent_witness :
  (Some lantern ∉ Player.heldPuzzleObjects alchemist)
  /\ Player.heldPuzzleObjects (final (tossPuzzleObject lantern alchemist)) = [].
Proof.
  assert (Ha : Some lantern ∉ Player.heldPuzzleObjects alchemist).
  { apply (bool_decide_unpack _). exact I. }
  split; [exact Ha|].
  apply (proj1 (proj2 (proj2 (tossPuzzleObject_absent alchemist lantern Ha)))
           [] (Some key)).
  reflexivity.
Defined.


(** C7 fails for the exact distance: a player at 1e-30 is less than
    200 away from 200, and the doubles 0.1 and 200.1 are less than 200
    apart, yet either difference rounds to 200, out of reach. *)
Lemma canReach_rounds :
  (Z.abs (exactValue 200%float - exactValue 1e-30%float) < 200 * 2 ^ 1074)%Z
  /\ (200 - 1e-30 =? 200)%float = true
  /\ canReach (runner 1e-30%float 1e-30%float) 200%float 0%float = false
  /\ (Z.abs (exactValue 200.1%float - exactValue 0.1%float) < 200 * 2 ^ 1074)%Z
  /\ (200.1 - 0.1 =? 200)%float = true
  /\ canReach (runner 0.1%float 0.1%float) 200.1%float 0%float = false.
Proof. by vm_compute. Qed.


(** The spawner of the key in the room of the alchemist, who holds the key. *)
Lemma isVisible_while_held_witness :
  PuzzleObjectSpawner.playerOf spawner (world alchemist)
  = Some (0, Player.set_room (Some 0) alchemist)
  /\ PuzzleObjectSpawner.isVisible spawner (world alchemist) = false
  /\ PuzzleObjectSpawner.isVisible spawner
       (final (PuzzleObjectSpawner.take spawner (world alchemist))) = false.
Proof.
  assert (Hp : PuzzleObjectSpawner.playerOf spawner (world alchemist)
               = Some (0, Player.set_room (Some 0) alchemist)) by reflexivity.
  split; [exact Hp|]. split.
  - rewrite (proj1 (isVisible_while_held spawner (world alchemist) 0 _ Hp)).
    reflexivity.
  - apply (proj1 (proj2 (isVisible_while_held spawner (world alchemist) 0 _ Hp))).
Defined.

(** C6 fails as stated: the spawner of the key is visible to a player
    who holds nothing, hidden once the player took the key, and
    visible again once the player tossed it. *)
Lemma spawner_visible_after_toss :
  PuzzleObjectSpawner.isVisible spawner (world (player 5 [] [])) = true
  /\ PuzzleObjectSpawner.isVisible spawner
       (final (PuzzleObjectSpawner.take spawner (world (player 5 [] [])))) = false
  /\ PuzzleObjectSpawner.isVisible spawner
       (final (onPlayer 0 (tossPuzzleObject key)
                 (final (PuzzleObjectSpawner.take spawner (world (player 5 [] []))))))
     = true.
Proof. by vm_compute. Qed.



(** A player loaded from a save that holds wood is in no room; the
    activation of the hotbar entry of the wood throws. *)
Lemma deposit_without_room_throws :
  exists p, loaded = Normal p
            /\ Player.heldMaterials p = [Some wood]
            /\ Player.room p = None
            /\ status (activate 0 (materialItem wood) (lobby p))
               = Throw (TypeError "Cannot read properties of undefined").
Proof. eexists. split; [reflexivity|]. by vm_compute. Qed.
End Instances.

(** * Further properties of the code *)

(** ** Frames *)

Section FrameFacts.
Context `{Hud, Loader}.
Implicit Types (this : Player.t).
Open Scope float_scope.

(** X1: with [dt >= 0] the frames never carry the player past
    [targetX], nor back: after any number of calls of [tick(dt)] a
    player who started left of [targetX] stands between the start and
    [targetX], and likewise from the right, unless [x] has become NaN;
    [targetX] and every field but [x] are as they were.  A player whose
    [x] equals [targetX] is left as it is by a further [tick], and can
    reach every point above or below a finite [targetX]. *)
Theorem ticks_never_overshoot this dt n :
  (0 <=? dt) = true ->
  let p := ticks n dt this in
  let x := Player.x this in
  let targetX := Player.targetX this in
  Player.targetX p = targetX
  /\ p = Player.set_x (Player.x p) this
  /\ (is_nan (Player.x p) = false -> (x <=? targetX) = true ->
      (x <=? Player.x p) = true /\ (Player.x p <=? targetX) = true)
  /\ (is_nan (Player.x p) = false -> (targetX <=? x) = true ->
      (targetX <=? Player.x p) = true /\ (Player.x p <=? x) = true)
  /\ ((Player.x p =? targetX) = true ->
      final (tick dt p) = p
      /\ (is_infinity targetX = false -> forall py, canReach p targetX py = true)).
Proof.
  intros Hdt p x targetX. subst p x targetX. split_and!.
  - apply ticks_targetX.
  - apply ticks_only_x.
  - by apply ticks_forward.
  - by apply ticks_backward.
  - intros Heq. split.
    + apply tick_at_target. by rewrite ticks_targetX.
    + intros Hfin py. unfold canReach. apply abs_sub_eqb_200.
      * by rewrite eqb_sym.
      * unfold is_infinity in *.
        apply eqb_leb in Heq as [H1 H2].
        destruct (abs (Player.x (ticks n dt this)) =? infinity) eqn:E; [|done].
        rewrite <- Hfin. symmetry. revert E H1 H2.
        rewrite !FloatAxioms.eqb_spec, !FloatAxioms.leb_spec, !abs_spec.
        change (Prim2SF infinity) with (S754_infinity false).
        destruct (Prim2SF (Player.x (ticks n dt this))) as [?|[]| |[]],
                 (Prim2SF (Player.targetX this)) as [?|[]| |[]]; done.
Qed.

(** X2: [tick] does not guard against a negative [dt]: a player left
    of [targetX] then gets the rounded [x + 500 * dt], which is not
    right of the old [x] and still left of [targetX], and a player
    right of [targetX] the rounded [x - 500 * dt], not left of the old
    [x]: the player never moves toward [targetX]. *)
Theorem tick_negative_dt this dt :
  (dt <=? 0) = true ->
  let x := Player.x this in
  let targetX := Player.targetX this in
  let x' := Player.x (final (tick dt this)) in
  ((x <? targetX) = true -> is_nan (x + 500 * dt) = false ->
     x' = x + 500 * dt /\ (x' <=? x) = true /\ (x' <? targetX) = true)
  /\ ((targetX <? x) = true -> is_nan (x - 500 * dt) = false ->
     x' = x - 500 * dt /\ (x <=? x') = true /\ (targetX <? x') = true).
Proof.
  intros Hdt x targetX x'. subst x'. rewrite tick_final. fold x targetX.
  pose proof (mul_500_nonpos dt Hdt) as Hm.
  split; intros Hlt Hn.
  - rewrite (ltb_asym _ _ Hlt), Hlt. cbn [Player.x Player.set_x].
    pose proof (add_nonpos x _ Hm Hn) as Hle.
    pose proof (leb_ltb_trans _ _ _ Hle Hlt) as Hlt'.
    by rewrite (min_ltb _ _ Hlt').
  - rewrite Hlt. cbn [Player.x Player.set_x].
    pose proof (sub_nonpos x _ Hm Hn) as Hle.
    pose proof (ltb_leb_trans _ _ _ Hlt Hle) as Hlt'.
    by rewrite (max_ltb _ _ Hlt').
Qed.
End FrameFacts.

(** ** Drawing *)

Section DrawingFacts.
Context `{Hud, Loader, MaterialRegistry, Fixtures}.
Implicit Types (this : Player.t) (s : PuzzleObjectSpawner.t) (w : World).
Open Scope float_scope.

(** X3: the pose follows the position.  A player left of [targetX] is
    drawn with the walking image, one right of it with the walking image
    mirrored, and one whose [x] equals [targetX] standing and
    unmirrored; a player whose [x] or [targetX] is NaN is drawn walking,
    unmirrored.  In each case the calls come between one [save] and one
    [restore], after a [translate] to ([x], [y]), the image hanging from
    its bottom centre. *)
Theorem draw_pose this :
  let sprite image := canvasDrawImage image (- imageWidth image / 2) (- imageHeight image) in
  let x := Player.x this in
  let targetX := Player.targetX this in
  ((x <? targetX) = true ->
     draw this = [canvasSave; canvasTranslate x (Player.y this);
                  sprite (Player.walkingImage this); canvasRestore])
  /\ ((targetX <? x) = true ->
        draw this = [canvasSave; canvasTranslate x (Player.y this);
                     canvasScale (-1) 1;
                     sprite (Player.walkingImage this); canvasRestore])
  /\ ((targetX =? x) = true ->
        draw this = [canvasSave; canvasTranslate x (Player.y this);
                     sprite (Player.standingImage this); canvasRestore])
  /\ (is_nan x = true \/ is_nan targetX = true ->
        draw this = [canvasSave; canvasTranslate x (Player.y this);
                     sprite (Player.walkingImage this); canvasRestore]).
Proof.
  intros sprite x targetX. subst sprite. unfold draw. fold x targetX. split_and!.
  - intros Hlt. destruct (ltb_neq _ _ Hlt) as [_ Hne].
    by rewrite Hne, (ltb_asym _ _ Hlt).
  - intros Hgt. destruct (ltb_neq _ _ Hgt) as [Hne _]. by rewrite Hne, Hgt.
  - intros Heq. rewrite Heq. apply eqb_leb in Heq as [_ Hle].
    by rewrite (leb_ltb _ _ Hle).
  - intros Hnan.
    assert (Hne : (targetX =? x) = false).
    { destruct (targetX =? x) eqn:E; [|done].
      apply eqb_leb in E as [[Ht Hx]%leb_not_nan _]. destruct Hnan; congruence. }
    assert (Hlt : (targetX <? x) = false).
    { destruct (targetX <? x) eqn:E; [|done].
      apply ltb_not_nan in E as [Ht Hx]. destruct Hnan; congruence. }
    by rewrite Hne, Hlt.
Qed.

(** X4: a spawner bound to a room with a player who does not hold its
    definition draws its image once, centred on ([x], [y]); after
    [take()] it draws nothing. *)
Theorem drawSpawner_until_taken s w pl p :
  PuzzleObjectSpawner.playerOf s w = Some (pl, p) ->
  hasPuzzleObject p (PuzzleObjectSpawner.puzzleObject s) = false ->
  drawSpawner s w
  = [canvasDrawImage (PuzzleObjectSpawner.worldImage s)
       (PuzzleObjectSpawner.x s - PuzzleObjectSpawner.width s / 2)
       (PuzzleObjectSpawner.y s - PuzzleObjectSpawner.height s / 2)]
  /\ drawSpawner s (final (PuzzleObjectSpawner.take s w)) = [].
Proof.
  intros Hp Hnot. unfold drawSpawner, PuzzleObjectSpawner.isVisible.
  rewrite Hp, Hnot. split; [done|].
  assert (Htake : PuzzleObjectSpawner.take s w
                  = onPlayer pl (takePuzzleObject
                                   (Some (PuzzleObjectSpawner.puzzleObject s)) false) w).
  { unfold PuzzleObjectSpawner.take, bind, get. rewrite Hp.
    destruct (onPlayer pl _ w) as [[c w'] evs]. done. }
  rewrite Htake.
  destruct (playerOf_onPlayer s w pl p
              (takePuzzleObject (Some (PuzzleObjectSpawner.puzzleObject s)) false) Hp)
    as [_ Hp1].
  rewrite Hp1.
  destruct (takePuzzleObject_defined p (PuzzleObjectSpawner.puzzleObject s) false)
    as (_ & Hheld & _).
  rewrite (proj2 (hasPuzzleObject_iff _ _)); [done|].
  rewrite Hheld. apply elem_of_app. right. by left.
Qed.
End DrawingFacts.

(** ** Saving and loading a spawner *)

Section SpawnerSaveFacts.
Context `{Hud, Loader, MaterialRegistry, Fixtures}.
Implicit Types (s : PuzzleObjectSpawner.t) (data : PuzzleObjectData.t).

(** In a registry whose definitions are distinct objects, the definition
    found under a key leads back to that key. *)
Lemma entryOf_lookupKey {A} `{EqDecision A} (reg : registry A) k (o : A) :
  NoDup reg.*2 -> lookupKey reg k = Some o -> entryOf reg (Some o) = Some (k, o).
Proof.
  intros Hvalues Hk. apply lookupKey_Some, list_elem_of_lookup in Hk as (j & Hj).
  unfold entryOf.
  destruct (list_find (fun e => Some e.2 = Some o) reg) as [[i [k' o']]|] eqn:F.
  - apply list_find_Some in F as (Hi & Ho & _). simpl in Ho. injection Ho as ->.
    simpl. assert (i = j) as ->; [|congruence].
    eapply NoDup_lookup; [exact Hvalues| |].
    + rewrite list_lookup_fmap, Hi. done.
    + rewrite list_lookup_fmap, Hj. done.
  - apply list_find_None in F. rewrite Forall_forall in F.
    destruct (F (k, o)); [|done]. by eapply list_elem_of_lookup_2.
Qed.

Lemma puzzleObjects_values : NoDup puzzleObjects.*2.
Proof. apply (bool_decide_unpack _). by vm_compute. Qed.

(** X5: a spawner that [deserialize] built from a record whose key is
    an entry of the registry serializes back to that record, whatever
    room it is bound to since.  A spawner built from any other record
    was built from an inherited name, and cannot be saved:
    [serialize] throws. *)
Theorem spawner_deserialize_serialize data s :
  PuzzleObjectSpawner.deserialize data = Normal s ->
  let key := PuzzleObjectData.puzzleObjectType data in
  (key ∈ puzzleObjects.*1 ->
     forall r, PuzzleObjectSpawner.serialize (PuzzleObjectSpawner.set_room r s)
               = Normal data)
  /\ (key ∉ puzzleObjects.*1 ->
        key ∈ Object_prototype.*1
        /\ forall r, PuzzleObjectSpawner.serialize (PuzzleObjectSpawner.set_room r s)
                     = Throw (TypeError "Cannot read properties of undefined")).
Proof.
  intros Hs key. unfold PuzzleObjectSpawner.deserialize in Hs. fold key in Hs.
  destruct (puzzleObjectAt key) as [po|] eqn:E; [|done].
  injection Hs as <-.
  unfold PuzzleObjectSpawner.serialize, PuzzleObjectSpawner.set_room,
    PuzzleObjectSpawner.new.
  cbn [PuzzleObjectSpawner.puzzleObject PuzzleObjectSpawner.x PuzzleObjectSpawner.y].
  split.
  - intros Hown r.
    assert (Hk : lookupKey puzzleObjects key = Some po).
    { destruct (lookupKey puzzleObjects key) as [o|] eqn:F.
      - rewrite puzzleObjectAt_own in E by by rewrite F. congruence.
      - by apply lookupKey_None in F. }
    rewrite (entryOf_lookupKey _ _ _ puzzleObjects_values Hk). by destruct data.
  - intros Hown. rewrite (puzzleObjectAt_inherited _ Hown) in E.
    split.
    + destruct (decide (key ∈ Object_prototype.*1)) as [|Hno]; [done|].
      apply lookupKey_None in Hno. congruence.
    + intros r. apply lookupKey_Some in E.
      pose proof (inherited_not_registered _ _ E) as Hnot.
      apply entryOf_None in Hnot. by rewrite Hnot.
Qed.

(** X6: [serialize] of a spawner throws exactly when its definition is
    not in the registry; the record it returns otherwise is one from
    which [deserialize] builds a spawner of the same definition at the
    same place, bound to no room, whose image is loaded anew from the
    spawner image of the definition, or else its inventory image, or
    else the placeholder, and whose size is the size of that image. *)
Theorem spawner_serialize_deserialize s :
  (throws (PuzzleObjectSpawner.serialize s)
   <-> ~ registered puzzleObjects (Some (PuzzleObjectSpawner.puzzleObject s)))
  /\ (forall data,
        PuzzleObjectSpawner.serialize s = Normal data ->
        exists s',
          PuzzleObjectSpawner.deserialize data = Normal s'
          /\ PuzzleObjectSpawner.puzzleObject s' = PuzzleObjectSpawner.puzzleObject s
          /\ PuzzleObjectSpawner.x s' = PuzzleObjectSpawner.x s
          /\ PuzzleObjectSpawner.y s' = PuzzleObjectSpawner.y s
          /\ PuzzleObjectSpawner.worldImage s'
             = loadImage
                 (nullish3
                    (PuzzleObject.spawnerImageUrl (PuzzleObjectSpawner.puzzleObject s))
                    (PuzzleObject.inventoryImageUrl (PuzzleObjectSpawner.puzzleObject s))
                    PuzzleObjectSpawner.PLACEHOLDER_IMAGE_URL)
          /\ PuzzleObjectSpawner.width s'
             = imageWidth (PuzzleObjectSpawner.worldImage s')
          /\ PuzzleObjectSpawner.height s'
             = imageHeight (PuzzleObjectSpawner.worldImage s')
          /\ PuzzleObjectSpawner.room s' = None).
Proof.
  unfold PuzzleObjectSpawner.serialize. split.
  - rewrite <- entryOf_None.
    by destruct (entryOf puzzleObjects (Some (PuzzleObjectSpawner.puzzleObject s))).
  - intros data Hdata.
    destruct (entryOf puzzleObjects (Some (PuzzleObjectSpawner.puzzleObject s)))
      as [[k o]|] eqn:E; [|done].
    injection Hdata as <-.
    pose proof (lookupKey_entryOf _ _ _ _ puzzleObjects_keys E) as Hk.
    unfold PuzzleObjectSpawner.deserialize. simpl.
    rewrite puzzleObjectAt_own by by rewrite Hk. rewrite Hk.
    eexists. split; [done|]. by simpl.
Qed.
End SpawnerSaveFacts.

(** ** Clicking a spawner *)

Section ClickFacts.
Context `{Hud, Loader, MaterialRegistry, Fixtures}.
Implicit Types (s : PuzzleObjectSpawner.t) (w : World) (p : Player.t).
Open Scope float_scope.

Lemma isUnderPointer_iff s px py :
  PuzzleObjectSpawner.isUnderPointer s px py = true
  <-> (PuzzleObjectSpawner.width s / 2 <? Math.abs (PuzzleObjectSpawner.x s - px)) = false
      /\ (PuzzleObjectSpawner.height s / 2 <? Math.abs (PuzzleObjectSpawner.y s - py))
         = false.
Proof.
  unfold PuzzleObjectSpawner.isUnderPointer.
  by rewrite negb_true_iff, orb_false_iff.
Qed.

Lemma doClick_missed s w px py :
  PuzzleObjectSpawner.isUnderPointer s px py = false ->
  PuzzleObjectSpawner.doClick s px py w = (Normal false, w, [hideHudItemWindow]).
Proof. intros Hmiss. unfold PuzzleObjectSpawner.doClick. by rewrite Hmiss. Qed.

Lemma doClick_hidden s w px py :
  PuzzleObjectSpawner.isUnderPointer s px py = true ->
  PuzzleObjectSpawner.isVisible s w = false ->
  PuzzleObjectSpawner.doClick s px py w = (Normal false, w, []).
Proof.
  intros Hhit Hhidden. unfold PuzzleObjectSpawner.doClick. rewrite Hhit.
  run. by rewrite Hhidden.
Qed.

Lemma doClick_visible s w px py pl p :
  PuzzleObjectSpawner.isUnderPointer s px py = true ->
  PuzzleObjectSpawner.playerOf s w = Some (pl, p) ->
  hasPuzzleObject p (PuzzleObjectSpawner.puzzleObject s) = false ->
  PuzzleObjectSpawner.doClick s px py w
  = if canReach p (PuzzleObjectSpawner.x s) (PuzzleObjectSpawner.y s) then
      (Normal true, w,
       [showHudItemWindow
          {| HudItemWindow.image :=
               PuzzleObject.inventoryImageUrl (PuzzleObjectSpawner.puzzleObject s);
             HudItemWindow.name := PuzzleObject.name (PuzzleObjectSpawner.puzzleObject s);
             HudItemWindow.traits := [];
             HudItemWindow.description :=
               PuzzleObject.description (PuzzleObjectSpawner.puzzleObject s);
             HudItemWindow.actions := [onTake (PuzzleObjectSpawner.puzzleObject s)];
             HudItemWindow.position :=
               Some (PuzzleObjectSpawner.x s, PuzzleObjectSpawner.y s) |}])
    else (Normal false, w, []).
Proof.
  intros Hhit Hp Hnot. unfold PuzzleObjectSpawner.doClick. rewrite Hhit.
  run. unfold PuzzleObjectSpawner.isVisible. rewrite Hp, Hnot. simpl.
  by destruct (canReach p (PuzzleObjectSpawner.x s) (PuzzleObjectSpawner.y s)).
Qed.

(** X7: [doClick(x, y)] never changes the player or the room and never
    throws.  It answers true exactly when the click is not outside the
    box of the image (neither [|this.x - x| > width / 2] nor
    [|this.y - y| > height / 2]), the room has a player who does not
    hold the definition, and that player can reach the spawner
    ([|this.x - player.x| < 200]).  When it answers true it has opened
    one window, placed on the spawner, whose only action is "take";
    when it answers false it has opened none. *)
Theorem doClick_gate s w px py :
  let r := PuzzleObjectSpawner.doClick s px py w in
  final r = w
  /\ (exists b, status r = Normal b)
  /\ (status r = Normal true
      <-> ((PuzzleObjectSpawner.width s / 2
            <? Math.abs (PuzzleObjectSpawner.x s - px)) = false
           /\ (PuzzleObjectSpawner.height s / 2
               <? Math.abs (PuzzleObjectSpawner.y s - py)) = false)
          /\ exists pl p,
               PuzzleObjectSpawner.playerOf s w = Some (pl, p)
               /\ (Some (PuzzleObjectSpawner.puzzleObject s) ∉ Player.heldPuzzleObjects p)
               /\ (Math.abs (PuzzleObjectSpawner.x s - Player.x p) <? 200) = true)
  /\ (status r = Normal true ->
      exists window,
        calls r = [showHudItemWindow window]
        /\ HudItemWindow.actions window = [onTake (PuzzleObjectSpawner.puzzleObject s)]
        /\ HudItemWindow.position window
           = Some (PuzzleObjectSpawner.x s, PuzzleObjectSpawner.y s))
  /\ (status r = Normal false -> forall window, showHudItemWindow window ∉ calls r).
Proof.
  intros r. subst r. rewrite <- isUnderPointer_iff.
  destruct (PuzzleObjectSpawner.isUnderPointer s px py) eqn:Hhit.
  2: { rewrite doClick_missed by done. split_and!; try done; [by eexists| |].
       - split; [done|]. by intros [? _].
       - intros _ window Hin. by apply list_elem_of_singleton in Hin. }
  destruct (PuzzleObjectSpawner.playerOf s w) as [[pl p]|] eqn:Hp.
  2: { rewrite doClick_hidden;
         [|done|by unfold PuzzleObjectSpawner.isVisible; rewrite Hp].
       split_and!; try done; [by eexists| |].
       - split; [done|]. by intros [_ (? & ? & ? & _)].
       - intros _ window Hin. by apply elem_of_nil in Hin. }
  destruct (hasPuzzleObject p (PuzzleObjectSpawner.puzzleObject s)) eqn:Hheld.
  { rewrite doClick_hidden;
      [|done|by unfold PuzzleObjectSpawner.isVisible; rewrite Hp, Hheld].
    split_and!; try done; [by eexists| |].
    - split; [done|]. intros [_ (pl' & p' & [= <- <-] & Hnot & _)].
      by apply hasPuzzleObject_iff in Hheld.
    - intros _ window Hin. by apply elem_of_nil in Hin. }
  rewrite (doClick_visible s w px py pl p) by done.
  unfold canReach, status, final, calls.
  assert (Hnot : Some (PuzzleObjectSpawner.puzzleObject s) ∉ Player.heldPuzzleObjects p).
  { rewrite <- hasPuzzleObject_iff. by rewrite Hheld. }
  destruct (Math.abs (PuzzleObjectSpawner.x s - Player.x p) <? 200) eqn:Hreach; simpl.
  - split_and!; try done; [by eexists| |by eexists].
    split; [|done]. intros _. split; [done|]. by exists pl, p.
  - split_and!; try done; [by eexists| |].
    + split; [done|]. intros [_ (pl' & p' & [= <- <-] & _ & Hlt)]. congruence.
    + intros _ window Hin. by apply elem_of_nil in Hin.
Qed.

(** X8: once the player of the room took the definition, a click on
    the spawner is a no-op: it answers false, changes nothing and opens
    no window (a click inside the box makes no service call at all). *)
Theorem doClick_after_take s w pl p px py :
  PuzzleObjectSpawner.playerOf s w = Some (pl, p) ->
  let w' := final (PuzzleObjectSpawner.take s w) in
  let r := PuzzleObjectSpawner.doClick s px py w' in
  status r = Normal false
  /\ final r = w'
  /\ (forall window, showHudItemWindow window ∉ calls r)
  /\ (PuzzleObjectSpawner.isUnderPointer s px py = true -> calls r = []).
Proof.
  intros Hp w' r.
  assert (Hhidden : PuzzleObjectSpawner.isVisible s w' = false).
  { subst w'.
    assert (Htake : PuzzleObjectSpawner.take s w
                    = onPlayer pl (takePuzzleObject
                                     (Some (PuzzleObjectSpawner.puzzleObject s)) false) w).
    { unfold PuzzleObjectSpawner.take, bind, get. rewrite Hp.
      destruct (onPlayer pl _ w) as [[c w1] evs]. done. }
    rewrite Htake. unfold PuzzleObjectSpawner.isVisible.
    destruct (playerOf_onPlayer s w pl p
                (takePuzzleObject (Some (PuzzleObjectSpawner.puzzleObject s)) false) Hp)
      as [_ ->].
    destruct (takePuzzleObject_defined p (PuzzleObjectSpawner.puzzleObject s) false)
      as (_ & Hheld & _).
    rewrite (proj2 (hasPuzzleObject_iff _ _)); [done|].
    rewrite Hheld. apply elem_of_app. right. by left. }
  subst r. destruct (PuzzleObjectSpawner.isUnderPointer s px py) eqn:Hhit.
  - rewrite doClick_hidden by done. split_and!; try done.
    intros window Hin. by apply elem_of_nil in Hin.
  - rewrite doClick_missed by done. split_and!; try done.
    intros window Hin. apply list_elem_of_singleton in Hin. done.
Qed.

(** X9: a spawner that is bound to no room, or whose room has no
    player, is inert: it is not visible, draws nothing, [take()] does
    nothing, and a click on it answers false. *)
Theorem spawner_without_player s w px py :
  PuzzleObjectSpawner.playerOf s w = None ->
  PuzzleObjectSpawner.isVisible s w = false
  /\ drawSpawner s w = []
  /\ PuzzleObjectSpawner.take s w = (Normal tt, w, [])
  /\ status (PuzzleObjectSpawner.doClick s px py w) = Normal false
  /\ final (PuzzleObjectSpawner.doClick s px py w) = w.
Proof.
  intros Hp.
  assert (Hhidden : PuzzleObjectSpawner.isVisible s w = false)
    by (by unfold PuzzleObjectSpawner.isVisible; rewrite Hp).
  split_and!; try done.
  - unfold drawSpawner. by rewrite Hhidden.
  - unfold PuzzleObjectSpawner.take. run. by rewrite Hp.
  - destruct (PuzzleObjectSpawner.isUnderPointer s px py) eqn:Hhit.
    + by rewrite doClick_hidden.
    + by rewrite doClick_missed.
  - destruct (PuzzleObjectSpawner.isUnderPointer s px py) eqn:Hhit.
    + by rewrite doClick_hidden.
    + by rewrite doClick_missed.
Qed.
End ClickFacts.

(** ** Taking and tossing *)

Section HoldingFacts.
Context `{Hud, Loader, MaterialRegistry}.
Implicit Types (this : Player.t) (mat : option Material.t) (obj : PuzzleObject.t).

Lemma hasMaterial_iff this mat :
  hasMaterial this mat = true <-> mat ∈ Player.heldMaterials this.
Proof.
  unfold hasMaterial. rewrite indexOf_negative.
  rewrite negb_true_iff, bool_decide_eq_false. split.
  - intros Hnn. by destruct (decide (mat ∈ Player.heldMaterials this)).
  - intros Hin Hno. by apply Hno.
Qed.

(** X10: whatever it answers, [takeMaterial(m)] removes and reorders
    nothing: the list is as before or as before with [m] at the end.
    Afterwards [m] is held exactly when it was held before or the list
    was below capacity (the test [length >= materialInventorySize]
    failed), and a list without duplicates stays without duplicates. *)
Theorem takeMaterial_outcome this mat isInitializing :
  let r := takeMaterial mat isInitializing this in
  (Player.heldMaterials (final r) = Player.heldMaterials this
   \/ Player.heldMaterials (final r) = Player.heldMaterials this ++ [mat])
  /\ (hasMaterial (final r) mat = true
      <-> hasMaterial this mat = true \/ isFull this = false)
  /\ (forall other, hasMaterial this other = true -> hasMaterial (final r) other = true)
  /\ (NoDup (Player.heldMaterials this) -> NoDup (Player.heldMaterials (final r))).
Proof.
  intros r. subst r.
  destruct (isFull this) eqn:Hfull; [|rename Hfull into Hroom]; cycle 1.
  - destruct (hasMaterial this mat) eqn:Hheld.
    + rewrite takeMaterial_held by done. unfold final. simpl.
      split_and!; try done; [by left|]. split; [by left|done].
    + destruct (takeMaterial_new this mat isInitializing Hroom Hheld) as (Hl & _).
      split_and!.
      * by right.
      * split; [by right|]. intros _. apply hasMaterial_iff. rewrite Hl.
        apply elem_of_app. right. by left.
      * intros other Hother. apply hasMaterial_iff. rewrite Hl.
        apply elem_of_app. left. by apply hasMaterial_iff.
      * intros Hnodup. rewrite Hl. apply NoDup_app. split_and!; [done| |].
        -- intros v Hv [->|Hnil%elem_of_nil]%elem_of_cons; [|done].
           apply hasMaterial_iff in Hv. congruence.
        -- apply NoDup_singleton.
  - rewrite takeMaterial_full by done. unfold final. simpl.
    split_and!; try done; [by left|]. split; [by left|].
    intros [Hheld|Hlt]; done.
Qed.

Lemma tossPuzzleObject_run this obj i :
  Player.heldPuzzleObjects this !! i = Some (Some obj) ->
  (forall j, j < i -> Player.heldPuzzleObjects this !! j <> Some (Some obj)) ->
  tossPuzzleObject obj this
  = (Normal tt,
     Player.set_hotbar (removeItemByName (PuzzleObject.name obj))
       (Player.set_heldPuzzleObjects (fun l => delete i l) this),
     []).
Proof.
  intros Hi Hfirst. unfold tossPuzzleObject. run.
  unfold Player.set_heldPuzzleObjects. simpl.
  rewrite (indexOf_first _ _ i Hi Hfirst).
  rewrite splice_remove by (by eapply lookup_lt_Some). done.
Qed.

(** X11: [tossPuzzleObject(o)] of a held object deletes its first
    occurrence and nothing else: the list is one shorter, the materials
    are untouched, every other object is held as before, and [o] itself
    is no longer held when that occurrence was its only one. *)
Theorem tossPuzzleObject_held this obj i :
  Player.heldPuzzleObjects this !! i = Some (Some obj) ->
  (forall j, j < i -> Player.heldPuzzleObjects this !! j <> Some (Some obj)) ->
  let r := tossPuzzleObject obj this in
  status r = Normal tt
  /\ Player.heldPuzzleObjects (final r) = delete i (Player.heldPuzzleObjects this)
  /\ S (length (Player.heldPuzzleObjects (final r)))
     = length (Player.heldPuzzleObjects this)
  /\ Player.heldMaterials (final r) = Player.heldMaterials this
  /\ (forall other, other <> obj ->
        hasPuzzleObject (final r) other = hasPuzzleObject this other)
  /\ ((forall j, Player.heldPuzzleObjects this !! j = Some (Some obj) -> j = i) ->
      hasPuzzleObject (final r) obj = false).
Proof.
  intros Hi Hfirst r. subst r. rewrite (tossPuzzleObject_run this obj i Hi Hfirst).
  unfold status, final. simpl.
  assert (Hlen : i < length (Player.heldPuzzleObjects this)) by by eapply lookup_lt_Some.
  split_and!; try done.
  - rewrite length_delete by done. lia.
  - intros other Hne. apply eq_true_iff_eq. rewrite !hasPuzzleObject_iff. simpl. split.
    + apply list_elem_of_delete_inv.
    + intros (j & Hj)%list_elem_of_lookup.
      destruct (Nat.lt_trichotomy j i) as [Hlt|[->|Hgt]].
      * apply list_elem_of_lookup. exists j. by rewrite list_lookup_delete_lt.
      * congruence.
      * apply list_elem_of_lookup. exists (j - 1).
        rewrite list_lookup_delete_ge by lia.
        by replace (S (j - 1)) with j by lia.
  - intros Honly. apply not_true_iff_false. rewrite hasPuzzleObject_iff. simpl.
    intros (j & Hj)%list_elem_of_lookup.
    destruct (decide (j < i)) as [Hlt|Hge].
    + rewrite list_lookup_delete_lt in Hj by done. specialize (Honly _ Hj). lia.
    + rewrite list_lookup_delete_ge in Hj by lia. specialize (Honly _ Hj). lia.
Qed.
End HoldingFacts.

(** ** Furnaces and cauldrons *)

Section FixtureFacts.
Context `{Hud, Loader, MaterialRegistry, Fixtures}.
Implicit Types (w : World) (pl : loc) (p : Player.t) (obj : PuzzleObject.t)
  (m : Material.t) (item : HotbarItem.t).

(** X12: [placePuzzleObject(o)] asks the first furnace of the room and
    no other.  Without a room nothing happens; in a room without a
    furnace the only effect is the message; a furnace that refuses
    leaves every player as it was; a furnace that accepts makes the
    player toss the object. *)
Theorem placePuzzleObject_outcome w pl p obj :
  players w !! pl = Some p ->
  let r := placePuzzleObject pl obj w in
  (roomOf w p = None -> r = (Normal tt, w, []))
  /\ (forall rloc rm,
        roomOf w p = Some (rloc, rm) -> Room.furnaces rm = [] ->
        r = (Normal tt, w, [toast "Nowhere to put it"]))
  /\ (forall rloc rm furnace others accepted furnace',
        roomOf w p = Some (rloc, rm) ->
        Room.furnaces rm = furnace :: others ->
        putObjectIn furnace obj = (accepted, furnace') ->
        status r = Normal tt
        /\ calls r = []
        /\ rooms (final r)
           = <[rloc := Room.set_furnaces (furnace' :: others) rm]> (rooms w)
        /\ (accepted = false -> players (final r) = players w)
        /\ (accepted = true ->
            players (final r) = <[pl := final (tossPuzzleObject obj p)]> (players w))).
Proof.
  intros Hp r. subst r. unfold placePuzzleObject. run. rewrite Hp. simpl.
  split_and!.
  - by intros ->.
  - by intros rloc rm -> ->.
  - intros rloc rm furnace others accepted furnace' -> -> ->.
    destruct accepted; simpl; [|done].
    unfold onPlayer. simpl. rewrite Hp. simpl. split_and!; done.
Qed.

Lemma deposit_accepted w pl p item m rloc rm cauldron others cauldron' :
  players w !! pl = Some p ->
  HotbarItem.onActivate item = depositMaterial m ->
  roomOf w p = Some (rloc, rm) ->
  Room.cauldrons rm = cauldron :: others ->
  canReach p (cauldronX cauldron) (cauldronY cauldron) = true ->
  putItem cauldron m = (true, cauldron') ->
  activate pl item w
  = (Normal tt,
     {| players :=
          <[pl := Player.set_heldMaterials
                    (fun l => Array.splice l (Array.indexOf l (Some m)) 1 [])
                    (Player.set_hotbar (removeItem item) p)]> (players w);
        rooms := <[rloc := Room.set_cauldrons (cauldron' :: others) rm]> (rooms w) |},
     [save]).
Proof.
  intros Hp Hitem Hroom Hcauldrons Hreach Hput. unfold activate. rewrite Hitem.
  run. rewrite Hp. simpl. rewrite Hroom. simpl. rewrite Hcauldrons, Hreach. simpl.
  rewrite Hput. simpl. unfold onPlayer. simpl. rewrite Hp. done.
Qed.

(** X13: the deposit of a held material.  Without a cauldron in the
    room, or with the first cauldron 200 or more away, the only effect
    is a message and the cauldron is not asked; a cauldron that refuses
    leaves every player as it was; a cauldron that accepts removes the
    first occurrence of the material from the inventory, leaves the
    puzzle objects alone and triggers one save. *)
Theorem deposit_outcome w pl p item m rloc rm :
  players w !! pl = Some p ->
  HotbarItem.onActivate item = depositMaterial m ->
  roomOf w p = Some (rloc, rm) ->
  let r := activate pl item w in
  (Room.cauldrons rm = [] -> r = (Normal tt, w, [toast "This goes in a cauldron"]))
  /\ (forall cauldron others,
        Room.cauldrons rm = cauldron :: others ->
        canReach p (cauldronX cauldron) (cauldronY cauldron) = false ->
        r = (Normal tt, w, [toast "You cannot reach that"]))
  /\ (forall cauldron others cauldron',
        Room.cauldrons rm = cauldron :: others ->
        canReach p (cauldronX cauldron) (cauldronY cauldron) = true ->
        putItem cauldron m = (false, cauldron') ->
        status r = Normal tt /\ calls r = [] /\ players (final r) = players w)
  /\ (forall cauldron others cauldron' i,
        Room.cauldrons rm = cauldron :: others ->
        canReach p (cauldronX cauldron) (cauldronY cauldron) = true ->
        putItem cauldron m = (true, cauldron') ->
        Player.heldMaterials p !! i = Some (Some m) ->
        (forall j, j < i -> Player.heldMaterials p !! j <> Some (Some m)) ->
        status r = Normal tt /\ calls r = [save]
        /\ exists p', players (final r) !! pl = Some p'
             /\ Player.heldMaterials p' = delete i (Player.heldMaterials p)
             /\ Player.heldPuzzleObjects p' = Player.heldPuzzleObjects p
             /\ Player.materialInventorySize p' = Player.materialInventorySize p).
Proof.
  intros Hp Hitem Hroom r. subst r. split_and!.
  - intros Hnone. unfold activate. rewrite Hitem. run. rewrite Hp. simpl.
    rewrite Hroom. simpl. by rewrite Hnone.
  - intros cauldron others Hc Hfar. unfold activate. rewrite Hitem. run.
    rewrite Hp. simpl. rewrite Hroom. simpl. by rewrite Hc, Hfar.
  - intros cauldron others cauldron' Hc Hreach Hput. unfold activate.
    rewrite Hitem. run. rewrite Hp. simpl. rewrite Hroom. simpl.
    rewrite Hc, Hreach. simpl. by rewrite Hput.
  - intros cauldron others cauldron' i Hc Hreach Hput Hi Hfirst.
    rewrite (deposit_accepted w pl p item m rloc rm cauldron others cauldron')
      by done.
    unfold status, final, calls. simpl. split_and!; try done.
    eexists. rewrite lookup_insert_eq. split; [done|]. simpl.
    rewrite (indexOf_first _ _ i Hi Hfirst).
    rewrite splice_remove by (by eapply lookup_lt_Some). done.
Qed.

(** X14: the hotbar entry outlives the material.  When the material of
    an entry is no longer in the inventory (a potion replaced it), an
    accepted deposit still hands that material to the cauldron and the
    inventory loses its last element instead ([indexOf] is -1). *)
Theorem deposit_of_absent_material w pl p item m rloc rm cauldron others cauldron' :
  players w !! pl = Some p ->
  HotbarItem.onActivate item = depositMaterial m ->
  roomOf w p = Some (rloc, rm) ->
  Room.cauldrons rm = cauldron :: others ->
  canReach p (cauldronX cauldron) (cauldronY cauldron) = true ->
  putItem cauldron m = (true, cauldron') ->
  Some m ∉ Player.heldMaterials p ->
  let r := activate pl item w in
  status r = Normal tt
  /\ rooms (final r) !! rloc = Some (Room.set_cauldrons (cauldron' :: others) rm)
  /\ exists p', players (final r) !! pl = Some p'
       /\ forall init last, Player.heldMaterials p = init ++ [last] ->
                            Player.heldMaterials p' = init.
Proof.
  intros Hp Hitem Hroom Hc Hreach Hput Habsent r. subst r.
  rewrite (deposit_accepted w pl p item m rloc rm cauldron others cauldron') by done.
  unfold status, final. simpl. split_and!; [done|by rewrite lookup_insert_eq|].
  eexists. rewrite lookup_insert_eq. split; [done|]. simpl.
  rewrite (indexOf_absent _ _ Habsent), splice_minus_one.
  intros init last ->. rewrite length_app. simpl.
  replace (length init + 1 - 1) with (length init) by lia.
  by rewrite take_app_length.
Qed.

(** X15: taking a material and depositing it brings the inventory
    back.  For a material that was not held, with room left (the test
    [length >= materialInventorySize] fails), in a room whose first
    cauldron is in reach and accepts it, [takeMaterial]
    followed by the activation of its hotbar entry leaves the list of
    held materials as it was before the two. *)
Theorem takeMaterial_then_deposit w pl p m isInitializing rloc rm cauldron others cauldron' :
  players w !! pl = Some p ->
  roomOf w p = Some (rloc, rm) ->
  Room.cauldrons rm = cauldron :: others ->
  canReach p (cauldronX cauldron) (cauldronY cauldron) = true ->
  putItem cauldron m = (true, cauldron') ->
  hasMaterial p (Some m) = false ->
  isFull p = false ->
  let w1 := final (onPlayer pl (takeMaterial (Some m) isInitializing) w) in
  let r := activate pl (materialItem m) w1 in
  status r = Normal tt
  /\ exists p1 p2,
       players w1 !! pl = Some p1
       /\ Player.heldMaterials p1 = Player.heldMaterials p ++ [Some m]
       /\ players (final r) !! pl = Some p2
       /\ Player.heldMaterials p2 = Player.heldMaterials p.
Proof.
  intros Hp Hroom Hc Hreach Hput Hnew Hfit w1 r.
  destruct (takeMaterial_new p (Some m) isInitializing Hfit Hnew)
    as (Hheld & _ & _ & Hx & _).
  set (p1 := final (takeMaterial (Some m) isInitializing p)) in *.
  assert (Hw1 : players w1 !! pl = Some p1 /\ rooms w1 = rooms w).
  { subst w1 p1. unfold onPlayer. rewrite Hp.
    destruct (takeMaterial (Some m) isInitializing p) as [[c q] evs].
    unfold final. simpl. by rewrite lookup_insert_eq. }
  destruct Hw1 as [Hp1 Hrooms].
  assert (Hroom1 : roomOf w1 p1 = Some (rloc, rm)).
  { unfold roomOf in *. rewrite Hrooms.
    replace (Player.room p1) with (Player.room p); [done|].
    subst p1. unfold takeMaterial. run. fold (isFull p).
    rewrite Hfit, Hnew. by destruct isInitializing. }
  assert (Hreach1 : canReach p1 (cauldronX cauldron) (cauldronY cauldron) = true).
  { unfold canReach in *. by rewrite Hx. }
  subst r.
  rewrite (deposit_accepted w1 pl p1 (materialItem m) m rloc rm cauldron others cauldron')
    by done.
  unfold status, final. simpl. split; [done|].
  exists p1. eexists. split_and!; [done|done|by rewrite lookup_insert_eq|]. simpl.
  rewrite Hheld.
  rewrite (indexOf_first _ _ (length (Player.heldMaterials p))).
  - rewrite splice_remove by (rewrite length_app; simpl; lia).
    rewrite delete_take_drop, take_app_length.
    rewrite drop_app_ge by lia.
    replace (S (length (Player.heldMaterials p)) - length (Player.heldMaterials p))
      with 1 by lia.
    simpl. by rewrite app_nil_r.
  - by rewrite lookup_app_r, Nat.sub_diag by lia.
  - intros j Hj Hl. rewrite lookup_app_l in Hl by done.
    assert (Hin : Some m ∈ Player.heldMaterials p) by by eapply list_elem_of_lookup_2.
    apply hasMaterial_iff in Hin. congruence.
Qed.
End FixtureFacts.

(** ** More on potions *)

Section PotionFrameFacts.
Context `{Hud, Loader, MaterialRegistry}.
Implicit Types (this : Player.t) (potion : Potion).

Lemma find_Some_elem_of {A} (pred : A -> completion bool) (l : list A) v :
  Array.find pred l = Normal (Some v) -> v ∈ l.
Proof.
  induction l as [|a l IH]; [done|]. simpl.
  destruct (pred a) as [[]|e]; simpl; [|intros Hl; right; by apply IH|done].
  intros [= ->]. by left.
Qed.

Lemma splice_found_length {A} `{EqDecision A} (l : list A) (v new : A) :
  v ∈ l -> length (Array.splice l (Array.indexOf l v) 1 [new]) = length l.
Proof.
  intros (i & -> & Hi & _)%indexOf_present.
  rewrite splice_replace by (by eapply lookup_lt_Some). apply length_insert.
Qed.

(** X16: [applyPotion] never changes how many items the player holds,
    nor the hotbar, the capacity, the position ([x], [y], [z]), the
    target, the room or the images, and it calls no service; when it
    throws or answers false it has changed nothing at all.  So the
    hotbar keeps the entry of a material that a potion replaced. *)
Theorem applyPotion_frame this potion :
  let r := applyPotion potion this in
  length (Player.heldMaterials (final r)) = length (Player.heldMaterials this)
  /\ length (Player.heldPuzzleObjects (final r))
     = length (Player.heldPuzzleObjects this)
  /\ Player.hotbar (final r) = Player.hotbar this
  /\ Player.materialInventorySize (final r) = Player.materialInventorySize this
  /\ Player.x (final r) = Player.x this
  /\ Player.y (final r) = Player.y this
  /\ Player.z (final r) = Player.z this
  /\ Player.targetX (final r) = Player.targetX this
  /\ Player.room (final r) = Player.room this
  /\ Player.standingImage (final r) = Player.standingImage this
  /\ Player.walkingImage (final r) = Player.walkingImage this
  /\ calls r = []
  /\ (throws (status r) -> final r = this)
  /\ (status r = Normal false -> final r = this).
Proof.
  unfold applyPotion. run.
  destruct (Array.find (hasType getMaterialType (applyTo potion))
              (Player.heldMaterials this)) as [rm|e] eqn:Em; simpl; [|done].
  destruct (Array.find (hasType getPuzzleObjectType (applyTo potion))
              (Player.heldPuzzleObjects this)) as [rp|e] eqn:Ep; simpl; [|done].
  destruct rm as [[m|]|]; simpl.
  - apply find_Some_elem_of in Em.
    rewrite splice_found_length by done. done.
  - destruct rp as [[o|]|]; simpl; try done.
    apply find_Some_elem_of in Ep.
    rewrite splice_found_length by done. done.
  - destruct rp as [[o|]|]; simpl; try done.
    apply find_Some_elem_of in Ep.
    rewrite splice_found_length by done. done.
Qed.

Lemma applyPotion_material_run this potion i m :
  Forall (registered materials) (Player.heldMaterials this) ->
  Forall (registered puzzleObjects) (Player.heldPuzzleObjects this) ->
  Player.heldMaterials this !! i = Some (Some m) ->
  getMaterialType (Some m) = Normal (applyTo potion) ->
  (forall j v, j < i -> Player.heldMaterials this !! j = Some v ->
               getMaterialType v <> Normal (applyTo potion)) ->
  applyPotion potion this
  = (Normal true,
     Player.set_heldMaterials
       (fun l => <[i := lookupKey materials (turnsInto potion)]> l) this,
     []).
Proof.
  intros Hmats Hpos Hi Hty Hfirst.
  destruct (find_hasType_registered materials getMaterialType getMaterialType_spec
              (applyTo potion) _ Hmats) as (rm & Em & Hrm).
  destruct (find_hasType_registered puzzleObjects getPuzzleObjectType
              getPuzzleObjectType_spec (applyTo potion) _ Hpos) as (rp & Ep & _).
  unfold applyPotion. run. rewrite Em. simpl. rewrite Ep. simpl.
  destruct rm as [vm|].
  2: { destruct (Hrm (Some m)); [by eapply list_elem_of_lookup_2|done]. }
  destruct Hrm as (i' & m' & -> & Hi' & Hty' & Hfirst').
  assert (i' = i) as ->.
  { destruct (Nat.lt_trichotomy i' i) as [Hlt|[->|Hgt]]; [|done|].
    - by destruct (Hfirst _ _ Hlt Hi').
    - by destruct (Hfirst' _ _ Hgt Hi). }
  assert (m' = m) as -> by congruence. simpl.
  unfold Player.set_heldMaterials. simpl.
  rewrite (indexOf_first _ _ i Hi).
  - by rewrite splice_replace by (by eapply lookup_lt_Some).
  - intros j Hj Hl. by eapply Hfirst.
Qed.

Lemma applyPotion_puzzleObject_run this potion i o :
  Forall (registered materials) (Player.heldMaterials this) ->
  Forall (registered puzzleObjects) (Player.heldPuzzleObjects this) ->
  (forall v, v ∈ Player.heldMaterials this ->
             getMaterialType v <> Normal (applyTo potion)) ->
  Player.heldPuzzleObjects this !! i = Some (Some o) ->
  getPuzzleObjectType (Some o) = Normal (applyTo potion) ->
  (forall j v, j < i -> Player.heldPuzzleObjects this !! j = Some v ->
               getPuzzleObjectType v <> Normal (applyTo potion)) ->
  applyPotion potion this
  = (Normal true,
     Player.set_heldPuzzleObjects
       (fun l => <[i := puzzleObjectAt (turnsInto potion)]> l) this,
     []).
Proof.
  intros Hmats Hpos Hnone Hi Hty Hfirst.
  destruct (find_hasType_registered materials getMaterialType getMaterialType_spec
              (applyTo potion) _ Hmats) as (rm & Em & Hrm).
  destruct (find_hasType_registered puzzleObjects getPuzzleObjectType
              getPuzzleObjectType_spec (applyTo potion) _ Hpos) as (rp & Ep & Hrp).
  unfold applyPotion. run. rewrite Em. simpl. rewrite Ep. simpl.
  destruct rm as [vm|].
  { destruct Hrm as (i' & m' & -> & Hi' & Hty' & _).
    destruct (Hnone (Some m')); [by eapply list_elem_of_lookup_2|done]. }
  destruct rp as [vp|].
  2: { destruct (Hrp (Some o)); [by eapply list_elem_of_lookup_2|done]. }
  destruct Hrp as (i' & o' & -> & Hi' & Hty' & Hfirst').
  assert (i' = i) as ->.
  { destruct (Nat.lt_trichotomy i' i) as [Hlt|[->|Hgt]]; [|done|].
    - by destruct (Hfirst _ _ Hlt Hi').
    - by destruct (Hfirst' _ _ Hgt Hi). }
  assert (o' = o) as -> by congruence. simpl.
  unfold Player.set_heldPuzzleObjects. simpl.
  rewrite (indexOf_first _ _ i Hi).
  - by rewrite splice_replace by (by eapply lookup_lt_Some).
  - intros j Hj Hl. by eapply Hfirst.
Qed.

(** X17: the second branch of [applyPotion].  For a player whose held
    items are definitions of the registries and none of whose materials
    has type [applyTo], a potion writes [puzzleObjects[turnsInto]] into
    the first slot holding a puzzle object of type [applyTo], leaves the
    other slots and the materials as they were, and returns true.  The
    slot then holds the definition under [turnsInto] when that is a key
    of the registry, a value that is no definition when it is an
    inherited name, and [undefined] otherwise. *)
Theorem applyPotion_puzzleObject this potion i o :
  Forall (registered materials) (Player.heldMaterials this) ->
  Forall (registered puzzleObjects) (Player.heldPuzzleObjects this) ->
  (forall v, v ∈ Player.heldMaterials this ->
             getMaterialType v <> Normal (applyTo potion)) ->
  Player.heldPuzzleObjects this !! i = Some (Some o) ->
  getPuzzleObjectType (Some o) = Normal (applyTo potion) ->
  (forall j v, j < i -> Player.heldPuzzleObjects this !! j = Some v ->
               getPuzzleObjectType v <> Normal (applyTo potion)) ->
  let r := applyPotion potion this in
  let slot := Player.heldPuzzleObjects (final r) !! i in
  status r = Normal true
  /\ Player.heldPuzzleObjects (final r)
     = <[i := puzzleObjectAt (turnsInto potion)]> (Player.heldPuzzleObjects this)
  /\ Player.heldMaterials (final r) = Player.heldMaterials this
  /\ (forall definition,
        (turnsInto potion, definition) ∈ puzzleObjects -> slot = Some (Some definition))
  /\ (turnsInto potion ∉ puzzleObjects.*1 ->
      forall value,
        (turnsInto potion, value) ∈ Object_prototype ->
        slot = Some (Some value) /\ ~ registered puzzleObjects (Some value))
  /\ (turnsInto potion ∉ puzzleObjects.*1 -> turnsInto potion ∉ Object_prototype.*1 ->
      slot = Some None).
Proof.
  intros Hmats Hpos Hnone Hi Hty Hfirst r slot. subst r slot.
  rewrite (applyPotion_puzzleObject_run this potion i o) by done.
  unfold status, final. simpl.
  rewrite list_lookup_insert_eq by (by eapply lookup_lt_Some).
  split_and!; try done.
  - intros definition Hin. by rewrite (puzzleObjectAt_entry _ _ Hin).
  - intros Hown value Hin. rewrite (puzzleObjectAt_inherited _ Hown).
    split; [|by eapply inherited_not_registered].
    f_equal.
    destruct (lookupKey Object_prototype (turnsInto potion)) as [v|] eqn:E.
    + apply lookupKey_Some in E. f_equal.
      assert (Hkeys : NoDup Object_prototype.*1).
      { apply (bool_decide_unpack _). by vm_compute. }
      apply list_elem_of_lookup in E as (j & Hj).
      apply list_elem_of_lookup in Hin as (j' & Hj').
      assert (j = j') as ->; [|congruence].
      eapply NoDup_lookup; [exact Hkeys| |].
      * rewrite list_lookup_fmap, Hj. done.
      * rewrite list_lookup_fmap, Hj'. done.
    + apply lookupKey_None in E. destruct E.
      apply list_elem_of_fmap. by eexists (_, _).
  - intros Hown Hinh. f_equal. apply puzzleObjectAt_None. done.
Qed.

(** X18: a potion whose [turnsInto] is not a key of the material
    registry leaves [undefined] in the slot of the material it was
    applied to; the player then cannot be saved: [serialize()] throws. *)
Theorem applyPotion_unknown_target this potion i m :
  Forall (registered materials) (Player.heldMaterials this) ->
  Forall (registered puzzleObjects) (Player.heldPuzzleObjects this) ->
  Player.heldMaterials this !! i = Some (Some m) ->
  getMaterialType (Some m) = Normal (applyTo potion) ->
  (forall j v, j < i -> Player.heldMaterials this !! j = Some v ->
               getMaterialType v <> Normal (applyTo potion)) ->
  turnsInto potion ∉ materials.*1 ->
  let r := applyPotion potion this in
  status r = Normal true
  /\ Player.heldMaterials (final r) !! i = Some None
  /\ throws (serialize (final r)).
Proof.
  intros Hmats Hpos Hi Hty Hfirst Hunknown r. subst r.
  rewrite (applyPotion_material_run this potion i m) by done.
  unfold status, final. simpl.
  rewrite (proj2 (lookupKey_None _ _) Hunknown).
  assert (Hlen : i < length (Player.heldMaterials this)) by by eapply lookup_lt_Some.
  split_and!; [done|by rewrite list_lookup_insert_eq|].
  unfold serialize. simpl.
  assert (Hthrows : forall l : list (option Material.t),
             None ∈ l -> Forall (registered materials) (filter (fun v => v <> None) l) ->
             throws (Array.map getMaterialType l)).
  { clear. intros l. induction l as [|v l IH]; intros Hin Hreg.
    - by apply elem_of_nil in Hin.
    - simpl. destruct v as [m|].
      + rewrite filter_cons_True in Hreg by done.
        apply Forall_cons in Hreg as [Hm Hreg].
        destruct (getType_registered _ _ getMaterialType_spec _ Hm)
          as (k & o & _ & _ & -> & _).
        simpl. apply elem_of_cons in Hin as [?|Hin]; [done|].
        specialize (IH Hin Hreg).
        by destruct (Array.map getMaterialType l).
      + assert (Hn : throws (getMaterialType None)).
        { apply (getType_throws _ _ getMaterialType_spec).
          by intros (? & ? & ? & _). }
        by destruct (getMaterialType None). }
  match goal with
  | |- throws (cbind ?c _) => assert (Hc : throws c); [|by destruct c]
  end.
  apply Hthrows.
  - apply list_elem_of_lookup. exists i. by rewrite list_lookup_insert_eq.
  - apply Forall_forall. intros v [Hv Hin]%list_elem_of_filter.
    apply list_elem_of_lookup in Hin as (j & Hj).
    destruct (decide (j = i)) as [->|Hne].
    + rewrite list_lookup_insert_eq in Hj by done. congruence.
    + rewrite list_lookup_insert_ne in Hj by done.
      rewrite Forall_forall in Hmats. apply Hmats. by eapply list_elem_of_lookup_2.
Qed.
End PotionFrameFacts.

(** ** More on loading and saving the player *)

Section LoadFacts.
Context `{Hud, Loader, MaterialRegistry}.
Implicit Types (this : Player.t) (data : PlayerData.t).

Lemma admitted_full capacity len n :
  (capacity <=? toNumber len)%float = true -> admitted capacity len n = 0.
Proof. intros Hfull. destruct n; [done|]. simpl. by rewrite Hfull. Qed.

(** A capacity that the lengths stay within admits everything. *)
Lemma admitted_within capacity len n :
  arrayLength (len + n) ->
  (toNumber (len + n) <=? capacity)%float = true ->
  admitted capacity len n = n.
Proof.
  revert len. induction n as [|n IH]; intros len Hlen Hfit; [done|].
  simpl. rewrite (below_capacity len (len + S n) capacity) by (done || lia).
  f_equal. apply IH.
  - by replace (S len + n) with (len + S n) by lia.
  - by replace (S len + n) with (len + S n) by lia.
Qed.

(** A capacity that is a whole number [c] admits up to [c]. *)
Lemma admitted_whole (c len n : nat) :
  (Z.of_nat c < 2 ^ 53)%Z -> len <= c ->
  admitted (toNumber c) len n = n `min` (c - len).
Proof.
  intros Hc. revert len. induction n as [|n IH]; intros len Hlen; [done|].
  cbn [admitted]. rewrite toNumber_full by done.
  case_bool_decide as E.
  - subst len. lia.
  - rewrite IH by lia. lia.
Qed.

(** A capacity that is NaN admits everything. *)
Lemma admitted_nan capacity len n : is_nan capacity = true -> admitted capacity len n = n.
Proof.
  intros Hnan. revert len. induction n as [|n IH]; intros len; [done|].
  simpl. destruct (capacity <=? toNumber len)%float eqn:E.
  - apply leb_not_nan in E as [? _]. congruence.
  - by rewrite IH.
Qed.

(** The first loop of the constructor on keys of distinct definitions:
    the inventory takes them in order until it is full. *)
Lemma forOf_takeMaterial_capped (keys : list string) this :
  Forall is_Some (lookupKey materials <$> keys) ->
  NoDup (Player.heldMaterials this ++ (lookupKey materials <$> keys)) ->
  exists hb evs,
    forOf keys (fun mat => takeMaterial (lookupKey materials mat) true) this
    = (Normal tt,
       Player.set_hotbar (fun _ => hb)
         (Player.set_heldMaterials
            (fun l => l ++ take (admitted (Player.materialInventorySize this)
                                   (length l) (length keys))
                            (lookupKey materials <$> keys)) this),
       evs).
Proof.
  revert this. induction keys as [|k keys IH]; intros this Hdef Hnodup.
  - exists (Player.hotbar this), []. simpl. unfold ret.
    destruct this. unfold Player.set_hotbar, Player.set_heldMaterials. simpl.
    by rewrite app_nil_r.
  - rewrite fmap_cons in *. apply Forall_cons in Hdef as [[m Hm] Hdef].
    rewrite Hm in *.
    assert (Hnew : Some m ∉ Player.heldMaterials this).
    { apply NoDup_app in Hnodup as (_ & Hdisj & _).
      intros Hin. apply (Hdisj _ Hin). by left. }
    simpl. unfold bind at 1. rewrite Hm.
    destruct (isFull this) eqn:Hfull.
    + rewrite takeMaterial_full by done.
      destruct (IH this) as (hb & evs & ->).
      * done.
      * apply NoDup_app in Hnodup as (Hl & Hdisj & Hr).
        apply NoDup_cons in Hr as [_ Hr].
        apply NoDup_app. split_and!; [done| |done].
        intros v Hv Hin. apply (Hdisj _ Hv). by right.
      * eexists hb, _. unfold Player.set_hotbar, Player.set_heldMaterials. simpl.
        unfold isFull in Hfull. rewrite Hfull.
        by rewrite (admitted_full _ _ _ Hfull), !take_0.
    + rewrite takeMaterial_accepted by done.
      destruct (IH (Player.set_hotbar (addItem (materialItem m))
                      (Player.set_heldMaterials (fun l => l ++ [Some m]) this)))
        as (hb & evs & ->).
      * done.
      * simpl. by rewrite <- app_assoc.
      * exists hb, evs. unfold Player.set_hotbar, Player.set_heldMaterials. simpl.
        unfold isFull in Hfull. rewrite Hfull.
        rewrite length_app. simpl.
        replace (length (Player.heldMaterials this) + 1)
          with (S (length (Player.heldMaterials this))) by lia.
        by rewrite <- app_assoc.
Qed.

Lemma keys_is_Some {A} `{EqDecision A} (reg : registry A) (keys : list string) :
  (forall k, k ∈ keys -> k ∈ reg.*1) -> Forall is_Some (lookupKey reg <$> keys).
Proof.
  intros Hkeys. apply Forall_fmap, Forall_forall. intros k Hk. simpl.
  destruct (lookupKey reg k) eqn:E; [by eexists|].
  apply lookupKey_None in E. by destruct (E (Hkeys k Hk)).
Qed.

(** What the constructor builds from keys of the registries, the
    materials distinct. *)
Lemma newPlayer_loaded data standingImage walkingImage :
  let keys := nullish (PlayerData.heldMaterials data) [] in
  let mats := lookupKey materials <$> keys in
  let pos := lookupKey puzzleObjects <$> nullish (PlayerData.heldPuzzleObjects data) [] in
  let size := nullish (PlayerData.materialInventorySize data) 5%float in
  (forall k, k ∈ keys -> k ∈ materials.*1) ->
  (forall k, k ∈ nullish (PlayerData.heldPuzzleObjects data) [] -> k ∈ puzzleObjects.*1) ->
  NoDup mats ->
  exists this,
    (newPlayer data standingImage walkingImage).1 = Normal this
    /\ Player.heldMaterials this = take (admitted size 0 (length keys)) mats
    /\ Player.heldPuzzleObjects this = pos
    /\ Player.materialInventorySize this = size
    /\ Player.x this = PlayerData.x data
    /\ Player.y this = PlayerData.y data
    /\ Player.targetX this = PlayerData.x data
    /\ Player.room this = None.
Proof.
  intros keys mats pos size Hmats Hpos Hnodup. unfold newPlayer. cbn [fst]. unfold bind.
  match goal with
  | |- context [forOf ?l ?body ?s0] =>
      destruct (forOf_takeMaterial_capped l s0) as (hb1 & evs1 & E1)
  end.
  { by apply keys_is_Some. }
  { done. }
  rewrite E1.
  assert (Hown : puzzleObjectAt <$> nullish (PlayerData.heldPuzzleObjects data) [] = pos).
  { apply puzzleObjectAt_fmap. by apply keys_is_Some. }
  match goal with
  | |- context [forOf ?l ?body ?s1] =>
      destruct (forOf_takePuzzleObject l s1) as (hb2 & E2)
  end.
  { rewrite Hown. by apply keys_is_Some. }
  rewrite E2. eexists. split; [reflexivity|]. simpl.
  split_and!; try done.
Qed.

(** X19: a save with more materials than the capacity is cut, not
    refused.  From keys of the registries, the materials distinct, the
    constructor returns a player who holds a prefix of the materials of
    the record, as many as are taken one by one while
    [length >= materialInventorySize] fails, and all its puzzle objects,
    in order, standing still in no room.  The capacity is 5 when the
    record gives none.  For a capacity that is a whole number [c] the
    prefix is the first [c] materials; for a capacity that is at most
    0 it is empty; for a capacity that is NaN it is the whole list. *)
Theorem newPlayer_truncates data standingImage walkingImage :
  let keys := nullish (PlayerData.heldMaterials data) [] in
  let size := nullish (PlayerData.materialInventorySize data) 5%float in
  (forall k, k ∈ keys -> k ∈ materials.*1) ->
  (forall k, k ∈ nullish (PlayerData.heldPuzzleObjects data) [] -> k ∈ puzzleObjects.*1) ->
  NoDup (lookupKey materials <$> keys) ->
  exists this,
    (newPlayer data standingImage walkingImage).1 = Normal this
    /\ Player.materialInventorySize this = size
    /\ Player.heldMaterials this
       = take (admitted size 0 (length keys)) (lookupKey materials <$> keys)
    /\ (forall c : nat,
          (Z.of_nat c < 2 ^ 53)%Z -> size = toNumber c ->
          Player.heldMaterials this = take c (lookupKey materials <$> keys)
          /\ length (Player.heldMaterials this) = c `min` length keys)
    /\ ((size <=? 0)%float = true -> Player.heldMaterials this = [])
    /\ (is_nan size = true -> Player.heldMaterials this = lookupKey materials <$> keys)
    /\ Player.heldPuzzleObjects this
       = lookupKey puzzleObjects <$> nullish (PlayerData.heldPuzzleObjects data) []
    /\ Player.targetX this = Player.x this
    /\ Player.room this = None.
Proof.
  intros keys size Hmats Hpos Hnodup.
  destruct (newPlayer_loaded data standingImage walkingImage Hmats Hpos Hnodup)
    as (this & Hnew & Hm & Hp & Hsize & Hx & Hy & Ht & Hroom).
  fold keys size in Hm, Hsize.
  exists this. split_and!; try done.
  - intros c Hc Hcap. rewrite Hm, Hcap, admitted_whole by (done || lia).
    rewrite Nat.sub_0_r.
    assert (Hcut : take (length keys `min` c) (lookupKey materials <$> keys)
                   = take c (lookupKey materials <$> keys)).
    { destruct (Nat.le_ge_cases (length keys) c) as [Hle|Hge].
      - rewrite Nat.min_l by done.
        by rewrite !take_ge by (rewrite length_fmap; lia).
      - by rewrite Nat.min_r by done. }
    rewrite Hcut. split; [done|].
    rewrite length_take, length_fmap. lia.
  - intros Hle. rewrite Hm. by rewrite admitted_full.
  - intros Hnan. rewrite Hm, admitted_nan by done.
    by rewrite take_ge by (rewrite length_fmap; lia).
  - by rewrite Ht, Hx.
Qed.

Lemma map_getType_lookupKey {A} `{EqDecision A} (reg : registry A)
    (getType : option A -> completion string) (keys : list string) :
  reverseLookupOf reg getType ->
  NoDup reg.*2 ->
  (forall k, k ∈ keys -> k ∈ reg.*1) ->
  Array.map getType (lookupKey reg <$> keys) = Normal keys.
Proof.
  intros Hspec Hvalues. induction keys as [|k keys IH]; intros Hkeys; [done|].
  rewrite fmap_cons. simpl.
  destruct (lookupKey reg k) as [o|] eqn:E.
  2: { apply lookupKey_None in E. destruct E. apply Hkeys. by left. }
  pose proof (entryOf_lookupKey reg k o Hvalues E) as Hback.
  pose proof (Hspec (Some o)) as Ho. rewrite Hback in Ho. simpl in Ho.
  rewrite Ho. simpl. rewrite IH; [done|].
  intros k' Hk'. apply Hkeys. by right.
Qed.

(** X20: loading then saving gives the record back.  When the keys of
    a record are keys of the registries, its materials are distinct and
    no more than the capacity, and no material definition sits under two
    keys, the player the constructor builds serializes to the same
    record, the lists and the capacity written out. *)
Theorem newPlayer_serialize data standingImage walkingImage :
  (forall k, k ∈ nullish (PlayerData.heldMaterials data) [] -> k ∈ materials.*1) ->
  (forall k, k ∈ nullish (PlayerData.heldPuzzleObjects data) [] -> k ∈ puzzleObjects.*1) ->
  NoDup (lookupKey materials <$> nullish (PlayerData.heldMaterials data) []) ->
  (toNumber (length (nullish (PlayerData.heldMaterials data) []))
   <=? nullish (PlayerData.materialInventorySize data) 5)%float = true ->
  arrayLength (length (nullish (PlayerData.heldMaterials data) [])) ->
  NoDup materials.*2 ->
  exists this,
    (newPlayer data standingImage walkingImage).1 = Normal this
    /\ serialize this
       = Normal {| PlayerData.x := PlayerData.x data;
                   PlayerData.y := PlayerData.y data;
                   PlayerData.heldMaterials :=
                     Some (nullish (PlayerData.heldMaterials data) []);
                   PlayerData.heldPuzzleObjects :=
                     Some (nullish (PlayerData.heldPuzzleObjects data) []);
                   PlayerData.materialInventorySize :=
                     Some (nullish (PlayerData.materialInventorySize data) 5%float) |}.
Proof.
  intros Hmats Hpos Hnodup Hfit Hlen Hvalues.
  destruct (newPlayer_loaded data standingImage walkingImage Hmats Hpos Hnodup)
    as (this & Hnew & Hm & Hp & Hsize & Hx & Hy & _).
  exists this. split; [done|].
  unfold serialize. rewrite Hm, Hp, Hsize, Hx, Hy.
  rewrite admitted_within by done.
  rewrite take_ge by (rewrite length_fmap; lia).
  rewrite (map_getType_lookupKey materials getMaterialType _ getMaterialType_spec
             Hvalues Hmats).
  simpl.
  by rewrite (map_getType_lookupKey puzzleObjects getPuzzleObjectType _
                getPuzzleObjectType_spec puzzleObjects_values Hpos).
Qed.

Lemma forOf_takePuzzleObject_unknown (keys : list string) this :
  (exists k, k ∈ keys /\ puzzleObjectAt k = None) ->
  status (forOf keys (fun po => takePuzzleObject (puzzleObjectAt po) true) this)
  = Throw (TypeError "Cannot read properties of undefined").
Proof.
  revert this. induction keys as [|k keys IH]; intros this (k' & Hin & Hunknown).
  - by apply elem_of_nil in Hin.
  - simpl. unfold bind.
    destruct (puzzleObjectAt k) as [o|] eqn:E.
    + pose proof (takePuzzleObject_defined this o true) as (Hst & _).
      destruct (takePuzzleObject (Some o) true this) as [[c this1] evs].
      unfold status in Hst. simpl in Hst. subst c.
      assert (Hrest : exists k0, k0 ∈ keys /\ puzzleObjectAt k0 = None).
      { apply elem_of_cons in Hin as [->|Hin]; [congruence|by eauto]. }
      specialize (IH this1 Hrest).
      destruct (forOf keys _ this1) as [[c2 this2] evs2].
      unfold status in *. simpl in *. by subst c2.
    + unfold takePuzzleObject. run. done.
Qed.

(** X21: when the material keys of a record are keys of the registry,
    the constructor throws exactly when some puzzle object key of the
    record names neither an entry of the registry nor an inherited
    property; what it throws is the TypeError of the read of a property
    of [undefined], after [undefined] was pushed.  A record with the
    key "constructor" loads. *)
Theorem newPlayer_unknown_puzzleObject data standingImage walkingImage :
  (forall m, m ∈ nullish (PlayerData.heldMaterials data) [] -> m ∈ materials.*1) ->
  let unknown k :=
    k ∈ nullish (PlayerData.heldPuzzleObjects data) []
    /\ (k ∉ puzzleObjects.*1) /\ (k ∉ Object_prototype.*1) in
  ((exists k, unknown k) ->
     (newPlayer data standingImage walkingImage).1
     = Throw (TypeError "Cannot read properties of undefined"))
  /\ ((forall k, ~ unknown k) ->
      exists this, (newPlayer data standingImage walkingImage).1 = Normal this).
Proof.
  intros Hmats unknown. split.
  - intros (k & Hin & Hunknown). unfold newPlayer. cbn [fst]. unfold bind.
    match goal with
    | |- context [forOf ?l ?body ?s0] =>
        pose proof (fun Hb => forOf_returns body l Hb s0) as Hfirst;
        destruct (forOf l body s0) as [[c st1] evs]
    end.
    assert (Ec : c = Normal tt).
    { apply Hfirst. intros m Hm st.
      destruct (lookupKey materials m) as [o|] eqn:E.
      - apply takeMaterial_returns.
      - apply lookupKey_None in E. by destruct (E (Hmats m Hm)). }
    subst c.
    match goal with
    | |- context [forOf ?l ?body st1] =>
        pose proof (forOf_takePuzzleObject_unknown l st1) as Hsecond;
        destruct (forOf l body st1) as [[c2 st2] evs2]
    end.
    unfold status in *. simpl in *. rewrite Hsecond; [done|].
    exists k. split; [done|]. by apply puzzleObjectAt_None.
  - intros Hknown. apply newPlayer_returns; [done|].
    intros k Hk.
    destruct (decide (k ∈ puzzleObjects.*1)) as [|Hown]; [by left|].
    destruct (decide (k ∈ Object_prototype.*1)) as [|Hinh]; [by right|].
    destruct (Hknown k). by split.
Qed.
End LoadFacts.

(** ** What a loaded player satisfies *)

Section LoadedFacts.
Context `{Hud, Loader, MaterialRegistry}.
Implicit Types (this : Player.t) (data : PlayerData.t).

Lemma forOf_invariant_returned {S X} (I : S -> Prop) (body : X -> M S unit) (l : list X) :
  (forall v st, v ∈ l -> I st -> status (body v st) = Normal tt -> I (final (body v st))) ->
  forall st, I st -> status (forOf l body st) = Normal tt -> I (final (forOf l body st)).
Proof.
  induction l as [|v l IH]; intros Hbody st Hst; [done|].
  simpl. unfold bind.
  pose proof (Hbody v st (list_elem_of_here _ _) Hst) as Hv.
  destruct (body v st) as [[[[]|e] st1] evs]; [|done].
  assert (Hrest : forall v' st', v' ∈ l -> I st' -> status (body v' st') = Normal tt ->
                                 I (final (body v' st'))).
  { intros v' st' Hv'. apply Hbody. by right. }
  specialize (IH Hrest st1 (Hv eq_refl)).
  destruct (forOf l body st1) as [[c st2] evs']. exact IH.
Qed.

Lemma takeMaterial_returned this mat isInitializing :
  status (takeMaterial mat isInitializing this) = Normal tt ->
  final (takeMaterial mat isInitializing this) = this
  \/ exists m,
       mat = Some m
       /\ (Some m ∉ Player.heldMaterials this)
       /\ Player.heldMaterials (final (takeMaterial mat isInitializing this))
          = Player.heldMaterials this ++ [Some m]
       /\ Player.heldPuzzleObjects (final (takeMaterial mat isInitializing this))
          = Player.heldPuzzleObjects this.
Proof.
  destruct (isFull this) eqn:Hfull; [|rename Hfull into Hroom]; cycle 1.
  - destruct (hasMaterial this mat) eqn:Hheld.
    + rewrite takeMaterial_held by done. by left.
    + destruct (takeMaterial_new this mat isInitializing Hroom Hheld)
        as (Hl & _ & Hp & _).
      destruct mat as [m|].
      * intros _. right. exists m. split_and!; try done.
        rewrite <- hasMaterial_iff. by rewrite Hheld.
      * unfold takeMaterial. run. fold (isFull this).
        rewrite Hroom, Hheld. by destruct isInitializing.
  - rewrite takeMaterial_full by done. by left.
Qed.

Lemma takePuzzleObject_returned this (obj : option PuzzleObject.t) isInitializing :
  status (takePuzzleObject obj isInitializing this) = Normal tt ->
  exists o,
    obj = Some o
    /\ Player.heldPuzzleObjects (final (takePuzzleObject obj isInitializing this))
       = Player.heldPuzzleObjects this ++ [Some o]
    /\ Player.heldMaterials (final (takePuzzleObject obj isInitializing this))
       = Player.heldMaterials this.
Proof.
  destruct obj as [o|].
  - intros _. exists o.
    by destruct (takePuzzleObject_defined this o isInitializing) as (_ & -> & -> & _).
  - unfold takePuzzleObject. run. by destruct isInitializing.
Qed.

Lemma takePuzzleObject_materials this (obj : option PuzzleObject.t) isInitializing :
  let r := takePuzzleObject obj isInitializing this in
  Player.heldMaterials (final r) = Player.heldMaterials this
  /\ Player.materialInventorySize (final r) = Player.materialInventorySize this.
Proof. unfold takePuzzleObject. run. by destruct isInitializing, obj. Qed.

(** The constructor keeps a count within a capacity that is a whole
    number. *)
Lemma newPlayer_whole_capacity (c : nat) data standingImage walkingImage this :
  (Z.of_nat c < 2 ^ 53)%Z ->
  nullish (PlayerData.materialInventorySize data) 5%float = toNumber c ->
  (newPlayer data standingImage walkingImage).1 = Normal this ->
  Player.materialInventorySize this = toNumber c
  /\ length (Player.heldMaterials this) <= c.
Proof.
  intros Hc Hsize. unfold newPlayer. cbn [fst]. unfold bind.
  set (I := fun p : Player.t =>
              Player.materialInventorySize p = toNumber c
              /\ length (Player.heldMaterials p) <= c).
  match goal with
  | |- context [forOf ?l ?body ?st] =>
      pose proof (forOf_invariant I body l) as Hfirst;
      specialize (fun Hb => Hfirst Hb st)
  end.
  match type of Hfirst with
  | ?P -> ?Q -> _ => assert (Hb : P); [|assert (Hs0 : Q); [|specialize (Hfirst Hb Hs0)]]
  end.
  { intros k p [Hcap Hle]. split.
    - by rewrite takeMaterial_size.
    - by apply takeMaterial_whole_capacity. }
  { split; [exact Hsize|simpl; lia]. }
  clear Hb Hs0.
  match type of Hfirst with
  | I (final ?r) => destruct r as [[[[]|e] st1] evs]
  end; [|done].
  unfold final in Hfirst. simpl in Hfirst.
  match goal with
  | |- context [forOf ?l ?body st1] =>
      pose proof (forOf_invariant I body l) as Hsecond;
      specialize (fun Hb => Hsecond Hb st1)
  end.
  match type of Hsecond with
  | ?P -> _ => assert (Hb : P); [|specialize (Hsecond Hb Hfirst)]
  end.
  { intros k p [Hcap Hle].
    destruct (takePuzzleObject_materials p (puzzleObjectAt k) true) as [Hm Hs].
    unfold I. by rewrite Hm, Hs. }
  match type of Hsecond with
  | I (final ?r) => destruct r as [[[[]|e] st2] evs2]
  end; [|done].
  unfold status, final in *. simpl in *. by intros [= <-].
Qed.

(** X22: every player the constructor returns is well formed.  Its
    materials are distinct definitions of the material registry.  Each
    of its puzzle objects is what [puzzleObjects[k]] gives for a puzzle
    object key [k] of the record: a definition of the registry, or,
    when [k] is an inherited name, the inherited value; they are all
    definitions when the keys are keys of the registry.  When the
    capacity is a whole number the materials are within it. *)
Theorem newPlayer_well_formed data standingImage walkingImage this :
  (newPlayer data standingImage walkingImage).1 = Normal this ->
  let keys := nullish (PlayerData.heldPuzzleObjects data) [] in
  NoDup (Player.heldMaterials this)
  /\ Forall (registered materials) (Player.heldMaterials this)
  /\ Forall (fun v => exists k o, k ∈ keys /\ v = Some o /\ puzzleObjectAt k = Some o
                                  /\ ((k, o) ∈ puzzleObjects \/ (k, o) ∈ Object_prototype))
       (Player.heldPuzzleObjects this)
  /\ ((forall k, k ∈ keys -> k ∈ puzzleObjects.*1) ->
      Forall (registered puzzleObjects) (Player.heldPuzzleObjects this))
  /\ (forall c : nat,
        (Z.of_nat c < 2 ^ 53)%Z ->
        nullish (PlayerData.materialInventorySize data) 5%float = toNumber c ->
        length (Player.heldMaterials this) <= c /\ withinCapacity this).
Proof.
  intros Hnew keys.
  assert (Hcap : forall c : nat,
             (Z.of_nat c < 2 ^ 53)%Z ->
             nullish (PlayerData.materialInventorySize data) 5%float = toNumber c ->
             length (Player.heldMaterials this) <= c /\ withinCapacity this).
  { intros c Hc Hsize.
    destruct (newPlayer_whole_capacity c _ _ _ _ Hc Hsize Hnew) as [Hs Hle].
    split; [done|]. unfold withinCapacity.
    rewrite Hs, toNumber_leb by lia. by apply Nat.leb_le. }
  set (held := fun v : option PuzzleObject.t =>
                 exists k o, k ∈ keys /\ v = Some o /\ puzzleObjectAt k = Some o
                             /\ ((k, o) ∈ puzzleObjects \/ (k, o) ∈ Object_prototype)).
  assert (Hmain : NoDup (Player.heldMaterials this)
                  /\ Forall (registered materials) (Player.heldMaterials this)
                  /\ Forall held (Player.heldPuzzleObjects this)).
  { revert Hnew. unfold newPlayer. cbn [fst]. unfold bind.
    set (I := fun p : Player.t =>
                NoDup (Player.heldMaterials p)
                /\ Forall (registered materials) (Player.heldMaterials p)
                /\ Forall held (Player.heldPuzzleObjects p)).
    match goal with
    | |- context [forOf ?l ?body ?s0] =>
        pose proof (forOf_invariant_returned I body l) as Hfirst;
        specialize (fun Hb => Hfirst Hb s0)
    end.
    match type of Hfirst with
    | ?P -> ?Q -> _ => assert (Hb : P); [|assert (Hs0 : Q); [|specialize (Hfirst Hb Hs0)]]
    end.
    { intros k p _ (Hn & Hm & Hp) Hst.
      destruct (takeMaterial_returned p _ true Hst) as [->|(m & Hk & Hnew & Hl & Hpo)];
        [done|].
      unfold I. rewrite Hl, Hpo. split_and!; [| |done].
      - apply NoDup_app. split_and!; [done| |apply NoDup_singleton].
        intros v Hv [->|Hnil%elem_of_nil]%elem_of_cons; done.
      - apply Forall_app. split; [done|]. apply Forall_singleton.
        exists k, m. split; [done|]. by apply lookupKey_Some. }
    { unfold I. simpl. split_and!; [apply NoDup_nil_2|done..]. }
    clear Hb Hs0.
    match type of Hfirst with
    | status ?r = _ -> _ => destruct r as [[[[]|e] st1] evs]
    end; [|done].
    specialize (Hfirst eq_refl). unfold final in Hfirst. simpl in Hfirst.
    match goal with
    | |- context [forOf ?l ?body st1] =>
        pose proof (forOf_invariant_returned I body l) as Hsecond;
        specialize (fun Hb => Hsecond Hb st1)
    end.
    match type of Hsecond with
    | ?P -> _ => assert (Hb : P); [|specialize (Hsecond Hb Hfirst)]
    end.
    { intros k p Hk (Hn & Hm & Hp) Hst.
      destruct (takePuzzleObject_returned p _ true Hst) as (o & Ho & Hl & Hmats).
      unfold I. rewrite Hl, Hmats. split_and!; [done..|].
      apply Forall_app. split; [done|]. apply Forall_singleton.
      exists k, o. split_and!; try done.
      unfold puzzleObjectAt, getProperty in Ho.
      destruct (lookupKey puzzleObjects k) as [o'|] eqn:E.
      - left. injection Ho as <-. by apply lookupKey_Some.
      - right. by apply lookupKey_Some. }
    match type of Hsecond with
    | status ?r = _ -> _ => destruct r as [[[[]|e] st2] evs2]
    end; [|done].
    specialize (Hsecond eq_refl). unfold final in Hsecond. simpl in Hsecond.
    unfold status, final. simpl. by intros [= <-]. }
  destruct Hmain as (Hn & Hm & Hp). split_and!; try done.
  intros Hown. eapply Forall_impl; [exact Hp|].
  intros v (k & o & Hk & -> & Hat & _).
  exists k, o. split; [done|].
  rewrite puzzleObjectAt_own in Hat.
  - by apply lookupKey_Some.
  - destruct (lookupKey puzzleObjects k) eqn:E; [by eexists|].
    apply lookupKey_None in E. by destruct (E (Hown k Hk)).
Qed.

Lemma map_throws {A B} (f : A -> completion B) (l : list A) :
  throws (Array.map f l) <-> exists v, v ∈ l /\ throws (f v).
Proof.
  induction l as [|a l IH]; simpl.
  - split; [done|]. by intros (v & Hv%elem_of_nil & _).
  - destruct (f a) as [b|e] eqn:Ea; simpl.
    + destruct (Array.map f l) as [bs|e]; simpl.
      * split; [done|]. intros (v & [->|Hv]%elem_of_cons & Ht).
        -- by rewrite Ea in Ht.
        -- apply IH. by exists v.
      * split; [|done]. intros _. destruct (proj1 IH I) as (v & Hv & Ht).
        exists v. split; [by right|done].
    + split; [|done]. intros _. exists a. split; [by left|]. by rewrite Ea.
Qed.

(** X23: [serialize()] throws exactly when the player holds an item
    that is in no registry (a foreign definition, or the [undefined] a
    potion left); otherwise it returns the position, the capacity and
    one key per held item. *)
Theorem serialize_throws_iff this :
  (throws (serialize this)
   <-> (exists v, v ∈ Player.heldMaterials this /\ ~ registered materials v)
       \/ (exists v, v ∈ Player.heldPuzzleObjects this /\ ~ registered puzzleObjects v))
  /\ (forall data,
        serialize this = Normal data ->
        PlayerData.x data = Player.x this
        /\ PlayerData.y data = Player.y this
        /\ PlayerData.materialInventorySize data = Some (Player.materialInventorySize this)
        /\ exists mats pos,
             PlayerData.heldMaterials data = Some mats
             /\ PlayerData.heldPuzzleObjects data = Some pos
             /\ Array.map getMaterialType (Player.heldMaterials this) = Normal mats
             /\ Array.map getPuzzleObjectType (Player.heldPuzzleObjects this) = Normal pos).
Proof.
  unfold serialize. split.
  - pose proof (map_throws getMaterialType (Player.heldMaterials this)) as Hm.
    pose proof (map_throws getPuzzleObjectType (Player.heldPuzzleObjects this)) as Hp.
    destruct (Array.map getMaterialType (Player.heldMaterials this)) as [mats|e];
      simpl.
    + destruct (Array.map getPuzzleObjectType (Player.heldPuzzleObjects this))
        as [pos|e]; simpl.
      * split; [done|]. intros [(v & Hv & Hno)|(v & Hv & Hno)].
        -- apply Hm. exists v. split; [done|].
           by apply (getType_throws _ _ getMaterialType_spec).
        -- apply Hp. exists v. split; [done|].
           by apply (getType_throws _ _ getPuzzleObjectType_spec).
      * split; [|done]. intros _. right.
        destruct (proj1 Hp I) as (v & Hv & Ht). exists v. split; [done|].
        by apply (getType_throws _ _ getPuzzleObjectType_spec).
    + split; [|done]. intros _. left.
      destruct (proj1 Hm I) as (v & Hv & Ht). exists v. split; [done|].
      by apply (getType_throws _ _ getMaterialType_spec).
  - intros data.
    destruct (Array.map getMaterialType (Player.heldMaterials this)) as [mats|e];
      [|done].
    destruct (Array.map getPuzzleObjectType (Player.heldPuzzleObjects this))
      as [pos|e]; [|done].
    simpl. intros [= <-]. simpl. split_and!; try done. by exists mats, pos.
Qed.
End LoadedFacts.

(** ** Walking to the cursor *)

Section CursorFacts.
Context `{Hud, Loader}.
Implicit Types (this : Player.t).
Open Scope float_scope.

(** X24: [moveToCursor(c)] moves nothing by itself: it sets [targetX]
    to [c], calls no service and leaves [x] and the inventories alone.
    In the frames that follow, with [dt >= 0], the player stays between
    where it stood and [c], unless [x] becomes NaN, and keeps [c] as
    its target and what it holds; when [x] equals a finite [c], every
    point at the abscissa of the cursor is in reach. *)
Theorem moveToCursor_then_ticks this c dt n :
  (0 <=? dt) = true ->
  let r := moveToCursor c this in
  let started := final r in
  let arrived := ticks n dt started in
  status r = Normal tt /\ calls r = []
  /\ started = Player.set_targetX c this
  /\ Player.x started = Player.x this
  /\ Player.targetX arrived = c
  /\ (is_nan (Player.x arrived) = false -> (Player.x this <=? c) = true ->
      (Player.x this <=? Player.x arrived) = true /\ (Player.x arrived <=? c) = true)
  /\ (is_nan (Player.x arrived) = false -> (c <=? Player.x this) = true ->
      (c <=? Player.x arrived) = true /\ (Player.x arrived <=? Player.x this) = true)
  /\ ((Player.x arrived =? c) = true -> is_infinity c = false ->
      forall py, canReach arrived c py = true)
  /\ Player.heldMaterials arrived = Player.heldMaterials this
  /\ Player.heldPuzzleObjects arrived = Player.heldPuzzleObjects this.
Proof.
  intros Hdt r started arrived.
  assert (Hs : started = Player.set_targetX c this) by done.
  assert (Ht : Player.targetX arrived = c).
  { subst arrived. by rewrite ticks_targetX, Hs. }
  split_and!; try done.
  - intros Hn Hle. apply (ticks_forward n dt started Hdt Hn). by rewrite Hs.
  - intros Hn Hle. apply (ticks_backward n dt started Hdt Hn). by rewrite Hs.
  - intros Heq Hfin py. unfold canReach. apply abs_sub_eqb_200.
    + by rewrite eqb_sym.
    + unfold is_infinity in *.
      apply eqb_leb in Heq as [H1 H2].
      destruct (abs (Player.x arrived) =? infinity) eqn:E; [|done].
      rewrite <- Hfin. symmetry. revert E H1 H2.
      rewrite !FloatAxioms.eqb_spec, !FloatAxioms.leb_spec, !abs_spec.
      change (Prim2SF infinity) with (S754_infinity false).
      destruct (Prim2SF (Player.x arrived)) as [?|[]| |[]],
               (Prim2SF c) as [?|[]| |[]]; done.
  - subst arrived. by rewrite ticks_only_x, Hs.
  - subst arrived. by rewrite ticks_only_x, Hs.
Qed.
End CursorFacts.

(** ** The further properties at concrete inputs *)

Section FurtherInstances.
Import Example Scenario.
#[local] Existing Instances hud loader fixtures registryOfMaterials.

Ltac each_element H :=
  repeat (apply elem_of_cons in H as [->|H]); [..|by apply elem_of_nil in H].

Ltac in_registry :=
  repeat constructor; eexists _, _; (split; [reflexivity|]);
  repeat (first [by left | right]).

(** The walker, left of the target, is drawn walking. *)
Lemma draw_pose_witness :
  (Player.x walker <? Player.targetX walker)%float = true
  /\ draw walker
     = [canvasSave; canvasTranslate 100%float 0%float;
        canvasDrawImage (Player.walkingImage walker) (-20)%float (-40)%float;
        canvasRestore].
Proof.
  assert (Hlt : (Player.x walker <? Player.targetX walker)%float = true) by reflexivity.
  split; [exact Hlt|].
  rewrite (proj1 (draw_pose walker) Hlt). reflexivity.
Defined.

(** The spawner of the key in the room of the newcomer. *)
Lemma drawSpawner_until_taken_witness :
  PuzzleObjectSpawner.playerOf spawner (world newcomer)
  = Some (0, Player.set_room (Some 0) newcomer)
  /\ hasPuzzleObject (Player.set_room (Some 0) newcomer) key = false
  /\ drawSpawner spawner (final (PuzzleObjectSpawner.take spawner (world newcomer))) = [].
Proof.
  assert (Hp : PuzzleObjectSpawner.playerOf spawner (world newcomer)
               = Some (0, Player.set_room (Some 0) newcomer)) by reflexivity.
  assert (Hn : hasPuzzleObject (Player.set_room (Some 0) newcomer) key = false)
    by reflexivity.
  split; [exact Hp|]. split; [exact Hn|].
  apply (drawSpawner_until_taken spawner (world newcomer) 0 _ Hp Hn).
Defined.

(** The record of the key is loaded and saved. *)
Lemma spawner_deserialize_serialize_witness :
  PuzzleObjectSpawner.deserialize keyRecord
  = Normal (PuzzleObjectSpawner.set_room None spawner)
  /\ PuzzleObjectSpawner.serialize spawner = Normal keyRecord.
Proof.
  assert (Hd : PuzzleObjectSpawner.deserialize keyRecord
               = Normal (PuzzleObjectSpawner.set_room None spawner)) by reflexivity.
  split; [exact Hd|].
  apply (proj1 (spawner_deserialize_serialize keyRecord _ Hd)
           ltac:(apply (bool_decide_unpack _); exact I) (Some 0)).
Defined.

(** The spawner of the key is saved and loaded. *)
Lemma spawner_serialize_deserialize_witness :
  PuzzleObjectSpawner.serialize spawner = Normal keyRecord
  /\ exists s', PuzzleObjectSpawner.deserialize keyRecord = Normal s'
                /\ PuzzleObjectSpawner.puzzleObject s' = key
                /\ PuzzleObjectSpawner.room s' = None.
Proof.
  assert (Hs : PuzzleObjectSpawner.serialize spawner = Normal keyRecord) by reflexivity.
  split; [exact Hs|].
  destruct (proj2 (spawner_serialize_deserialize spawner) keyRecord Hs)
    as (s' & Hd & Hpo & _ & _ & _ & _ & _ & Hroom).
  exists s'. split_and!; assumption.
Defined.

(** A click at (55, 55) on the spawner at (50, 50), the newcomer
    standing at 100. *)
Lemma doClick_gate_witness :
  status (PuzzleObjectSpawner.doClick spawner 55%float 55%float (world newcomer)) = Normal true.
Proof.
  apply (proj1 (proj2 (proj2 (doClick_gate spawner (world newcomer) 55%float 55%float)))).
  split; [split; by vm_compute|].
  exists 0, (Player.set_room (Some 0) newcomer).
  split; [reflexivity|]. split; [|by vm_compute].
  apply (bool_decide_unpack _). exact I.
Defined.

(** The same click once the newcomer took the key. *)
Lemma doClick_after_take_witness :
  PuzzleObjectSpawner.playerOf spawner (world newcomer)
  = Some (0, Player.set_room (Some 0) newcomer)
  /\ status (PuzzleObjectSpawner.doClick spawner 55%float 55%float
               (final (PuzzleObjectSpawner.take spawner (world newcomer))))
     = Normal false.
Proof.
  assert (Hp : PuzzleObjectSpawner.playerOf spawner (world newcomer)
               = Some (0, Player.set_room (Some 0) newcomer)) by reflexivity.
  split; [exact Hp|].
  apply (doClick_after_take spawner (world newcomer) 0 _ 55%float 55%float Hp).
Defined.

(** The spawner bound to no room. *)
Lemma spawner_without_player_witness :
  PuzzleObjectSpawner.playerOf stray (lobby newcomer) = None
  /\ PuzzleObjectSpawner.take stray (lobby newcomer) = (Normal tt, lobby newcomer, []).
Proof.
  assert (Hp : PuzzleObjectSpawner.playerOf stray (lobby newcomer) = None)
    by reflexivity.
  split; [exact Hp|].
  apply (spawner_without_player stray (lobby newcomer) 0%float 0%float Hp).
Defined.

(** The carrier is offered stone. *)
Lemma takeMaterial_outcome_witness :
  NoDup (Player.heldMaterials carrier)
  /\ NoDup (Player.heldMaterials (final (takeMaterial (Some stone) false carrier))).
Proof.
  assert (Hn : NoDup (Player.heldMaterials carrier))
    by (apply (bool_decide_unpack _); exact I).
  split; [exact Hn|].
  apply (takeMaterial_outcome carrier (Some stone) false). exact Hn.
Defined.

(** The alchemist tosses the key. *)
Lemma tossPuzzleObject_held_witness :
  Player.heldPuzzleObjects alchemist !! 0 = Some (Some key)
  /\ Player.heldPuzzleObjects (final (tossPuzzleObject key alchemist)) = [].
Proof.
  assert (Hi : Player.heldPuzzleObjects alchemist !! 0 = Some (Some key)) by reflexivity.
  split; [exact Hi|].
  apply (tossPuzzleObject_held alchemist key 0 Hi). intros j Hj. lia.
Defined.

(** The alchemist places the key in the furnace of the workshop. *)
Lemma placePuzzleObject_outcome_witness :
  players (studio alchemist) !! 0 = Some (Player.set_room (Some 0) alchemist)
  /\ players (final (placePuzzleObject 0 key (studio alchemist)))
     = <[0 := final (tossPuzzleObject key (Player.set_room (Some 0) alchemist))]>
         (players (studio alchemist)).
Proof.
  assert (Hp : players (studio alchemist) !! 0
               = Some (Player.set_room (Some 0) alchemist)) by reflexivity.
  split; [exact Hp|].
  apply (proj2 (proj2 (placePuzzleObject_outcome (studio alchemist) 0 _ key Hp))
           0 workshop [] [] true [key]); reflexivity.
Defined.

(** The carrier puts the wood in the cauldron of the workshop. *)
Lemma deposit_outcome_witness :
  players (studio carrier) !! 0 = Some (Player.set_room (Some 0) carrier)
  /\ calls (activate 0 (materialItem wood) (studio carrier)) = [save].
Proof.
  assert (Hp : players (studio carrier) !! 0
               = Some (Player.set_room (Some 0) carrier)) by reflexivity.
  split; [exact Hp|].
  apply (proj2 (proj2 (proj2
           (deposit_outcome (studio carrier) 0 _ (materialItem wood) wood 0 workshop
              Hp eq_refl eq_refl)))
           (150%float, 0%float, []) [] (150%float, 0%float, [wood]) 0);
    try reflexivity.
  intros j Hj. lia.
Defined.

(** The mason, whose wood a potion turned into stone, activates the
    entry of the wood: the stone goes. *)
Lemma deposit_of_absent_material_witness :
  (Some wood ∉ Player.heldMaterials (Player.set_room (Some 0) mason))
  /\ status (activate 0 (materialItem wood) (studio mason)) = Normal tt.
Proof.
  assert (Ha : Some wood ∉ Player.heldMaterials (Player.set_room (Some 0) mason)).
  { apply (bool_decide_unpack _). exact I. }
  split; [exact Ha|].
  apply (deposit_of_absent_material (studio mason) 0 (Player.set_room (Some 0) mason)
           (materialItem wood) wood
           0 workshop (150%float, 0%float, []) [] (150%float, 0%float, [wood]));
    try reflexivity.
  exact Ha.
Defined.

(** The newcomer takes wood and puts it in the cauldron. *)
Lemma takeMaterial_then_deposit_witness :
  hasMaterial (Player.set_room (Some 0) newcomer) (Some wood) = false
  /\ status (activate 0 (materialItem wood)
               (final (onPlayer 0 (takeMaterial (Some wood) false) (studio newcomer))))
     = Normal tt.
Proof.
  split; [reflexivity|].
  apply (takeMaterial_then_deposit (studio newcomer) 0
           (Player.set_room (Some 0) newcomer) wood false
           0 workshop (150%float, 0%float, []) [] (150%float, 0%float, [wood]));
    try reflexivity.
Defined.

(** The alchemist shrinks the key. *)
Lemma applyPotion_puzzleObject_witness :
  Player.heldPuzzleObjects alchemist !! 0 = Some (Some key)
  /\ status (applyPotion keyIntoSmallKey alchemist) = Normal true.
Proof.
  assert (Hi : Player.heldPuzzleObjects alchemist !! 0 = Some (Some key)) by reflexivity.
  split; [exact Hi|].
  apply (applyPotion_puzzleObject alchemist keyIntoSmallKey 0 key).
  - in_registry.
  - in_registry.
  - intros v Hv. each_element Hv; by vm_compute.
  - exact Hi.
  - reflexivity.
  - intros j v Hj. lia.
Defined.

(** The alchemist turns the wood into something that is no material. *)
Lemma applyPotion_unknown_target_witness :
  ("key" ∉ materials.*1)
  /\ throws (serialize (final (applyPotion woodIntoKey alchemist))).
Proof.
  assert (Hu : "key" ∉ materials.*1).
  { apply (bool_decide_unpack _). exact I. }
  split; [exact Hu|].
  apply (applyPotion_unknown_target alchemist woodIntoKey 1 wood).
  - in_registry.
  - in_registry.
  - reflexivity.
  - reflexivity.
  - intros j v Hj Hv. destruct j as [|j]; [|lia].
    injection Hv as <-. by vm_compute.
  - exact Hu.
Defined.

Ltac known_keys :=
  let k := fresh "k" in let Hk := fresh "Hk" in
  intros k Hk; simpl in Hk; each_element Hk;
  apply (bool_decide_unpack _); exact I.

(** The crowded save is loaded: the stone is left out. *)
Lemma newPlayer_truncates_witness :
  NoDup (lookupKey materials <$> nullish (PlayerData.heldMaterials crowdedSave) [])
  /\ exists this,
       (newPlayer crowdedSave standing walking).1 = Normal this
       /\ Player.heldMaterials this = [Some wood].
Proof.
  assert (Hn : NoDup (lookupKey materials
                        <$> nullish (PlayerData.heldMaterials crowdedSave) []))
    by (apply (bool_decide_unpack _); exact I).
  split; [exact Hn|].
  destruct (newPlayer_truncates crowdedSave standing walking)
    as (this & Hnew & _ & Hm & _); [known_keys|known_keys|exact Hn|].
  exists this. split; [exact Hnew|]. rewrite Hm. reflexivity.
Defined.

(** The plain save is loaded and saved, the capacity 5 written out. *)
Lemma newPlayer_serialize_witness :
  NoDup materials.*2
  /\ exists this,
       (newPlayer plainSave standing walking).1 = Normal this
       /\ serialize this
          = Normal {| PlayerData.x := 100%float; PlayerData.y := 0%float;
                      PlayerData.heldMaterials := Some ["wood"];
                      PlayerData.heldPuzzleObjects := Some ["key"; "radio"];
                      PlayerData.materialInventorySize := Some 5%float |}.
Proof.
  assert (Hv : NoDup materials.*2) by (apply (bool_decide_unpack _); exact I).
  split; [exact Hv|].
  apply (newPlayer_serialize plainSave standing walking).
  - known_keys.
  - known_keys.
  - apply (bool_decide_unpack _). exact I.
  - reflexivity.
  - by vm_compute.
  - exact Hv.
Defined.

(** The broken save cannot be loaded. *)
Lemma newPlayer_unknown_puzzleObject_witness :
  ("lantern" ∉ puzzleObjects.*1)
  /\ ("lantern" ∉ Object_prototype.*1)
  /\ (newPlayer brokenSave standing walking).1
     = Throw (TypeError "Cannot read properties of undefined").
Proof.
  assert (Hu : "lantern" ∉ puzzleObjects.*1).
  { apply (bool_decide_unpack _). exact I. }
  assert (Hi : "lantern" ∉ Object_prototype.*1).
  { apply (bool_decide_unpack _). exact I. }
  split; [exact Hu|]. split; [exact Hi|].
  apply (proj1 (newPlayer_unknown_puzzleObject brokenSave standing walking
                  ltac:(known_keys))).
  exists "lantern". split; [by left|]. split; [exact Hu|exact Hi].
Defined.

(** The player of the plain save is well formed. *)
Lemma newPlayer_well_formed_witness :
  exists this,
    (newPlayer plainSave standing walking).1 = Normal this
    /\ NoDup (Player.heldMaterials this)
    /\ Forall (registered puzzleObjects) (Player.heldPuzzleObjects this).
Proof.
  destruct ((newPlayer plainSave standing walking).1) as [this|e] eqn:E;
    [|by vm_compute in E].
  exists this. split; [reflexivity|].
  destruct (newPlayer_well_formed plainSave standing walking this E)
    as (Hn & _ & _ & Hp & _).
  split; [exact Hn|]. apply Hp. known_keys.
Defined.

(** The scavenger, who holds the lantern, cannot be saved. *)
Lemma serialize_throws_iff_witness :
  ~ registered puzzleObjects (Some lantern)
  /\ throws (serialize scavenger).
Proof.
  assert (Hl : ~ registered puzzleObjects (Some lantern)).
  { apply entryOf_None. reflexivity. }
  split; [exact Hl|].
  apply (proj1 (serialize_throws_iff scavenger)). right.
  exists (Some lantern). split; [by left|exact Hl].
Defined.

(** Two tenths of a second take the walker from 100 onto 200. *)
Lemma ticks_never_overshoot_witness :
  (0 <=? 0.1)%float = true
  /\ Player.x (ticks 2 0.1%float walker) = 200%float
  /\ (Player.x walker <=? Player.x (ticks 2 0.1%float walker))%float = true
  /\ (Player.x (ticks 2 0.1%float walker) <=? Player.targetX walker)%float = true.
Proof.
  assert (Hdt : (0 <=? 0.1)%float = true) by reflexivity.
  split; [exact Hdt|]. split; [reflexivity|].
  apply (proj1 (proj2 (proj2 (ticks_never_overshoot walker 0.1%float 2 Hdt))));
    reflexivity.
Defined.

(** A tenth of a second backwards takes the walker from 100 to 50. *)
Lemma tick_negative_dt_witness :
  ((-0.1) <=? 0)%float = true
  /\ (Player.x walker <? Player.targetX walker)%float = true
  /\ Player.x (final (tick (-0.1)%float walker)) = (Player.x walker + 500 * (-0.1))%float
  /\ (Player.x (final (tick (-0.1)%float walker)) <=? Player.x walker)%float = true
  /\ (Player.x (final (tick (-0.1)%float walker)) <? Player.targetX walker)%float = true.
Proof.
  assert (Hdt : ((-0.1) <=? 0)%float = true) by reflexivity.
  assert (Hlt : (Player.x walker <? Player.targetX walker)%float = true) by reflexivity.
  split; [exact Hdt|]. split; [exact Hlt|].
  apply (proj1 (tick_negative_dt walker (-0.1)%float Hdt) Hlt). reflexivity.
Defined.

(** The newcomer walks from 100 to a cursor at 200. *)
Lemma moveToCursor_then_ticks_witness :
  (0 <=? 0.1)%float = true
  /\ Player.x (ticks 2 0.1%float (final (moveToCursor 200%float newcomer))) = 200%float
  /\ forall py,
       canReach (ticks 2 0.1%float (final (moveToCursor 200%float newcomer)))
         200%float py = true.
Proof.
  assert (Hdt : (0 <=? 0.1)%float = true) by reflexivity.
  split; [exact Hdt|]. split; [reflexivity|].
  destruct (moveToCursor_then_ticks newcomer 200%float 0.1%float 2 Hdt)
    as (_ & _ & _ & _ & _ & _ & _ & Hreach & _).
  apply Hreach; reflexivity.
Defined.

End FurtherInstances.
